(** * Vaccination registry (IAED 2025): a shallow embedding and its properties

    The C program keeps vaccine lots in three linked indices (a chained hash
    table by lot id, a chained hash table of per-name groups, a global list),
    and inoculations in a per-user index plus a global list.  The embedding
    below follows the source file by file:

    - [VaccineLot] cells are mutable and shared, so they live in a store
      ([heap]) and every index holds addresses;
    - [Inoculation] cells are never written after creation, so they are held
      by value together with their address, which is what pointer equality
      compares;
    - chains ([next_hash], [next_vaccine], [next_global]) are the lists of
      the cells they link, head first; counted arrays ([lots], [inoculations])
      are lists whose length is the count;
    - [int] is a 32-bit two's complement integer carried in [Z], [unsigned]
      a 32-bit natural carried in [Z]; the wrap-around is written out;
    - every command returns the new state and the lines it printed;
    - [malloc] never fails. *)

From Stdlib Require Import ZArith Lia Ascii String List.
From stdpp Require Import base option list gmap strings pretty sorting.

Local Open Scope string_scope.
Local Open Scope list_scope.
Local Open Scope Z_scope.

(** ** Machine integers *)

Definition wrap_int (z : Z) : Z := (z + 2 ^ 31) mod 2 ^ 32 - 2 ^ 31.
Definition wrap_uint (z : Z) : Z := z mod 2 ^ 32.
Definition int_range (z : Z) : Prop := - 2 ^ 31 <= z < 2 ^ 31.

(** ** constants.h *)

Definition SIZE_COMMAND : Z := 65535.
Definition HASH_SIZE : Z := 1009.
Definition MAX_VACCINES : Z := 1000.

(** ** The C library functions the program calls

    Strings are NUL-free byte strings.  [strcmp] is specified by the sign of
    its result only: the order is the lexicographic order of the bytes read
    as [unsigned char]. *)

Definition byte_of (c : ascii) : Z := Z.of_N (N_of_ascii c).

(** [char] is signed on the target (gcc, x86-64). *)
Definition char_of (c : ascii) : Z :=
  if byte_of c <? 128 then byte_of c else byte_of c - 256.

Definition strcmp (a b : string) : Z :=
  match String.compare a b with
  | Eq => 0
  | Lt => -1
  | Gt => 1
  end.

Definition isspace (c : ascii) : bool :=
  (byte_of c =? 32) || ((9 <=? byte_of c) && (byte_of c <=? 13)).

Definition isdigit (c : ascii) : bool :=
  (48 <=? byte_of c) && (byte_of c <=? 57).

Definition strlen (s : string) : Z := Z.of_nat (String.length s).

(** [strchr s c]: the text before the first [c] and the text from it on. *)
Fixpoint strchr (s : string) (c : ascii) : option (string * string) :=
  match s with
  | EmptyString => None
  | String x r =>
      if Ascii.eqb x c then Some (EmptyString, s)
      else match strchr r c with
           | Some (pre, suf) => Some (String x pre, suf)
           | None => None
           end
  end.

(** [strspn]/[strcspn] as a split: the longest prefix of bytes (not) in
    [delim], and what follows. *)
Definition is_delim (delim : string) (c : ascii) : bool :=
  existsb (Ascii.eqb c) (list_ascii_of_string delim).

Fixpoint skip_delims (delim : string) (s : string) : string :=
  match s with
  | EmptyString => EmptyString
  | String x r => if is_delim delim x then skip_delims delim r else s
  end.

Fixpoint span_token (delim : string) (s : string) : string * string :=
  match s with
  | EmptyString => (EmptyString, EmptyString)
  | String x r =>
      if is_delim delim x then (EmptyString, s)
      else let '(tok, rest) := span_token delim r in (String x tok, rest)
  end.

(** [strtok_r (s, delim, &save)]: [None] when no token is left, otherwise the
    token and the new save pointer (one past the delimiter that ended the
    token, or the end of the string). *)
Definition strtok_r (s : string) (delim : string) : option (string * string) :=
  match s with
  | EmptyString => None
  | _ =>
      match skip_delims delim s with
      | EmptyString => None
      | s1 =>
          match span_token delim s1 with
          | (tok, EmptyString) => Some (tok, EmptyString)
          | (tok, String _ rest) => Some (tok, rest)
          end
      end
  end.

(** Decimal conversions: [%d] of [sscanf] and [atoi] skip white space, take
    an optional sign and the digits that follow.  Both convert with [strtol],
    which saturates at the bounds of [long]; the result is then reduced to
    [int]. *)
Definition strtol_clamp (z : Z) : Z := Z.max (- 2 ^ 63) (Z.min z (2 ^ 63 - 1)).

Fixpoint scan_digits (s : string) (acc : Z) (seen : bool) : Z * bool * string :=
  match s with
  | String x r =>
      if isdigit x then scan_digits r (10 * acc + (byte_of x - 48)) true
      else (acc, seen, s)
  | EmptyString => (acc, seen, s)
  end.

Fixpoint skip_space (s : string) : string :=
  match s with
  | String x r => if isspace x then skip_space r else s
  | EmptyString => EmptyString
  end.

Definition scan_int (s : string) : option (Z * string) :=
  let s1 := skip_space s in
  let '(neg, s2) :=
    match s1 with
    | String "-" r => (true, r)
    | String "+" r => (false, r)
    | _ => (false, s1)
    end in
  let '(v, seen, rest) := scan_digits s2 0 false in
  if seen then Some (wrap_int (strtol_clamp (if neg then - v else v)), rest)
  else None.

Definition atoi (s : string) : Z :=
  match scan_int s with
  | Some (v, _) => v
  | None => 0
  end.

(** [printf] conversions. *)
Definition fmt_d (z : Z) : string := pretty z.
Definition fmt_02d (z : Z) : string :=
  let s := pretty z in
  if (String.length s <? 2)%nat then "0" +:+ s else s.

(** ** project.h: data structures *)

Record Date := mkDate { day : Z; month : Z; year : Z }.

Definition ptr := nat.

Record VaccineLot := mkLot {
  lot : string;
  name : string;
  validation : Date;
  doses : Z;
  dosesUsed : Z;
  isRemoved : bool
}.

Record Inoculation := mkInoc {
  inoc_addr : ptr;
  user : string;
  inoc_lot : string;
  date : Date
}.

Record VaccineNameIndex := mkNameIndex {
  vni_name : string;
  lots : list ptr
}.

Record UserIndex := mkUserIndex {
  userName : string;
  inoculations : list Inoculation
}.

Global Instance Date_inhabited : Inhabited Date := populate (mkDate 0 0 0).
Global Instance VaccineLot_inhabited : Inhabited VaccineLot :=
  populate (mkLot "" "" inhabitant 0 0 false).

Global Instance Date_eq_dec : EqDecision Date.
Proof. solve_decision. Defined.
Global Instance VaccineLot_eq_dec : EqDecision VaccineLot.
Proof. solve_decision. Defined.
Global Instance Inoculation_eq_dec : EqDecision Inoculation.
Proof. solve_decision. Defined.

(** The registry: the store of lots, the three hash tables (bucket index to
    chain, an absent index is a NULL bucket), the two global lists, the lot
    counter, the clock, and the allocator's next addresses. *)
Record State := mkState {
  heap : gmap ptr VaccineLot;
  hashTable : gmap Z (list ptr);
  nameHashTable : gmap Z (list VaccineNameIndex);
  userHashTable : gmap Z (list UserIndex);
  vaccineList : list ptr;
  inoculationList : list Inoculation;
  vaccineCount : Z;
  currentDate : Date;
  next_lot : ptr;
  next_inoc : ptr
}.

Definition bucket {A} (t : gmap Z (list A)) (i : Z) : list A := t !!! i.

(** ** data_structures.c *)

Definition hash_step (hash : Z) (c : ascii) : Z :=
  wrap_uint (wrap_uint (wrap_uint (Z.shiftl hash 5) + hash) + char_of c).

Fixpoint hash_loop (s : string) (hash : Z) : Z :=
  match s with
  | EmptyString => hash
  | String c r => hash_loop r (hash_step hash c)
  end.

Definition hashString (str : string) (size : Z) : Z :=
  hash_loop str 5381 mod size.

(** utils.c: the same function under another name. *)
Definition hashBatch (batch : string) (size : Z) : Z :=
  hash_loop batch 5381 mod size.

Definition initialState : State :=
  mkState ∅ ∅ ∅ ∅ [] [] 0 (mkDate 1 1 2025) 0%nat 0%nat.

(** The three chain searches are the same loop: walk the chain and return the
    first cell whose key compares equal. *)
Fixpoint find_chain {A} (key : A → string) (chain : list A) (k : string)
  : option A :=
  match chain with
  | [] => None
  | x :: rest =>
      if strcmp (key x) k =? 0 then Some x else find_chain key rest k
  end.

Definition id_of (h : gmap ptr VaccineLot) (p : ptr) : string := lot (h !!! p).
Definition name_of (h : gmap ptr VaccineLot) (p : ptr) : string := name (h !!! p).

Definition findVaccineByBatch (h : gmap ptr VaccineLot)
    (table : gmap Z (list ptr)) (batch : string) (size : Z) : option ptr :=
  find_chain (id_of h) (bucket table (hashString batch size)) batch.

Definition findVaccineByName (table : gmap Z (list VaccineNameIndex))
    (nm : string) (size : Z) : option VaccineNameIndex :=
  find_chain vni_name (bucket table (hashString nm size)) nm.

Definition findUserByName (table : gmap Z (list UserIndex))
    (u : string) (size : Z) : option UserIndex :=
  find_chain userName (bucket table (hashString u size)) u.

(** State updates. *)
Definition set_heap (s : State) (h : gmap ptr VaccineLot) : State :=
  mkState h (hashTable s) (nameHashTable s) (userHashTable s) (vaccineList s)
    (inoculationList s) (vaccineCount s) (currentDate s) (next_lot s)
    (next_inoc s).

Definition set_currentDate (s : State) (d : Date) : State :=
  mkState (heap s) (hashTable s) (nameHashTable s) (userHashTable s)
    (vaccineList s) (inoculationList s) (vaccineCount s) d (next_lot s)
    (next_inoc s).

(** [createVaccineLot]: a fresh cell, [dosesUsed = 0], not removed. *)
Definition createVaccineLot (batch nm : string) (validation : Date) (d : Z)
  : VaccineLot := mkLot batch nm validation d 0 false.

Definition createInoculation (a : ptr) (u l : string) (d : Date) : Inoculation :=
  mkInoc a u l d.

(** [addVaccineLotToHash]: push at the head of the bucket's chain. *)
Definition addVaccineLotToHash (h : gmap ptr VaccineLot)
    (table : gmap Z (list ptr)) (p : ptr) (size : Z) : gmap Z (list ptr) :=
  let index := hashString (lot (h !!! p)) size in
  <[index := p :: bucket table index]> table.

(** Writing through the pointer returned by a chain search: the first entry
    whose key compares equal is replaced by its image. *)
Fixpoint update_chain {A} (key : A → string) (chain : list A) (k : string)
    (f : A → A) : list A :=
  match chain with
  | [] => []
  | x :: rest =>
      if strcmp (key x) k =? 0 then f x :: rest
      else x :: update_chain key rest k f
  end.

(** [findOrCreateNameIndexEntry]: a missing entry is created empty at the head
    of its chain. *)
Definition findOrCreateNameIndexEntry (table : gmap Z (list VaccineNameIndex))
    (nm : string) (size : Z) : gmap Z (list VaccineNameIndex) :=
  let index := hashString nm size in
  match find_chain vni_name (bucket table index) nm with
  | Some _ => table
  | None => <[index := mkNameIndex nm [] :: bucket table index]> table
  end.

(** [addVaccineLotToNameIndex]: [lots[lotCount++] = lot] (the array grows by
    [realloc] when full). *)
Definition addVaccineLotToNameIndex (h : gmap ptr VaccineLot)
    (table : gmap Z (list VaccineNameIndex)) (p : ptr) (size : Z)
  : gmap Z (list VaccineNameIndex) :=
  let nm := name (h !!! p) in
  let table1 := findOrCreateNameIndexEntry table nm size in
  let index := hashString nm size in
  <[index := update_chain vni_name (bucket table1 index) nm
               (λ e, mkNameIndex (vni_name e) (lots e ++ [p]))]> table1.

Definition findOrCreateUserIndexEntry (table : gmap Z (list UserIndex))
    (u : string) (size : Z) : gmap Z (list UserIndex) :=
  let index := hashString u size in
  match find_chain userName (bucket table index) u with
  | Some _ => table
  | None => <[index := mkUserIndex u [] :: bucket table index]> table
  end.

Definition addInoculationToUserIndex (table : gmap Z (list UserIndex))
    (inoc : Inoculation) (size : Z) : gmap Z (list UserIndex) :=
  let u := user inoc in
  let table1 := findOrCreateUserIndexEntry table u size in
  let index := hashString u size in
  <[index := update_chain userName (bucket table1 index) u
               (λ e, mkUserIndex (userName e) (inoculations e ++ [inoc]))]> table1.

Definition compareDates (a b : Date) : Z :=
  if negb (year a =? year b) then wrap_int (year a - year b)
  else if negb (month a =? month b) then wrap_int (month a - month b)
  else wrap_int (day a - day b).

(** ** utils.c *)

Definition isValidBatch (batch : string) : bool :=
  if 20 <? wrap_int (strlen batch) then false
  else forallb (λ c, isdigit c || ((byte_of "A" <=? byte_of c) && (byte_of c <=? byte_of "F")))
         (list_ascii_of_string batch).

Definition isValidName (nm : string) : bool :=
  if 50 <? wrap_int (strlen nm) then false
  else forallb (λ c, negb (isspace c)) (list_ascii_of_string nm).

Definition isMonthValid (m : Z) : bool := (1 <=? m) && (m <=? 12).

Definition is_leap (y : Z) : bool :=
  (Z.rem y 4 =? 0) && (negb (Z.rem y 100 =? 0) || (Z.rem y 400 =? 0)).

Definition daysInMonth_table : list Z :=
  [0; 31; 28; 31; 30; 31; 30; 31; 31; 30; 31; 30; 31].

Definition getDaysInMonth (m y : Z) : Z :=
  if (m =? 2) && is_leap y then 29
  else daysInMonth_table !!! Z.to_nat m.

Definition isDayValid (d m y : Z) : bool :=
  (1 <=? d) && (d <=? getDaysInMonth m y).

Definition isDateNotEarlier (d cur : Date) : bool :=
  if year d <? year cur then false
  else if (year d =? year cur) && (month d <? month cur) then false
  else if (year d =? year cur) && (month d =? month cur) && (day d <? day cur)
       then false
  else true.

Definition isValidDate (d cur : Date) : bool :=
  if negb (isMonthValid (month d)) then false
  else if negb (isDayValid (day d) (month d) (year d)) then false
  else if negb (isDateNotEarlier d cur) then false
  else true.

(** [sscanf (s, "%d-%d-%d", ...) == 3] *)
Definition sscanf_date (s : string) : option Date :=
  match scan_int s with
  | Some (d, String "-" r1) =>
      match scan_int r1 with
      | Some (m, String "-" r2) =>
          match scan_int r2 with
          | Some (y, _) => Some (mkDate d m y)
          | None => None
          end
      | _ => None
      end
  | _ => None
  end.

(** ** Messages, in the two languages *)

Definition output := list string.

Definition msg (portuguese : bool) (pt en : string) : string :=
  if portuguese then pt else en.

(** ** command_c.c *)

Definition parseValidationDate (token : string) : option Date := sscanf_date token.

Definition parseArgumentsC (args : string) : option (string * Date * Z * string) :=
  match strtok_r args " " with
  | None => None
  | Some (batch, rest1) =>
      match strtok_r rest1 " " with
      | None => None
      | Some (token2, rest2) =>
          match parseValidationDate token2 with
          | None => None
          | Some validation =>
              match strtok_r rest2 " " with
              | None => None
              | Some (token3, rest3) =>
                  let d := atoi token3 in
                  match rest3 with
                  | EmptyString => None
                  | _ => Some (batch, validation, d, rest3)
                  end
              end
          end
      end
  end.

(** [validateNewVaccine]: the line printed on failure, if any. *)
Definition validateNewVaccine (batch : string) (validation : Date) (d : Z)
    (nm : string) (cur : Date) (portuguese : bool) : option string :=
  if negb (isValidBatch batch) then Some (msg portuguese "lote inválido" "invalid batch")
  else if negb (isValidName nm) then Some (msg portuguese "nome inválido" "invalid name")
  else if negb (isValidDate validation cur) then Some (msg portuguese "data inválida" "invalid date")
  else if d <=? 0 then Some (msg portuguese "quantidade inválida" "invalid quantity")
  else None.

Definition addNewVaccineToSystem (batch nm : string) (validation : Date)
    (d : Z) (s : State) (hashSize maxVaccines : Z) (portuguese : bool)
  : State * output :=
  if vaccineCount s >=? maxVaccines then
    (s, [msg portuguese "demasiadas vacinas" "too many vaccines"])
  else if bool_decide (is_Some (findVaccineByBatch (heap s) (hashTable s) batch hashSize)) then
    (s, [msg portuguese "número de lote duplicado" "duplicate batch number"])
  else
    let p := next_lot s in
    let h := <[p := createVaccineLot batch nm validation d]> (heap s) in
    let ht := addVaccineLotToHash h (hashTable s) p hashSize in
    let nt := addVaccineLotToNameIndex h (nameHashTable s) p hashSize in
    (mkState h ht nt (userHashTable s) (p :: vaccineList s)
       (inoculationList s) (wrap_int (vaccineCount s + 1)) (currentDate s)
       (S p) (next_inoc s),
     [batch]).

Definition commandC (args : string) (s : State) (hashSize maxVaccines : Z)
    (portuguese : bool) : State * output :=
  match parseArgumentsC args with
  | None => (s, [msg portuguese "sem memória" "No memory"])
  | Some (batch, validation, d, nm) =>
      match validateNewVaccine batch validation d nm (currentDate s) portuguese with
      | Some line => (s, [line])
      | None => addNewVaccineToSystem batch nm validation d s hashSize maxVaccines portuguese
      end
  end.

(** ** command_l.c: the comparator (used by command A as well) *)

Definition compareVaccines (vaccineA vaccineB : VaccineLot) : Z :=
  if negb (year (validation vaccineA) =? year (validation vaccineB)) then
    wrap_int (year (validation vaccineA) - year (validation vaccineB))
  else if negb (month (validation vaccineA) =? month (validation vaccineB)) then
    wrap_int (month (validation vaccineA) - month (validation vaccineB))
  else if negb (day (validation vaccineA) =? day (validation vaccineB)) then
    wrap_int (day (validation vaccineA) - day (validation vaccineB))
  else strcmp (lot vaccineA) (lot vaccineB).

(** ** command_a.c *)

Definition dquote : ascii := "034"%char.

Definition extractQuotedName (args : string) : option (string * string) :=
  match args with
  | String _ r =>
      match strchr r dquote with
      | Some (nm, String _ rest) => Some (nm, rest)
      | _ => None
      end
  | EmptyString => None
  end.

Definition extractUnquotedName (args : string) : option (string * string) :=
  match strchr args " "%char with
  | Some (nm, String _ rest) => Some (nm, rest)
  | _ => None
  end.

Definition extractVaccineName (rest : string) : option string :=
  match skip_space rest with
  | EmptyString => None
  | r => Some r
  end.

Definition extractArguments (args : string) : option (string * string) :=
  let parsed :=
    match args with
    | String c _ =>
        if Ascii.eqb c dquote then extractQuotedName args
        else extractUnquotedName args
    | EmptyString => extractUnquotedName args
    end in
  match parsed with
  | None => None
  | Some (u, rest) =>
      match extractVaccineName rest with
      | None => None
      | Some v => Some (u, v)
      end
  end.

Definition inoculationMatches (h : gmap ptr VaccineLot) (inoc : Inoculation)
    (cur : Date) (vaccineEntry : VaccineNameIndex) : bool :=
  if (day (date inoc) =? day cur) && (month (date inoc) =? month cur)
     && (year (date inoc) =? year cur)
  then existsb (λ p, strcmp (inoc_lot inoc) (lot (h !!! p)) =? 0) (lots vaccineEntry)
  else false.

Definition isAlreadyVaccinated (s : State) (u v : string) (cur : Date)
    (hashSize : Z) : bool :=
  match findUserByName (userHashTable s) u hashSize with
  | None => false
  | Some userEntry =>
      match findVaccineByName (nameHashTable s) v hashSize with
      | None => false
      | Some vaccineEntry =>
          existsb (λ i, inoculationMatches (heap s) i cur vaccineEntry)
            (inoculations userEntry)
      end
  end.

Definition isLotValidAndAvailable (vl : VaccineLot) (cur : Date) : bool :=
  negb (isRemoved vl) && (doses vl >? dosesUsed vl)
  && (compareDates (validation vl) cur >=? 0).

(** The scan of [findOldestValidLotFromList], with the running best. *)
Fixpoint oldest_loop (h : gmap ptr VaccineLot) (l : list ptr) (cur : Date)
    (oldestValidLot : option ptr) : option ptr :=
  match l with
  | [] => oldestValidLot
  | p :: rest =>
      let best :=
        if isLotValidAndAvailable (h !!! p) cur then
          match oldestValidLot with
          | None => Some p
          | Some o =>
              if compareVaccines (h !!! p) (h !!! o) <? 0 then Some p
              else oldestValidLot
          end
        else oldestValidLot in
      oldest_loop h rest cur best
  end.

Definition findOldestValidLotFromList (h : gmap ptr VaccineLot)
    (l : list ptr) (cur : Date) : option ptr := oldest_loop h l cur None.

Definition findOldestValidLot (s : State) (v : string) (cur : Date)
    (hashSize : Z) : option ptr :=
  match findVaccineByName (nameHashTable s) v hashSize with
  | None => None
  | Some vaccineEntry =>
      match lots vaccineEntry with
      | [] => None
      | l => findOldestValidLotFromList (heap s) l cur
      end
  end.

Definition use_dose (vl : VaccineLot) : VaccineLot :=
  mkLot (lot vl) (name vl) (validation vl) (doses vl)
    (wrap_int (dosesUsed vl + 1)) (isRemoved vl).

(** [applyVaccine]: the user index is addressed with the global [HASH_SIZE]. *)
Definition applyVaccine (u : string) (p : ptr) (cur : Date) (s : State)
  : State * output :=
  let vl := heap s !!! p in
  let newInoc := createInoculation (next_inoc s) u (lot vl) cur in
  let ut := addInoculationToUserIndex (userHashTable s) newInoc HASH_SIZE in
  (mkState (<[p := use_dose vl]> (heap s)) (hashTable s) (nameHashTable s) ut
     (vaccineList s) (newInoc :: inoculationList s) (vaccineCount s)
     (currentDate s) (next_lot s) (S (next_inoc s)),
   [lot vl]).

Definition processVaccineApplication (u v : string) (s : State)
    (hashSize : Z) (cur : Date) (portuguese : bool) : State * output :=
  if isAlreadyVaccinated s u v cur hashSize then
    (s, [msg portuguese "já vacinado" "already vaccinated"])
  else
    match findOldestValidLot s v cur hashSize with
    | None => (s, [msg portuguese "esgotado" "no stock"])
    | Some p => applyVaccine u p cur s
    end.

Definition commandA (args : string) (s : State) (hashSize : Z) (cur : Date)
    (portuguese : bool) : State * output :=
  match extractArguments args with
  | None => (s, [msg portuguese "argumentos inválidos" "invalid arguments"])
  | Some (u, v) => processVaccineApplication u v s hashSize cur portuguese
  end.

(** ** command_r.c *)

Fixpoint removeVaccineFromList (h : gmap ptr VaccineLot) (l : list ptr)
    (batch : string) : list ptr :=
  match l with
  | [] => []
  | p :: rest =>
      if strcmp (lot (h !!! p)) batch =? 0 then rest
      else p :: removeVaccineFromList h rest batch
  end.

(** [removeVaccineFromHash] unlinks the first cell of the bucket with that id
    and frees it. *)
Definition removeVaccineFromHash (h : gmap ptr VaccineLot)
    (table : gmap Z (list ptr)) (batch : string) (size : Z)
  : gmap ptr VaccineLot * gmap Z (list ptr) :=
  let index := hashBatch batch size in
  match find_chain (id_of h) (bucket table index) batch with
  | None => (h, table)
  | Some p =>
      (delete p h,
       <[index := removeVaccineFromList h (bucket table index) batch]> table)
  end.

(** [lots[i] = lots[lotCount - 1]; lotCount--] at the first [i] whose lot has
    that id. *)
Definition swap_remove {A} (l : list A) (i : nat) : list A :=
  match last l with
  | None => l
  | Some x => take (length l - 1) (<[i := x]> l)
  end.

Fixpoint index_of_batch (h : gmap ptr VaccineLot) (l : list ptr)
    (batch : string) : option nat :=
  match l with
  | [] => None
  | p :: rest =>
      if strcmp (lot (h !!! p)) batch =? 0 then Some 0%nat
      else S <$> index_of_batch h rest batch
  end.

Definition remove_lot_from_entry (h : gmap ptr VaccineLot) (batch : string)
    (e : VaccineNameIndex) : VaccineNameIndex :=
  match index_of_batch h (lots e) batch with
  | Some i => mkNameIndex (vni_name e) (swap_remove (lots e) i)
  | None => e
  end.

Definition removeVaccineFromNameIndex (h : gmap ptr VaccineLot)
    (table : gmap Z (list VaccineNameIndex)) (batch vaccineName : string)
    (hashSize : Z) : gmap Z (list VaccineNameIndex) :=
  let index := hashString vaccineName hashSize in
  match find_chain vni_name (bucket table index) vaccineName with
  | None => table
  | Some _ =>
      <[index := update_chain vni_name (bucket table index) vaccineName
                   (remove_lot_from_entry h batch)]> table
  end.

Definition handleUnusedVaccineLot (batch : string) (s : State) (hashSize : Z)
  : State :=
  match findVaccineByBatch (heap s) (hashTable s) batch hashSize with
  | None => s
  | Some p =>
      let nt := removeVaccineFromNameIndex (heap s) (nameHashTable s) batch
                  (name (heap s !!! p)) hashSize in
      let vlist := removeVaccineFromList (heap s) (vaccineList s) batch in
      let '(h, ht) := removeVaccineFromHash (heap s) (hashTable s) batch hashSize in
      mkState h ht nt (userHashTable s) vlist (inoculationList s)
        (vaccineCount s) (currentDate s) (next_lot s) (next_inoc s)
  end.

Definition freeze (vl : VaccineLot) : VaccineLot :=
  mkLot (lot vl) (name vl) (validation vl) (dosesUsed vl) (dosesUsed vl) true.

Definition handleUsedVaccineLot (p : ptr) (s : State) : State :=
  set_heap s (<[p := freeze (heap s !!! p)]> (heap s)).

Definition commandR (args : string) (s : State) (hashSize : Z)
    (portuguese : bool) : State * output :=
  match args with
  | EmptyString => (s, [msg portuguese "lote em falta" "missing batch"])
  | _ =>
      match findVaccineByBatch (heap s) (hashTable s) args hashSize with
      | None =>
          (s, [args +:+ msg portuguese ": lote inexistente" ": no such batch"])
      | Some p =>
          let line := fmt_d (dosesUsed (heap s !!! p)) in
          if dosesUsed (heap s !!! p) =? 0 then
            (handleUnusedVaccineLot args s hashSize, [line])
          else (handleUsedVaccineLot p s, [line])
      end
  end.

(** ** command_d.c *)

Record DeleteArgs := mkDeleteArgs {
  da_userName : string;
  da_date : option Date;
  da_lotId : option string
}.

Definition isDateFormatValid (d : Date) : bool :=
  if (month d <? 1) || (month d >? 12) then false
  else
    let dim := if (month d =? 2) && is_leap (year d) then 29
               else daysInMonth_table !!! Z.to_nat (month d) in
    (day d >=? 1) && (day d <=? dim).

Definition isDateFuture (d cur : Date) : bool :=
  (year d >? year cur)
  || ((year d =? year cur) && (month d >? month cur))
  || ((year d =? year cur) && (month d =? month cur) && (day d >? day cur)).

(** [parseDateString]: the date, or the line printed. *)
Definition parseDateString (dateStr : string) (cur : Date) (portuguese : bool)
  : Date + string :=
  match sscanf_date dateStr with
  | None => inr (msg portuguese "data inválida" "invalid date")
  | Some d =>
      if negb (isDateFormatValid d) || isDateFuture d cur
      then inr (msg portuguese "data inválida" "invalid date")
      else inl d
  end.

Fixpoint span_nonspace (s : string) : string * string :=
  match s with
  | EmptyString => (EmptyString, EmptyString)
  | String x r =>
      if isspace x then (EmptyString, s)
      else let '(tok, rest) := span_nonspace r in (String x tok, rest)
  end.

(** [parseUserName]: the name and the rest of the line; [None] on an unclosed
    quote. *)
Definition parseUserName (args : string) : option (string * string) :=
  match skip_space args with
  | String c r =>
      if Ascii.eqb c dquote then
        match strchr r dquote with
        | Some (nm, String _ rest) => Some (nm, rest)
        | _ => None
        end
      else
        match span_nonspace (String c r) with
        | (nm, String _ rest) => Some (nm, rest)
        | (nm, EmptyString) => Some (nm, EmptyString)
        end
  | EmptyString => Some (EmptyString, EmptyString)
  end.

Definition skipWhitespace (s : string) : string := skip_space s.

(** [extractDateString]: [None] when the token does not fit the 32-byte
    buffer. *)
Definition extractDateString (s : string) : option (string * string) :=
  let '(tok, rest) := span_nonspace s in
  if strlen tok >=? 32 then None else Some (tok, rest).

Definition extractLotId (s : string) : option string :=
  match s with
  | EmptyString => None
  | _ => Some s
  end.

(** [processDeleteArgs]: the arguments when valid, and what was printed. *)
Definition processDeleteArgs (args : string) (cur : Date) (portuguese : bool)
  : option DeleteArgs * output :=
  match parseUserName args with
  | None => (None, [])
  | Some (u, rest) =>
      match skipWhitespace rest with
      | EmptyString => (Some (mkDeleteArgs u None None), [])
      | r =>
          match extractDateString r with
          | None => (None, [])
          | Some (date_str, rest1) =>
              match parseDateString date_str cur portuguese with
              | inr line => (None, [line])
              | inl d =>
                  (Some (mkDeleteArgs u (Some d)
                           (extractLotId (skipWhitespace rest1))), [])
              end
          end
      end
  end.

Definition datesEqual (a b : Date) : bool :=
  (day a =? day b) && (month a =? month b) && (year a =? year b).

Definition inoculationMatchesCriteria (inoc : Inoculation) (args : DeleteArgs)
  : bool :=
  if negb (strcmp (user inoc) (da_userName args) =? 0) then false
  else match da_date args with
       | None => true
       | Some d =>
           if negb (datesEqual (date inoc) d) then false
           else match da_lotId args with
                | None => true
                | Some l => strcmp (inoc_lot inoc) l =? 0
                end
       end.

Fixpoint index_of_inoc (l : list Inoculation) (toRemove : Inoculation)
  : option nat :=
  match l with
  | [] => None
  | x :: rest =>
      if (inoc_addr x =? inoc_addr toRemove)%nat then Some 0%nat
      else S <$> index_of_inoc rest toRemove
  end.

(** [removeInoculationFromUser]: the slot of the removed record receives the
    last record of the array and the count drops by one. *)
Definition removeInoculationFromUser (inocs : list Inoculation)
    (toRemove : Inoculation) : list Inoculation :=
  match index_of_inoc inocs toRemove with
  | Some i => swap_remove inocs i
  | None => inocs
  end.

(** The walk over the global list in [removeMatchingInoculations]: the count
    so far, the user's array so far; the result carries the remaining global
    list. *)
Fixpoint remove_loop (args : DeleteArgs) (l : list Inoculation) (count : Z)
    (inocs : list Inoculation) : Z * list Inoculation * list Inoculation :=
  match l with
  | [] => (count, inocs, [])
  | curr :: rest =>
      if inoculationMatchesCriteria curr args then
        remove_loop args rest (wrap_int (count + 1))
          (removeInoculationFromUser inocs curr)
      else
        let '(c, u, g) := remove_loop args rest count inocs in
        (c, u, curr :: g)
  end.

Definition set_inoculations (s : State) (ut : gmap Z (list UserIndex))
    (il : list Inoculation) : State :=
  mkState (heap s) (hashTable s) (nameHashTable s) ut (vaccineList s) il
    (vaccineCount s) (currentDate s) (next_lot s) (next_inoc s).

Definition removeMatchingInoculations (s : State) (args : DeleteArgs)
    (hashSize : Z) : State * Z :=
  match findUserByName (userHashTable s) (da_userName args) hashSize with
  | None => (s, 0)
  | Some userEntry =>
      let '(count, inocs, il) :=
        remove_loop args (inoculationList s) 0 (inoculations userEntry) in
      let index := hashString (da_userName args) hashSize in
      let ut := <[index := update_chain userName (bucket (userHashTable s) index)
                             (da_userName args)
                             (λ e, mkUserIndex (userName e) inocs)]>
                  (userHashTable s) in
      (set_inoculations s ut il, count)
  end.

Definition validateUser (userEntry : option UserIndex) (args : DeleteArgs)
    (portuguese : bool) : option string :=
  match userEntry with
  | Some e =>
      match inoculations e with
      | [] => Some (da_userName args
                    +:+ msg portuguese ": utente inexistente" ": no such user")
      | _ => None
      end
  | None => Some (da_userName args
                  +:+ msg portuguese ": utente inexistente" ": no such user")
  end.

Definition validateLot (args : DeleteArgs) (s : State) (hashSize : Z)
    (portuguese : bool) : option string :=
  match da_lotId args with
  | Some l =>
      match findVaccineByBatch (heap s) (hashTable s) l hashSize with
      | None => Some (l +:+ msg portuguese ": lote inexistente" ": no such batch")
      | Some _ => None
      end
  | None => None
  end.

Definition commandD (args : string) (s : State) (hashSize : Z) (cur : Date)
    (portuguese : bool) : State * output :=
  match processDeleteArgs args cur portuguese with
  | (None, out) => (s, out)
  | (Some deleteArgs, out) =>
      let userEntry :=
        findUserByName (userHashTable s) (da_userName deleteArgs) hashSize in
      match validateUser userEntry deleteArgs portuguese with
      | Some line => (s, (out ++ [line])%list)
      | None =>
          match validateLot deleteArgs s hashSize portuguese with
          | Some line => (s, (out ++ [line])%list)
          | None =>
              let '(s1, removed) :=
                removeMatchingInoculations s deleteArgs hashSize in
              (s1, (out ++ [fmt_d removed])%list)
          end
      end
  end.

(** ** command_u.c *)

Definition printInoculation (inoc : Inoculation) : string :=
  user inoc +:+ " " +:+ inoc_lot inoc +:+ " "
  +:+ fmt_02d (day (date inoc)) +:+ "-" +:+ fmt_02d (month (date inoc))
  +:+ "-" +:+ fmt_d (year (date inoc)).

Definition extractUserName (args : string) (bufSize : Z) : option string :=
  match args with
  | EmptyString => None
  | String c r =>
      if Ascii.eqb c dquote then
        match strchr r dquote with
        | None => None
        | Some (nm, _) => if strlen nm >=? bufSize then None else Some nm
        end
      else if strlen args >=? bufSize then None else Some args
  end.

Definition listAllInoculations (inoculationList : list Inoculation) : output :=
  printInoculation <$> rev inoculationList.

Definition listInoculationsByUser (u : string) (s : State) (hashSize : Z)
    (portuguese : bool) : output :=
  match findUserByName (userHashTable s) u hashSize with
  | None => [u +:+ msg portuguese ": utente inexistente" ": no such user"]
  | Some userEntry =>
      match inoculations userEntry with
      | [] => [u +:+ msg portuguese ": utente inexistente" ": no such user"]
      | l => printInoculation <$> l
      end
  end.

Definition commandU (args : string) (s : State) (hashSize : Z)
    (portuguese : bool) : output :=
  match extractUserName args SIZE_COMMAND with
  | None => listAllInoculations (inoculationList s)
  | Some u => listInoculationsByUser u s hashSize portuguese
  end.

(** ** command_t.c *)

Definition printCurrentDate (d : Date) : string :=
  fmt_02d (day d) +:+ "-" +:+ fmt_02d (month d) +:+ "-" +:+ fmt_d (year d).

(** The Portuguese text of this file is stored in another encoding than the
    one of the other commands: its bytes are not theirs. *)
Definition printInvalidDateMessage (portuguese : bool) : string :=
  msg portuguese "data invÃ¡lida" "invalid date".

Definition commandT (args : string) (s : State) (portuguese : bool)
  : State * output :=
  match args with
  | EmptyString => (s, [printCurrentDate (currentDate s)])
  | _ =>
      match sscanf_date args with
      | None => (s, [printInvalidDateMessage portuguese])
      | Some newDate =>
          if negb (isDateFormatValid newDate) then
            (s, [printInvalidDateMessage portuguese])
          else if compareDates (currentDate s) newDate >? 0 then
            (s, [printInvalidDateMessage portuguese])
          else (set_currentDate s newDate, [printCurrentDate newDate])
      end
  end.

(** ** command_l.c: sorting and listing

    The array of lot pointers is a list read and written by index; indices
    are [int]s bounded by the array length. *)

Section Sort.
Context {A : Type} `{Inhabited A}.
Variable compare : A → A → Z.

Definition swapVaccines (array : list A) (a b : Z) : list A :=
  let temp := array !!! Z.to_nat a in
  <[Z.to_nat b := temp]> (<[Z.to_nat a := array !!! Z.to_nat b]> array).

(** The [for] loop of [partition]: [n] iterations are left, [j] is the
    current index and [i] the index of the last smaller element. *)
Fixpoint partition_loop (n : nat) (array : list A) (pivot : A) (i j : Z)
  : list A * Z :=
  match n with
  | O => (array, i)
  | S n' =>
      if compare (array !!! Z.to_nat j) pivot <=? 0 then
        partition_loop n' (swapVaccines array (i + 1) j) pivot (i + 1) (j + 1)
      else partition_loop n' array pivot i (j + 1)
  end.

Definition partition (array : list A) (low high : Z) : list A * Z :=
  let pivot := array !!! Z.to_nat high in
  let '(array1, i) :=
    partition_loop (Z.to_nat (high - low)) array pivot (low - 1) low in
  (swapVaccines array1 (i + 1) high, i + 1).

(** The [while] loop of [insertionSort]; it runs at most [j - low + 1]
    times, which is the fuel it is called with. *)
Fixpoint insertion_shift (n : nat) (array : list A) (key : A) (low j : Z)
  : list A :=
  match n with
  | O => <[Z.to_nat (j + 1) := key]> array
  | S n' =>
      if (j >=? low) && (compare (array !!! Z.to_nat j) key >? 0) then
        insertion_shift n' (<[Z.to_nat (j + 1) := array !!! Z.to_nat j]> array)
          key low (j - 1)
      else <[Z.to_nat (j + 1) := key]> array
  end.

Fixpoint insertion_outer (n : nat) (array : list A) (low i : Z) : list A :=
  match n with
  | O => array
  | S n' =>
      let key := array !!! Z.to_nat i in
      insertion_outer n'
        (insertion_shift (Z.to_nat (i - low)) array key low (i - 1))
        low (i + 1)
  end.

Definition insertionSort (array : list A) (low high : Z) : list A :=
  insertion_outer (Z.to_nat (high - low)) array low (low + 1).

(** [quickSort]: each recursive call works on a strictly shorter range, so
    [high - low + 1] levels of recursion are enough. *)
Fixpoint quickSort_rec (fuel : nat) (array : list A) (low high : Z) : list A :=
  match fuel with
  | O => array
  | S fuel' =>
      if low <? high then
        if high - low <? 10 then insertionSort array low high
        else
          let '(array1, pi) := partition array low high in
          quickSort_rec fuel' (quickSort_rec fuel' array1 low (pi - 1))
            (pi + 1) high
      else array
  end.

Definition quickSort (array : list A) (low high : Z) : list A :=
  quickSort_rec (Z.to_nat (high - low + 1)) array low high.
End Sort.

Definition printVaccine (vaccine : VaccineLot) : string :=
  name vaccine +:+ " " +:+ lot vaccine +:+ " "
  +:+ fmt_02d (day (validation vaccine)) +:+ "-"
  +:+ fmt_02d (month (validation vaccine)) +:+ "-"
  +:+ fmt_d (year (validation vaccine)) +:+ " "
  +:+ fmt_d (wrap_int (doses vaccine - dosesUsed vaccine)) +:+ " "
  +:+ fmt_d (dosesUsed vaccine).

Definition compare_ptr (h : gmap ptr VaccineLot) (a b : ptr) : Z :=
  compareVaccines (h !!! a) (h !!! b).

Definition printAllVaccines (h : gmap ptr VaccineLot) (vaccineArray : list ptr)
  : output := (λ p, printVaccine (h !!! p)) <$> vaccineArray.

Definition listAllVaccines (h : gmap ptr VaccineLot) (vaccineList : list ptr)
  : output :=
  let count := Z.of_nat (length vaccineList) in
  if count =? 0 then []
  else
    let vaccineArray := vaccineList in
    printAllVaccines h (quickSort (compare_ptr h) vaccineArray 0 (count - 1)).

Definition printVaccineLots (h : gmap ptr VaccineLot)
    (nameEntry : VaccineNameIndex) : output :=
  (λ p, printVaccine (h !!! p)) <$> lots nameEntry.

Definition handleVaccineNotFound (vaccineName : string) (portuguese : bool)
  : output :=
  [vaccineName +:+ msg portuguese ": vacina inexistente" ": no such vaccine"].

(** [listVaccinesByName] sorts a copy of the group ([validLots]) and then
    prints the group itself. *)
Definition listVaccinesByName (s : State) (vaccineName : string)
    (hashSize : Z) (portuguese : bool) : output :=
  match findVaccineByName (nameHashTable s) vaccineName hashSize with
  | None => handleVaccineNotFound vaccineName portuguese
  | Some nameEntry =>
      match lots nameEntry with
      | [] => handleVaccineNotFound vaccineName portuguese
      | _ =>
          let validCount := Z.of_nat (length (lots nameEntry)) in
          let validLots :=
            quickSort (compare_ptr (heap s)) (lots nameEntry) 0 (validCount - 1) in
          printVaccineLots (heap s) nameEntry
      end
  end.

Fixpoint strncpy (src : string) (n : Z) : string :=
  match src with
  | EmptyString => EmptyString
  | String c r => if n <=? 0 then EmptyString else String c (strncpy r (n - 1))
  end.

Definition space_tab : string := String " " (String "009" EmptyString).

(** The [strtok] loop of [processSpecificVaccines]; every round consumes at
    least one byte, so the length of the line bounds the rounds. *)
Fixpoint specific_loop (fuel : nat) (rest : string) (s : State) (hashSize : Z)
    (portuguese : bool) : output :=
  match fuel with
  | O => []
  | S fuel' =>
      match strtok_r rest space_tab with
      | None => []
      | Some (token, rest') =>
          (listVaccinesByName s (strncpy token (SIZE_COMMAND - 1)) hashSize portuguese
           ++ specific_loop fuel' rest' s hashSize portuguese)%list
      end
  end.

Definition processSpecificVaccines (args : string) (s : State) (hashSize : Z)
    (portuguese : bool) : output :=
  specific_loop (String.length args) args s hashSize portuguese.

Definition commandL (args : string) (s : State) (hashSize : Z)
    (portuguese : bool) : output :=
  match args with
  | EmptyString => listAllVaccines (heap s) (vaccineList s)
  | _ => processSpecificVaccines args s hashSize portuguese
  end.

(** ** commands.c and the command loop of project.c *)

Definition handleCommand (cmd : ascii) (args : string) (s : State)
    (hashSize maxVaccines : Z) (portuguese : bool) : State * output :=
  if Ascii.eqb cmd "c" then commandC args s hashSize maxVaccines portuguese
  else if Ascii.eqb cmd "l" then (s, commandL args s hashSize portuguese)
  else if Ascii.eqb cmd "t" then commandT args s portuguese
  else if Ascii.eqb cmd "a" then commandA args s hashSize (currentDate s) portuguese
  else if Ascii.eqb cmd "u" then (s, commandU args s hashSize portuguese)
  else if Ascii.eqb cmd "r" then commandR args s hashSize portuguese
  else if Ascii.eqb cmd "d" then commandD args s hashSize (currentDate s) portuguese
  else (s, []).

(** One input line (without its newline): the opcode, then the arguments
    after the white space that follows it. *)
Definition processLine (command : string) (s : State) (portuguese : bool)
  : State * output :=
  match command with
  | EmptyString => (s, [])
  | String cmd r =>
      handleCommand cmd (skip_space r) s HASH_SIZE MAX_VACCINES portuguese
  end.

(** [processCommands], up to the first [q] or the end of the input.  Each
    element of [lines] is what one call of [fgets] leaves in the buffer once
    the newline is cut: a line of the input, or, for a line that does not fit
    in [SIZE_COMMAND - 1] bytes, one of its pieces. *)
Fixpoint processCommands (lines : list string) (s : State) (portuguese : bool)
  : State * output :=
  match lines with
  | [] => (s, [])
  | command :: rest =>
      match command with
      | String "q" _ => (s, [])
      | _ =>
          let '(s1, out1) := processLine command s portuguese in
          let '(s2, out2) := processCommands rest s1 portuguese in
          (s2, (out1 ++ out2)%list)
      end
  end.

(** * Specification vocabulary and scenarios *)

Record wf_lots (hashSize : Z) (h : gmap ptr VaccineLot)
    (ht : gmap Z (list ptr)) (nt : gmap Z (list VaccineNameIndex))
    (vl : list ptr) (nl : ptr) : Prop := {
  wf_alloc : ∀ p, p ∈ vl → is_Some (h !! p);
  wf_fresh : ∀ p, is_Some (h !! p) → (p < nl)%nat;
  wf_ids : NoDup (id_of h <$> vl);
  wf_hash : ∀ i p,
    p ∈ bucket ht i ↔ p ∈ vl ∧ hashString (id_of h p) hashSize = i;
  wf_hash_nodup : ∀ i, NoDup (bucket ht i);
  wf_group : ∀ i e, e ∈ bucket nt i →
    hashString (vni_name e) hashSize = i ∧ NoDup (lots e)
    ∧ ∀ p, p ∈ lots e → p ∈ vl ∧ name_of h p = vni_name e;
  wf_names : ∀ i, NoDup (vni_name <$> bucket nt i);
  wf_grouped : ∀ p, p ∈ vl →
    ∃ e, e ∈ bucket nt (hashString (name_of h p) hashSize)
         ∧ vni_name e = name_of h p ∧ p ∈ lots e
}.

Definition wf (hashSize : Z) (s : State) : Prop :=
  wf_lots hashSize (heap s) (hashTable s) (nameHashTable s) (vaccineList s)
    (next_lot s).

(** The group of a vaccine name: the lots array of its entry, empty when the
    name has no entry. *)
Definition group (s : State) (v : string) (hashSize : Z) : list ptr :=
  match findVaccineByName (nameHashTable s) v hashSize with
  | Some e => lots e
  | None => []
  end.

Definition date_ok (d : Date) : Prop :=
  0 <= year d < 2 ^ 31 ∧ 1 <= month d <= 12 ∧ 1 <= day d <= 31.

Definition lot_ok (vl : VaccineLot) : Prop :=
  date_ok (validation vl) ∧ 0 <= dosesUsed vl <= doses vl ∧ doses vl < 2 ^ 31.

Definition wf_range (s : State) : Prop :=
  date_ok (currentDate s) ∧ map_Forall (λ _ vl, lot_ok vl) (heap s).

Global Instance date_ok_dec d : Decision (date_ok d).
Proof. unfold date_ok. apply _. Defined.
Global Instance lot_ok_dec vl : Decision (lot_ok vl).
Proof. unfold lot_ok. apply _. Defined.
Global Instance wf_range_dec s : Decision (wf_range s).
Proof. unfold wf_range. apply _. Defined.

Definition date_lt (a b : Date) : Prop :=
  year a < year b
  ∨ (year a = year b
     ∧ (month a < month b ∨ (month a = month b ∧ day a < day b))).

Definition date_le (a b : Date) : Prop := date_lt a b ∨ a = b.

Definition batch_lt (a b : VaccineLot) : Prop :=
  date_lt (validation a) (validation b)
  ∨ (validation a = validation b ∧ String.ltb (lot a) (lot b) = true).

Definition batch_le (a b : VaccineLot) : Prop :=
  batch_lt a b ∨ (validation a = validation b ∧ lot a = lot b).

(** ** The allocation policy *)

(** A lot can give a dose at date [cur]. *)
Definition eligible (vl : VaccineLot) (cur : Date) : Prop :=
  isRemoved vl = false ∧ dosesUsed vl < doses vl ∧ date_le cur (validation vl).

(** Lots B2 (expires in March) and A1, C3 (both expire in February). *)
Definition three_lots : State :=
  (processCommands ["c B2 01-03-2025 5 VaxX"; "c C3 01-02-2025 5 VaxX";
                    "c A1 01-02-2025 5 VaxX"] initialState false).1.

(** Insertion of [key] into a segment held in reverse, scanning from its
    right end as the [while] loop of [insertionSort] does. *)
Fixpoint ins {A} (compare : A → A → Z) (key : A) (R : list A) : list A :=
  match R with
  | [] => [key]
  | x :: R' =>
      if compare x key >? 0 then x :: ins compare key R' else key :: R
  end.

(** ** The full listing *)

(** A day or month number as two decimal digits. *)
Definition digit (d : Z) : ascii := ascii_of_nat (48 + Z.to_nat d).
Definition two_digits (n : Z) : string :=
  String (digit (n / 10)) (String (digit (n mod 10)) "").

(** The line of a lot: name, id, expiry date as DD-MM-YYYY, doses left,
    doses used. *)
Definition batch_line (vl : VaccineLot) : string :=
  name vl +:+ " " +:+ lot vl +:+ " "
  +:+ two_digits (day (validation vl)) +:+ "-"
  +:+ two_digits (month (validation vl)) +:+ "-"
  +:+ pretty (year (validation vl)) +:+ " "
  +:+ pretty (doses vl - dosesUsed vl) +:+ " " +:+ pretty (dosesUsed vl).

(** A lot is live when the id index finds it. *)
Definition live (s : State) (hashSize : Z) (p : ptr) : Prop :=
  ∃ batch, findVaccineByBatch (heap s) (hashTable s) batch hashSize = Some p.

(** Twelve lots of two vaccines, registered out of order. *)
Definition twelve_lots : State :=
  (processCommands
     ["c B2 01-06-2025 10 VaxX"; "c A1 01-03-2025 5 VaxX"; "c C3 01-03-2025 5 VaxY";
      "c 0F 15-02-2025 7 VaxY"; "c 1A 28-02-2026 2 VaxX"; "c FF 01-01-2025 1 VaxX";
      "c 07 31-12-2025 9 VaxY"; "c 3D 01-03-2025 4 VaxX"; "c 9 10-10-2025 3 VaxY";
      "c E0 01-06-2025 8 VaxY"; "c AA 02-06-2025 6 VaxX"; "c 5 01-01-2025 2 VaxY";
      "a Alice VaxX"]
     initialState false).1.

(** ** Retiring a lot *)

(** The states the registry can go through after [s]: any number of
    commands, with any arguments. *)
Inductive later (hashSize : Z) (s : State) : State → Prop :=
  | later_refl : later hashSize s s
  | later_step (s1 : State) (cmd : ascii) (args : string) (maxVaccines : Z)
      (portuguese : bool) :
      later hashSize s s1 →
      later hashSize s (handleCommand cmd args s1 hashSize maxVaccines portuguese).1.

(** The lot [p], registered under the id [batch], has left the registry:
    the id is not found; the cell of [p] is freed; no index holds [p] any
    more, not the global list, not a bucket of the id table, not the lots of
    a vaccine name; and each line of the two listings is the line of a
    stored, listed lot other than [p], whose id is not [batch]. *)
Definition purged (hashSize : Z) (p : ptr) (batch : string) (s : State) : Prop :=
  findVaccineByBatch (heap s) (hashTable s) batch hashSize = None
  ∧ heap s !! p = None
  ∧ (p ∉ vaccineList s)
  ∧ (∀ i, p ∉ bucket (hashTable s) i)
  ∧ (∀ i e, e ∈ bucket (nameHashTable s) i → p ∉ lots e)
  ∧ (∀ line, line ∈ listAllVaccines (heap s) (vaccineList s) →
       ∃ q vl, q ∈ vaccineList s ∧ q ≠ p ∧ heap s !! q = Some vl
               ∧ line = printVaccine vl ∧ lot vl ≠ batch)
  ∧ (∀ v portuguese line,
       line ∈ listVaccinesByName s v hashSize portuguese →
       ([line] = handleVaccineNotFound v portuguese ∧ group s v hashSize = [])
       ∨ ∃ q vl, q ∈ group s v hashSize ∧ q ≠ p ∧ heap s !! q = Some vl
                 ∧ line = printVaccine vl ∧ lot vl ≠ batch).

(** Every lot but [p] is in [s] where it was in [s0]: the same cell, in the
    global list, in the same bucket and in the group of its name as before;
    the users, the inoculations, the counter and the clock are those of
    [s0]. *)
Definition others_kept (hashSize : Z) (p : ptr) (s0 s : State) : Prop :=
  (∀ q, q ≠ p →
     heap s !! q = heap s0 !! q
     ∧ (q ∈ vaccineList s ↔ q ∈ vaccineList s0)
     ∧ (∀ i, q ∈ bucket (hashTable s) i ↔ q ∈ bucket (hashTable s0) i)
     ∧ (∀ v, q ∈ group s v hashSize ↔ q ∈ group s0 v hashSize))
  ∧ userHashTable s = userHashTable s0
  ∧ inoculationList s = inoculationList s0
  ∧ vaccineCount s = vaccineCount s0
  ∧ currentDate s = currentDate s0.

(** The lot [p] is registered under that id, removed, with no dose left; it
    is printed by both listings, and the allocation does not pick it. *)
Definition frozen_in (hashSize : Z) (p : ptr) (batch : string) (used : Z)
    (s : State) : Prop :=
  findVaccineByBatch (heap s) (hashTable s) batch hashSize = Some p
  ∧ isRemoved (heap s !!! p) = true
  ∧ doses (heap s !!! p) = used ∧ dosesUsed (heap s !!! p) = used
  ∧ doses (heap s !!! p) - dosesUsed (heap s !!! p) = 0
  ∧ printVaccine (heap s !!! p) ∈ listAllVaccines (heap s) (vaccineList s)
  ∧ (∀ portuguese,
       printVaccine (heap s !!! p)
       ∈ listVaccinesByName s (name (heap s !!! p)) hashSize portuguese)
  ∧ (∀ v cur, findOldestValidLot s v cur hashSize ≠ Some p).

(** ** Validation order of command C *)

Definition register_line (n : nat) : string :=
  "c " +:+ pretty n +:+ " 01-01-2026 10 VaxX".

(** The registry after a thousand registrations, with ids 0 to 999. *)
Definition full_registry : State :=
  (processCommands (register_line <$> seq 0 1000) initialState false).1.

(** ** Incomplete argument lines of command C *)

(** The blank-separated fields of a line. *)
Fixpoint words (s : string) : list string :=
  match s with
  | EmptyString => []
  | String c r =>
      if Ascii.eqb c " " then words r
      else match r with
           | EmptyString => [String c EmptyString]
           | String c' _ =>
               if Ascii.eqb c' " " then String c EmptyString :: words r
               else match words r with
                    | w :: ws => String c w :: ws
                    | [] => [String c EmptyString]
                    end
           end
  end.

(** The line ends with two blanks. *)
Fixpoint ends_with_two_blanks (s : string) : bool :=
  match s with
  | EmptyString => false
  | String c r =>
      match r with
      | String c' EmptyString => Ascii.eqb c " " && Ascii.eqb c' " "
      | _ => ends_with_two_blanks r
      end
  end.

(** A line is incomplete when it has fewer than four fields: the date, the
    dose count or the name is missing. *)
Definition incomplete (args : string) : Prop := (length (words args) < 4)%nat.

(** ** Listing by name *)

(** Two lots of one vaccine, the later expiry registered first. *)
Definition two_lots : State :=
  (processCommands ["c B2 01-06-2025 10 VaxX"; "c A1 01-03-2025 5 VaxX"]
     initialState false).1.

(** The scenario of the specification: one dose of lot A1F given to Alice. *)
Definition one_dose : State :=
  (processCommands ["c A1F 01-06-2025 10 VaxX"; "a Alice VaxX"] initialState false).1.

(** The same, and Alice then has her record deleted. *)
Definition revoked_all : State :=
  (processCommands ["c A1F 01-06-2025 10 VaxX"; "a Alice VaxX"; "d Alice"]
     initialState false).1.

(** ** Deleting from a user's array *)

(** Alice receives three doses on three days; the record of the first day is
    then deleted. *)
Definition three_doses : list string :=
  ["c A1F 01-06-2025 10 VaxX"; "a Alice VaxX"; "t 02-01-2025"; "a Alice VaxX";
   "t 03-01-2025"; "a Alice VaxX"; "d Alice 01-01-2025"].

(** Alice has had a dose of lot B2 today; lot A1, of the same vaccine, is
    registered as well. *)
Definition alice_today : State :=
  (processCommands ["c B2 01-03-2025 5 VaxX"; "a Alice VaxX";
                    "c A1 01-02-2025 5 VaxX"] initialState false).1.

(** ** Calendar dates *)

(** The Gregorian calendar, written without the table of the program. *)
Definition leap_year (y : Z) : Prop :=
  (y mod 4 = 0 ∧ y mod 100 ≠ 0) ∨ y mod 400 = 0.

Definition days_in_month (m y : Z) : Z :=
  if bool_decide (m = 2) then (if bool_decide (leap_year y) then 29 else 28)
  else if bool_decide (m = 4 ∨ m = 6 ∨ m = 9 ∨ m = 11) then 30
  else 31.

Definition calendar_date (d : Date) : Prop :=
  1 <= month d <= 12 ∧ 1 <= day d <= days_in_month (month d) (year d).

(** ** Printing and scanning numbers *)

(** The text does not go on with a decimal digit. *)
Definition no_digit_ahead (rest : string) : Prop :=
  match rest with
  | EmptyString => True
  | String c _ => isdigit c = false
  end.

(** ** Insertion into the hash tables, and the searches that follow *)

(** The records of a user: the array of its entry, empty when the user has
    no entry. *)
Definition records_of (t : gmap Z (list UserIndex)) (u : string) (size : Z)
  : list Inoculation :=
  match findUserByName t u size with
  | Some e => inoculations e
  | None => []
  end.

(** ** What holds in every state the program reaches *)

(** The registry after the program has read these lines. *)
Definition registry_after (lines : list string) (portuguese : bool) : State :=
  (processCommands lines initialState portuguese).1.

(** What every stored lot satisfies: the id and the name passed the checks of
    command C and are not empty, the expiry date is a date of the calendar,
    the used doses are within the doses, and a removed lot has been used and
    has no dose left. *)
Definition lot_inv (vl : VaccineLot) : Prop :=
  (isValidBatch (lot vl) = true ∧ lot vl ≠ "")
  ∧ (isValidName (name vl) = true ∧ name vl ≠ "")
  ∧ (calendar_date (validation vl) ∧ int_range (year (validation vl)))
  ∧ 0 <= dosesUsed vl <= doses vl ∧ 0 < doses vl < 2 ^ 31
  ∧ (isRemoved vl = true → 0 < dosesUsed vl ∧ dosesUsed vl = doses vl).

Record reg_inv (s : State) : Prop := {
  inv_lots : map_Forall (λ _ vl, lot_inv vl) (heap s);
  inv_listed : ∀ p, is_Some (heap s !! p) → p ∈ vaccineList s;
  inv_count : Z.of_nat (length (vaccineList s)) <= vaccineCount s <= MAX_VACCINES
}.

(** ** The inoculations: the global list and the arrays of the users *)

(** The records of a user in the global list. *)
Definition records_in (l : list Inoculation) (u : string) : list Inoculation :=
  filter (λ i, user i = u) l.

(** The records are at distinct, allocated addresses, and the array of each
    user holds the records of that user in the global list, in some order. *)
Record users_inv (s : State) : Prop := {
  ui_addr : NoDup (inoc_addr <$> inoculationList s);
  ui_fresh : Forall (λ i, (inoc_addr i < next_inoc s)%nat) (inoculationList s);
  ui_records : ∀ u,
    records_of (userHashTable s) u HASH_SIZE ≡ₚ records_in (inoculationList s) u
}.

(** What command D deletes: the records of the user, of that date when one
    is given, and of that lot when one is given. *)
Definition to_delete (args : DeleteArgs) (i : Inoculation) : Prop :=
  user i = da_userName args
  ∧ match da_date args with
    | None => True
    | Some d =>
        date i = d
        ∧ match da_lotId args with
          | None => True
          | Some l => inoc_lot i = l
          end
    end.

Global Instance to_delete_dec args i : Decision (to_delete args i).
Proof. unfold to_delete. repeat case_match; apply _. Defined.

(** The global list holds the newest record first. *)
Definition newest_first (s : State) : Prop :=
  StronglySorted (λ a b, (inoc_addr b < inoc_addr a)%nat) (inoculationList s)
  ∧ Forall (λ i, (inoc_addr i < next_inoc s)%nat) (inoculationList s).

(** ** Argument lines and what the parsers read from them *)

(** No byte of the text is in the class [bad]. *)
Definition char_free (bad : ascii → bool) (s : string) : Prop :=
  forallb (λ c, negb (bad c)) (list_ascii_of_string s) = true.

(** The text is empty or starts with a byte of the class. *)
Definition stops_at (bad : ascii → bool) (rest : string) : Prop :=
  match rest with
  | EmptyString => True
  | String c _ => bad c = true
  end.

(** The text is not empty and does not start with a byte of the class. *)
Definition starts_off (bad : ascii → bool) (s : string) : Prop :=
  match s with
  | EmptyString => False
  | String c _ => bad c = false
  end.

(** A user name between double quotes. *)
Definition quoted (u : string) : string :=
  String dquote u +:+ String dquote "".

(** ** Command L with vaccine names *)

(** The names, one blank between two of them. *)
Fixpoint join_blank (names : list string) : string :=
  match names with
  | [] => ""
  | [n] => n
  | n :: rest => n +:+ " " +:+ join_blank rest
  end.

(** * Properties *)

(** ** Strings *)

Lemma string_compare_refl (s : string) : String.compare s s = Eq.
Proof.
  induction s as [|c s IH]; simpl; [done|].
  unfold Ascii.compare. by rewrite N.compare_refl.
Qed.

Lemma string_compare_Eq (a b : string) : String.compare a b = Eq ↔ a = b.
Proof.
  split; [apply String.compare_eq_iff|intros ->; apply string_compare_refl].
Qed.

Lemma string_compare_Lt_trans (a b c : string) :
  String.compare a b = Lt → String.compare b c = Lt → String.compare a c = Lt.
Proof.
  revert b c. induction a as [|x a IH]; intros [|y b] [|z c]; simpl; try done.
  unfold Ascii.compare.
  destruct (N.compare_spec (N_of_ascii x) (N_of_ascii y)) as [Hxy|Hxy|Hxy];
    destruct (N.compare_spec (N_of_ascii y) (N_of_ascii z)) as [Hyz|Hyz|Hyz];
    try done; intros Hab Hbc.
  - rewrite Hxy, Hyz, N.compare_refl. eauto.
  - rewrite Hxy. by apply N.compare_lt_iff in Hyz as ->.
  - rewrite <- Hyz. by apply N.compare_lt_iff in Hxy as ->.
  - assert (N_of_ascii x < N_of_ascii z)%N as Hxz by lia.
    by apply N.compare_lt_iff in Hxz as ->.
Qed.

Lemma strcmp_eq (a b : string) : strcmp a b = 0 ↔ a = b.
Proof.
  unfold strcmp. rewrite <- string_compare_Eq.
  destruct (String.compare a b); split; done.
Qed.

Lemma strcmp_eqb (a b : string) : (strcmp a b =? 0) = bool_decide (a = b).
Proof.
  case_bool_decide as Hab.
  - apply Z.eqb_eq. by apply strcmp_eq.
  - apply Z.eqb_neq. by rewrite strcmp_eq.
Qed.

Lemma strcmp_antisym (a b : string) : strcmp b a = - strcmp a b.
Proof.
  unfold strcmp. rewrite (String.compare_antisym a b).
  by destruct (String.compare b a).
Qed.

Lemma strcmp_lt (a b : string) : strcmp a b < 0 ↔ String.compare a b = Lt.
Proof. unfold strcmp. destruct (String.compare a b); split; (done || lia). Qed.

Lemma strcmp_lt_trans (a b c : string) :
  strcmp a b < 0 → strcmp b c < 0 → strcmp a c < 0.
Proof. rewrite !strcmp_lt. apply string_compare_Lt_trans. Qed.

Lemma strcmp_range (a b : string) : -1 <= strcmp a b <= 1.
Proof. unfold strcmp. destruct (String.compare a b); lia. Qed.

(** ** Chains *)

Lemma NoDup_fmap_eq {A B} (f : A → B) (l : list A) (x y : A) :
  NoDup (f <$> l) → x ∈ l → y ∈ l → f x = f y → x = y.
Proof.
  induction l as [|a l IH]; simpl; [by intros _ ?%elem_of_nil|].
  rewrite NoDup_cons, !elem_of_cons. intros [Ha Hl] [->|Hx] [->|Hy] Hf; auto.
  - destruct Ha. rewrite Hf. by apply list_elem_of_fmap_2.
  - destruct Ha. rewrite <- Hf. by apply list_elem_of_fmap_2.
Qed.

Section Chains.
Context {A : Type} (key : A → string).

Lemma find_chain_Some (chain : list A) k x :
  find_chain key chain k = Some x → x ∈ chain ∧ key x = k.
Proof.
  induction chain as [|a chain IH]; simpl; [done|].
  rewrite strcmp_eqb. case_bool_decide.
  - intros [= ->]. split; [left|done].
  - intros [??]%IH. split; [by right|done].
Qed.

Lemma find_chain_None (chain : list A) k :
  find_chain key chain k = None ↔ ∀ x, x ∈ chain → key x ≠ k.
Proof.
  induction chain as [|a chain IH]; simpl.
  - split; [by intros _ ? ?%elem_of_nil|done].
  - rewrite strcmp_eqb. case_bool_decide as Hk.
    + split; [done|]. intros Hall. destruct (Hall a); [left|done].
    + rewrite IH. split.
      * intros Hall x [->|?]%elem_of_cons; auto.
      * intros Hall x ?. apply Hall. by right.
Qed.

Lemma find_chain_unique (chain : list A) x :
  NoDup (key <$> chain) → x ∈ chain → find_chain key chain (key x) = Some x.
Proof.
  intros Hnd Hx.
  destruct (find_chain key chain (key x)) as [y|] eqn:Hf.
  - apply find_chain_Some in Hf as [Hy Hk]. f_equal.
    by apply (NoDup_fmap_eq key chain).
  - rewrite find_chain_None in Hf. by destruct (Hf x).
Qed.

Lemma find_chain_is_Some (chain : list A) k :
  is_Some (find_chain key chain k) ↔ ∃ x, x ∈ chain ∧ key x = k.
Proof.
  split.
  - intros [x Hx]. exists x. by apply find_chain_Some.
  - intros (x & Hx & Hk). destruct (find_chain key chain k) eqn:Hf; [done|].
    rewrite find_chain_None in Hf. by destruct (Hf x).
Qed.

Lemma update_chain_fmap (chain : list A) k f :
  NoDup (key <$> chain) →
  update_chain key chain k f
  = (λ x, if decide (key x = k) then f x else x) <$> chain.
Proof.
  induction chain as [|a chain IH]; simpl; [done|].
  rewrite NoDup_cons. intros [Ha Hnd]. rewrite strcmp_eqb.
  case_bool_decide as Hk; case_decide; try done.
  - f_equal. symmetry. etrans; [|apply list_fmap_id].
    apply list_fmap_ext. intros i x Hx. case_decide as Hx'; [|done].
    destruct Ha. rewrite Hk, <- Hx'. apply list_elem_of_fmap_2.
    by eapply list_elem_of_lookup_2.
  - f_equal. by apply IH.
Qed.

Lemma update_chain_keys (chain : list A) k f :
  (∀ x, key (f x) = key x) →
  key <$> update_chain key chain k f = key <$> chain.
Proof.
  intros Hf. induction chain as [|a chain IH]; simpl; [done|].
  destruct (strcmp (key a) k =? 0); csimpl; [by rewrite Hf|by f_equal].
Qed.
End Chains.

(** ** Well-formed registries

    The three indices of the lots agree: the global list holds every live lot
    once and ids are unique in it; a hash bucket holds exactly the listed
    lots whose id hashes to it; a name group holds listed lots of that name,
    each once, and every listed lot is in the group of its name. *)

Lemma bucket_empty {A} (i : Z) : bucket (∅ : gmap Z (list A)) i = [].
Proof. unfold bucket. by rewrite lookup_total_empty. Qed.

Lemma bucket_insert {A} (t : gmap Z (list A)) i j c :
  bucket (<[i := c]> t) j = if decide (i = j) then c else bucket t j.
Proof.
  unfold bucket. case_decide as Hij.
  - subst. by rewrite lookup_total_insert_eq.
  - by rewrite lookup_total_insert_ne.
Qed.

Lemma wf_initial hashSize : wf hashSize initialState.
Proof.
  split; simpl.
  - by intros p ?%elem_of_nil.
  - intros p [? Hp]. by rewrite lookup_empty in Hp.
  - constructor.
  - intros i p. rewrite bucket_empty. split; [by intros ?%elem_of_nil|].
    by intros [?%elem_of_nil _].
  - intros i. rewrite bucket_empty. constructor.
  - intros i e. rewrite bucket_empty. by intros ?%elem_of_nil.
  - intros i. rewrite bucket_empty. constructor.
  - by intros p ?%elem_of_nil.
Qed.

Section WfFacts.
Context {hashSize : Z} {h : gmap ptr VaccineLot} {ht : gmap Z (list ptr)}
  {nt : gmap Z (list VaccineNameIndex)} {vl : list ptr} {nl : ptr}.
Hypothesis Hwf : wf_lots hashSize h ht nt vl nl.

Lemma wf_id_inj p q : p ∈ vl → q ∈ vl → id_of h p = id_of h q → p = q.
Proof. apply NoDup_fmap_eq, Hwf. Qed.

Lemma wf_bucket_ids i : NoDup (id_of h <$> bucket ht i).
Proof.
  apply NoDup_fmap_2_strong; [|apply Hwf].
  intros p q [Hp _]%(wf_hash _ _ _ _ _ _ Hwf) [Hq _]%(wf_hash _ _ _ _ _ _ Hwf).
  by apply wf_id_inj.
Qed.

(** [findVaccineByBatch] finds a lot exactly when it is listed under that
    id. *)
Lemma findVaccineByBatch_spec batch p :
  findVaccineByBatch h ht batch hashSize = Some p
  ↔ p ∈ vl ∧ id_of h p = batch.
Proof.
  unfold findVaccineByBatch. split.
  - intros [Hp Hid]%find_chain_Some.
    apply (wf_hash _ _ _ _ _ _ Hwf) in Hp as [Hp _]. done.
  - intros [Hp <-]. apply find_chain_unique; [apply wf_bucket_ids|].
    by apply (wf_hash _ _ _ _ _ _ Hwf).
Qed.

Lemma findVaccineByBatch_None batch :
  findVaccineByBatch h ht batch hashSize = None
  ↔ ∀ p, p ∈ vl → id_of h p ≠ batch.
Proof.
  split.
  - intros Hn p Hp Hid.
    assert (findVaccineByBatch h ht batch hashSize = Some p) as Hs
      by by apply findVaccineByBatch_spec.
    congruence.
  - intros Hall. destruct (findVaccineByBatch _ _ _ _) as [p|] eqn:Hf; [|done].
    apply findVaccineByBatch_spec in Hf as [Hp Hid]. by destruct (Hall p).
Qed.

(** [findVaccineByName] returns the entry of that name in its bucket. *)
Lemma findVaccineByName_spec v e :
  findVaccineByName nt v hashSize = Some e
  ↔ e ∈ bucket nt (hashString v hashSize) ∧ vni_name e = v.
Proof.
  unfold findVaccineByName. split; [apply find_chain_Some|].
  intros [He <-]. apply find_chain_unique; [apply Hwf|done].
Qed.

(** Every listed lot is in the group found under its name, and a group
    holds listed lots of its name only. *)
Lemma wf_lot_in_group p :
  p ∈ vl →
  ∃ e, findVaccineByName nt (name_of h p) hashSize = Some e ∧ p ∈ lots e.
Proof.
  intros Hp. destruct (wf_grouped _ _ _ _ _ _ Hwf p Hp) as (e & He & Hn & Hpe).
  exists e. split; [|done]. by apply findVaccineByName_spec.
Qed.

Lemma wf_group_found v e :
  findVaccineByName nt v hashSize = Some e →
  NoDup (lots e) ∧ ∀ p, p ∈ lots e → p ∈ vl ∧ name_of h p = v.
Proof.
  intros [He <-]%findVaccineByName_spec.
  by destruct (wf_group _ _ _ _ _ _ Hwf _ _ He) as (_ & ? & ?).
Qed.
End WfFacts.

(** ** Removal from arrays and chains *)

Lemma swap_remove_perm {A} (l : list A) i x :
  l !! i = Some x → swap_remove l i ≡ₚ delete i l.
Proof.
  intros Hi. unfold swap_remove.
  destruct (list_elem_of_split_length l i x Hi) as (l1 & l2 & -> & Hlen).
  destruct l2 as [|z l2' _] using rev_ind.
  - rewrite last_snoc. rewrite list_insert_id by done.
    rewrite length_app. simpl. 
    replace (length l1 + 1 - 1)%nat with (length l1) by lia.
    rewrite take_app_length. 
    subst i. rewrite delete_middle. by rewrite app_nil_r.
  - rewrite app_comm_cons, app_assoc, last_snoc.
    rewrite <- app_assoc, <- app_comm_cons.
    subst i. rewrite insert_app_r_alt by lia. rewrite Nat.sub_diag. simpl.
    rewrite delete_middle.
    replace (length (l1 ++ x :: l2' ++ [z]) - 1)%nat
      with (length (l1 ++ z :: l2')) by (rewrite !length_app; simpl; rewrite length_app; simpl; lia).
    replace (l1 ++ z :: l2' ++ [z]) with ((l1 ++ z :: l2') ++ [z])
      by by rewrite <- app_assoc.
    rewrite take_app_length.
    apply Permutation_app_head. apply Permutation_cons_append.
Qed.

Lemma elem_of_delete_NoDup {A} (l : list A) i x q :
  NoDup l → l !! i = Some x → q ∈ delete i l ↔ q ∈ l ∧ q ≠ x.
Proof.
  intros Hnd Hi.
  destruct (list_elem_of_split_length l i x Hi) as (l1 & l2 & -> & Hlen).
  subst i. rewrite delete_middle.
  apply NoDup_app in Hnd as (Hnd1 & Hnd12 & Hnd2).
  apply NoDup_cons in Hnd2 as [Hx2 Hnd2].
  rewrite !elem_of_app, elem_of_cons. split.
  - intros [Hq|Hq]; (split; [tauto|]); intros ->; [|done].
    apply (Hnd12 x); [done|left].
  - intros [[?|[?|?]] ?]; tauto.
Qed.

Lemma swap_remove_elem {A} (l : list A) i x q :
  NoDup l → l !! i = Some x → q ∈ swap_remove l i ↔ q ∈ l ∧ q ≠ x.
Proof.
  intros Hnd Hi. rewrite (swap_remove_perm l i x Hi).
  by apply elem_of_delete_NoDup.
Qed.

Lemma swap_remove_NoDup {A} (l : list A) i x :
  NoDup l → l !! i = Some x → NoDup (swap_remove l i).
Proof.
  intros Hnd Hi. rewrite (swap_remove_perm l i x Hi).
  eapply sublist_NoDup; [done|apply sublist_delete].
Qed.

Section Removal.
Context (h : gmap ptr VaccineLot).

Lemma removeVaccineFromList_sublist l batch :
  removeVaccineFromList h l batch `sublist_of` l.
Proof.
  induction l as [|a l IH]; simpl; [done|].
  destruct (strcmp _ _ =? 0); [by apply sublist_cons|by apply sublist_skip].
Qed.

Lemma removeVaccineFromList_elem l p q :
  NoDup (id_of h <$> l) → p ∈ l →
  q ∈ removeVaccineFromList h l (id_of h p) ↔ q ∈ l ∧ q ≠ p.
Proof.
  induction l as [|a l IH]; [by intros _ ?%elem_of_nil|].
  rewrite fmap_cons, NoDup_cons. intros [Ha Hnd] Hp. simpl.
  fold (id_of h a). rewrite strcmp_eqb. case_bool_decide as Hid.
  - assert (a = p) as ->.
    { apply elem_of_cons in Hp as [->|Hp]; [done|].
      destruct Ha. rewrite Hid. by apply list_elem_of_fmap_2. }
    rewrite elem_of_cons. split.
    + intros Hq. split; [by right|]. intros ->. apply Ha.
      by apply list_elem_of_fmap_2.
    + intros [[->|?] ?]; done.
  - apply elem_of_cons in Hp as [->|Hp]; [done|].
    rewrite !elem_of_cons, IH by done. split.
    + intros [->|[??]]; [|by auto]. split; [by left|]. by intros ->.
    + intros [[->|?] ?]; auto.
Qed.

Lemma index_of_batch_found l p :
  NoDup (id_of h <$> l) → p ∈ l →
  ∃ i, index_of_batch h l (id_of h p) = Some i ∧ l !! i = Some p.
Proof.
  induction l as [|a l IH]; [by intros _ ?%elem_of_nil|].
  rewrite fmap_cons, NoDup_cons. intros [Ha Hnd] Hp. simpl.
  fold (id_of h a). rewrite strcmp_eqb. case_bool_decide as Hid.
  - exists 0%nat. split; [done|]. simpl. f_equal.
    apply elem_of_cons in Hp as [->|Hp]; [done|].
    destruct Ha. rewrite Hid. by apply list_elem_of_fmap_2.
  - apply elem_of_cons in Hp as [->|Hp]; [done|].
    destruct (IH Hnd Hp) as (i & -> & Hi). by exists (S i).
Qed.

Lemma index_of_batch_None l batch :
  index_of_batch h l batch = None → ∀ q, q ∈ l → id_of h q ≠ batch.
Proof.
  induction l as [|a l IH]; simpl; [by intros _ ? ?%elem_of_nil|].
  fold (id_of h a). rewrite strcmp_eqb. case_bool_decide as Hid; [done|].
  destruct (index_of_batch h l batch); [done|].
  intros _ q [->|?]%elem_of_cons; auto.
Qed.
End Removal.

(** Reading the store after a write that keeps the id and the name of the
    written lot, and after freeing another lot. *)
Lemma id_of_insert h p vl q :
  lot vl = id_of h p → id_of (<[p := vl]> h) q = id_of h q.
Proof.
  intros Hl. unfold id_of. destruct (decide (p = q)) as [->|Hne].
  - by rewrite lookup_total_insert_eq.
  - by rewrite lookup_total_insert_ne.
Qed.

Lemma name_of_insert h p vl q :
  name vl = name_of h p → name_of (<[p := vl]> h) q = name_of h q.
Proof.
  intros Hl. unfold name_of. destruct (decide (p = q)) as [->|Hne].
  - by rewrite lookup_total_insert_eq.
  - by rewrite lookup_total_insert_ne.
Qed.

Lemma wf_lots_ext hashSize h h' ht nt vl nl :
  (∀ q, id_of h' q = id_of h q) → (∀ q, name_of h' q = name_of h q) →
  (∀ q, is_Some (h' !! q) ↔ is_Some (h !! q)) →
  wf_lots hashSize h ht nt vl nl → wf_lots hashSize h' ht nt vl nl.
Proof.
  intros Hid Hname Hdom [H1 H2 H3 H4 H5 H6 H7 H8]. split.
  - intros p Hp. apply Hdom. auto.
  - intros p Hp. apply H2, Hdom, Hp.
  - erewrite list_fmap_ext; [exact H3|]. intros; apply Hid.
  - intros i p. rewrite Hid. apply H4.
  - done.
  - intros i e He. destruct (H6 i e He) as (?&?&Hl). split_and!; [done..|].
    intros p Hp. rewrite Hname. auto.
  - done.
  - intros p Hp. rewrite Hname. auto.
Qed.

Lemma wf_lots_write hashSize h ht nt vl nl p v :
  is_Some (h !! p) → lot v = id_of h p → name v = name_of h p →
  wf_lots hashSize h ht nt vl nl →
  wf_lots hashSize (<[p := v]> h) ht nt vl nl.
Proof.
  intros Hp Hl Hn. apply wf_lots_ext.
  - intros q. by apply id_of_insert.
  - intros q. by apply name_of_insert.
  - intros q. rewrite lookup_insert. case_decide; subst; [|done].
    split; [done|by eexists].
Qed.

(** [findOrCreateNameIndexEntry] followed by the append of
    [addVaccineLotToNameIndex], bucket by bucket. *)
Lemma addVaccineLotToNameIndex_bucket h nt p size i :
  let nm := name_of h p in
  let ni := hashString nm size in
  let chain1 :=
    match find_chain vni_name (bucket nt ni) nm with
    | Some _ => bucket nt ni
    | None => mkNameIndex nm [] :: bucket nt ni
    end in
  bucket (addVaccineLotToNameIndex h nt p size) i
  = if decide (ni = i)
    then update_chain vni_name chain1 nm
           (λ e, mkNameIndex (vni_name e) (lots e ++ [p]))
    else bucket nt i.
Proof.
  intros nm ni chain1. unfold addVaccineLotToNameIndex.
  fold (name_of h p). fold nm. fold ni. rewrite bucket_insert.
  case_decide as Hi.
  - f_equal. unfold findOrCreateNameIndexEntry, chain1. fold ni.
    destruct (find_chain vni_name (bucket nt ni) nm); [done|].
    rewrite bucket_insert. by rewrite decide_True.
  - unfold findOrCreateNameIndexEntry. fold ni.
    destruct (find_chain vni_name (bucket nt ni) nm); [done|].
    rewrite bucket_insert. by rewrite decide_False.
Qed.

Lemma wf_register hashSize h ht nt vl nl batch nm validation d :
  wf_lots hashSize h ht nt vl nl →
  findVaccineByBatch h ht batch hashSize = None →
  let h' := <[nl := createVaccineLot batch nm validation d]> h in
  wf_lots hashSize h' (addVaccineLotToHash h' ht nl hashSize)
    (addVaccineLotToNameIndex h' nt nl hashSize) (nl :: vl) (S nl).
Proof.
  intros Hwf Hfind h'.
  assert (h !! nl = None) as Hnone.
  { destruct (h !! nl) eqn:E; [|done].
    assert (nl < nl)%nat by (eapply wf_fresh; eauto). lia. }
  assert (nl ∉ vl) as Hnotin.
  { intros Hin. apply (wf_alloc _ _ _ _ _ _ Hwf) in Hin as [? Hin]. congruence. }
  assert (∀ q, q ≠ nl → id_of h' q = id_of h q) as Hid.
  { intros q Hq. unfold id_of, h'. by rewrite lookup_total_insert_ne. }
  assert (∀ q, q ≠ nl → name_of h' q = name_of h q) as Hname.
  { intros q Hq. unfold name_of, h'. by rewrite lookup_total_insert_ne. }
  assert (id_of h' nl = batch) as Hidp.
  { unfold id_of, h'. by rewrite lookup_total_insert_eq. }
  assert (name_of h' nl = nm) as Hnamep.
  { unfold name_of, h'. by rewrite lookup_total_insert_eq. }
  assert (∀ q, q ∈ vl → q ≠ nl) as Hne by (intros q ? ->; done).
  pose proof (proj1 (findVaccineByBatch_None Hwf batch) Hfind) as Hbatch.
  split.
  - intros q [->|Hq]%elem_of_cons; unfold h'.
    + rewrite lookup_insert_eq. by eexists.
    + rewrite lookup_insert_ne by (symmetry; auto). by eapply wf_alloc.
  - intros q. unfold h'. rewrite lookup_insert. case_decide; [lia|].
    intros Hq. apply (wf_fresh _ _ _ _ _ _ Hwf) in Hq. lia.
  - rewrite fmap_cons, Hidp. apply NoDup_cons. split.
    + intros (q & Hq1 & Hq2)%list_elem_of_fmap. rewrite Hid in Hq1 by auto.
      by destruct (Hbatch q).
    + erewrite list_fmap_ext; [apply Hwf|]. intros i q Hq. apply Hid, Hne.
      by eapply list_elem_of_lookup_2.
  - intros i q. unfold addVaccineLotToHash. fold (id_of h' nl).
    rewrite Hidp, bucket_insert. rewrite elem_of_cons.
    case_decide as Hi.
    + subst i. rewrite elem_of_cons, (wf_hash _ _ _ _ _ _ Hwf). split.
      * intros [->|[Hq Hh]]; [by rewrite Hidp; auto|].
        rewrite Hid by auto. auto.
      * intros [[->|Hq] Hh]; [by left|]. right. rewrite Hid in Hh by auto. auto.
    + rewrite (wf_hash _ _ _ _ _ _ Hwf). split.
      * intros [Hq Hh]. rewrite Hid by auto. auto.
      * intros [[->|Hq] Hh]; [by rewrite Hidp in Hh|].
        rewrite Hid in Hh by auto. auto.
  - intros i. unfold addVaccineLotToHash. rewrite bucket_insert.
    case_decide; [|apply Hwf]. apply NoDup_cons. split; [|apply Hwf].
    intros [Hin _]%(wf_hash _ _ _ _ _ _ Hwf). done.
  - intros i e. rewrite addVaccineLotToNameIndex_bucket, Hnamep.
    set (ni := hashString nm hashSize).
    set (g := λ e, mkNameIndex (vni_name e) (lots e ++ [nl])).
    assert (∀ e0, e0 ∈ bucket nt i →
      hashString (vni_name e0) hashSize = i ∧ NoDup (lots e0)
      ∧ ∀ p, p ∈ lots e0 → p ∈ nl :: vl ∧ name_of h' p = vni_name e0) as Hold.
    { intros e0 He0. destruct (wf_group _ _ _ _ _ _ Hwf _ _ He0) as (?&?&Hl).
      split_and!; [done..|]. intros p Hp. destruct (Hl _ Hp) as [Hpv Hpn].
      split; [by right|]. rewrite Hname by auto. done. }
    case_decide as Hi; [|by apply Hold]. subst i.
    set (chain1 := match find_chain vni_name (bucket nt ni) nm with
                   | Some _ => bucket nt ni
                   | None => mkNameIndex nm [] :: bucket nt ni
                   end).
    assert (NoDup (vni_name <$> chain1)) as Hnd1.
    { unfold chain1. destruct (find_chain _ _ _) eqn:Hf; [apply Hwf|].
      rewrite fmap_cons. apply NoDup_cons. split; [|apply Hwf]. simpl.
      intros (e0 & He1 & He2)%list_elem_of_fmap.
      rewrite find_chain_None in Hf. by destruct (Hf e0). }
    assert (∀ e0, e0 ∈ chain1 →
      hashString (vni_name e0) hashSize = ni ∧ NoDup (lots e0)
      ∧ ∀ p, p ∈ lots e0 → p ∈ nl :: vl ∧ name_of h' p = vni_name e0) as H1.
    { intros e0. unfold chain1. destruct (find_chain _ _ _); [apply Hold|].
      intros [->|?]%elem_of_cons; [|by apply Hold]. simpl.
      split_and!; [done|constructor|by intros ? ?%elem_of_nil]. }
    rewrite update_chain_fmap by done.
    intros (e0 & -> & He0)%list_elem_of_fmap.
    destruct (H1 e0 He0) as (Hh & Hnd & Hl).
    case_decide as Hn; [|done]. simpl. split_and!; [done| |].
    + apply NoDup_app. split_and!; [done| |apply NoDup_singleton].
      intros p Hp ->%list_elem_of_singleton.
      unfold chain1 in He0. destruct (find_chain _ _ _).
      * destruct (wf_group _ _ _ _ _ _ Hwf _ _ He0) as (_&_&Hl0).
        by destruct (Hl0 _ Hp).
      * apply elem_of_cons in He0 as [->|He0]; [by apply elem_of_nil in Hp|].
        destruct (wf_group _ _ _ _ _ _ Hwf _ _ He0) as (_&_&Hl0).
        by destruct (Hl0 _ Hp).
    + intros p [Hp| ->%list_elem_of_singleton]%elem_of_app; [by apply Hl|].
      split; [by left|]. by rewrite Hnamep.
  - intros i. rewrite addVaccineLotToNameIndex_bucket, Hnamep.
    case_decide; [|apply Hwf]. rewrite update_chain_keys by done.
    destruct (find_chain _ _ _) eqn:Hf; [apply Hwf|].
    rewrite fmap_cons. apply NoDup_cons. split; [|apply Hwf]. simpl.
    intros (e0 & He1 & He2)%list_elem_of_fmap.
    rewrite find_chain_None in Hf. by destruct (Hf e0).
  - intros p Hp. rewrite addVaccineLotToNameIndex_bucket, Hnamep.
    set (ni := hashString nm hashSize).
    set (g := λ e, mkNameIndex (vni_name e) (lots e ++ [nl])).
    set (chain1 := match find_chain vni_name (bucket nt ni) nm with
                   | Some _ => bucket nt ni
                   | None => mkNameIndex nm [] :: bucket nt ni
                   end).
    assert (NoDup (vni_name <$> chain1)) as Hnd1.
    { unfold chain1. destruct (find_chain _ _ _) eqn:Hf; [apply Hwf|].
      rewrite fmap_cons. apply NoDup_cons. split; [|apply Hwf]. simpl.
      intros (e0 & He1 & He2)%list_elem_of_fmap.
      rewrite find_chain_None in Hf. by destruct (Hf e0). }
    assert (∀ e0, e0 ∈ bucket nt ni → e0 ∈ chain1) as Hsub.
    { intros e0 He0. unfold chain1. destruct (find_chain _ _ _); [done|by right]. }
    assert (∃ e0, e0 ∈ chain1 ∧ vni_name e0 = nm) as (en & Hen & Hnn).
    { unfold chain1. destruct (find_chain _ _ _) eqn:Hf.
      - apply find_chain_Some in Hf. eauto.
      - eexists. split; [by left|done]. }
    apply elem_of_cons in Hp as [->|Hp].
    + rewrite Hnamep. fold ni. rewrite decide_True by done.
      exists (g en). rewrite update_chain_fmap by done. split_and!.
      * apply list_elem_of_fmap. exists en. by rewrite decide_True.
      * done.
      * simpl. apply elem_of_app. right. by apply list_elem_of_singleton.
    + rewrite Hname by auto.
      destruct (wf_grouped _ _ _ _ _ _ Hwf p Hp) as (e & He & Hen' & Hpe).
      case_decide as Hi; [|by eauto].
      rewrite <- Hi in He. rewrite update_chain_fmap by done.
      exists (if decide (vni_name e = nm) then g e else e). split_and!.
      * apply list_elem_of_fmap. exists e. split; [done|]. by apply Hsub.
      * by case_decide.
      * case_decide; [|done]. simpl. apply elem_of_app. by left.
Qed.

Lemma hashBatch_hashString batch size : hashBatch batch size = hashString batch size.
Proof. done. Qed.

Lemma id_of_delete h p q : q ≠ p → id_of (delete p h) q = id_of h q.
Proof. intros ?. unfold id_of. by rewrite lookup_total_delete_ne. Qed.

Lemma name_of_delete h p q : q ≠ p → name_of (delete p h) q = name_of h q.
Proof. intros ?. unfold name_of. by rewrite lookup_total_delete_ne. Qed.

Section Purge.
Context {hashSize : Z} {h : gmap ptr VaccineLot} {ht : gmap Z (list ptr)}
  {nt : gmap Z (list VaccineNameIndex)} {vl : list ptr} {nl : ptr}.
Hypothesis Hwf : wf_lots hashSize h ht nt vl nl.
Context (p : ptr).
Hypothesis Hp : p ∈ vl.

Local Abbreviation batch := (id_of h p).
Local Abbreviation nm := (name_of h p).
Local Abbreviation ni := (hashString (name_of h p) hashSize).

Lemma wf_group_ids e i :
  e ∈ bucket nt i → NoDup (id_of h <$> lots e).
Proof.
  intros He. destruct (wf_group _ _ _ _ _ _ Hwf _ _ He) as (_ & Hnd & Hl).
  apply NoDup_fmap_2_strong; [|done].
  intros x y Hx Hy. apply (wf_id_inj Hwf); by apply Hl.
Qed.

Lemma wf_group_unique e i :
  e ∈ bucket nt i → p ∈ lots e → e ∈ bucket nt ni ∧ vni_name e = nm.
Proof.
  intros He Hpe. destruct (wf_group _ _ _ _ _ _ Hwf _ _ He) as (Hh & _ & Hl).
  destruct (Hl _ Hpe) as [_ Hn]. split; [|done]. by rewrite Hn, Hh.
Qed.

Lemma remove_lot_from_entry_lots e i q :
  e ∈ bucket nt i → vni_name e = nm →
  q ∈ lots (remove_lot_from_entry h batch e) ↔ q ∈ lots e ∧ q ≠ p.
Proof.
  intros He Hn.
  destruct (wf_grouped _ _ _ _ _ _ Hwf p Hp) as (e' & He' & Hn' & Hpe).
  assert (i = ni) as ->.
  { destruct (wf_group _ _ _ _ _ _ Hwf _ _ He) as (<- & _). by rewrite Hn. }
  assert (e' = e) as ->.
  { apply (NoDup_fmap_eq vni_name (bucket nt ni)); [apply Hwf|done..|].
    by rewrite Hn. }
  unfold remove_lot_from_entry.
  destruct (index_of_batch_found h (lots e) p) as (j & -> & Hj);
    [by eapply wf_group_ids|done|].
  simpl. apply swap_remove_elem; [|done].
  by destruct (wf_group _ _ _ _ _ _ Hwf _ _ He) as (_ & ? & _).
Qed.

Lemma remove_lot_from_entry_NoDup e i :
  e ∈ bucket nt i → NoDup (lots (remove_lot_from_entry h batch e)).
Proof.
  intros He. destruct (wf_group _ _ _ _ _ _ Hwf _ _ He) as (_ & Hnd & _).
  unfold remove_lot_from_entry.
  destruct (index_of_batch h (lots e) batch) as [j|] eqn:Hj; [|done]. simpl.
  destruct (lots e !! j) as [x|] eqn:Hx.
  - by eapply swap_remove_NoDup.
  - unfold swap_remove. destruct (last (lots e)); [|done].
    rewrite list_insert_ge by by apply lookup_ge_None.
    eapply sublist_NoDup; [done|apply sublist_take].
Qed.

Lemma remove_lot_from_entry_name e :
  vni_name (remove_lot_from_entry h batch e) = vni_name e.
Proof.
  unfold remove_lot_from_entry. by destruct (index_of_batch _ _ _).
Qed.

Lemma removeVaccineFromNameIndex_bucket i :
  bucket (removeVaccineFromNameIndex h nt batch nm hashSize) i
  = if decide (ni = i)
    then update_chain vni_name (bucket nt ni) nm (remove_lot_from_entry h batch)
    else bucket nt i.
Proof.
  unfold removeVaccineFromNameIndex.
  destruct (find_chain vni_name (bucket nt ni) nm) eqn:Hf.
  - by rewrite bucket_insert.
  - destruct (wf_grouped _ _ _ _ _ _ Hwf p Hp) as (e' & He' & Hn' & Hpe).
    rewrite find_chain_None in Hf. by destruct (Hf e').
Qed.

Lemma wf_purge :
  wf_lots hashSize (delete p h)
    (<[hashString batch hashSize :=
         removeVaccineFromList h (bucket ht (hashString batch hashSize)) batch]> ht)
    (removeVaccineFromNameIndex h nt batch nm hashSize)
    (removeVaccineFromList h vl batch) nl.
Proof.
  assert (∀ q, q ∈ removeVaccineFromList h vl batch ↔ q ∈ vl ∧ q ≠ p) as Hvl.
  { intros q. apply removeVaccineFromList_elem; [apply Hwf|done]. }
  split.
  - intros q [Hq Hne]%Hvl. rewrite lookup_delete_ne by done.
    by eapply wf_alloc.
  - intros q Hq. apply (wf_fresh _ _ _ _ _ _ Hwf).
    rewrite lookup_delete in Hq. case_decide; [by destruct Hq|done].
  - erewrite list_fmap_ext.
    + eapply sublist_NoDup; [apply (wf_ids _ _ _ _ _ _ Hwf)|].
      apply fmap_sublist, removeVaccineFromList_sublist.
    + intros i q Hq. apply id_of_delete.
      by apply list_elem_of_lookup_2, Hvl in Hq as [_ ?].
  - intros i q. rewrite bucket_insert, Hvl. case_decide as Hi.
    + rewrite removeVaccineFromList_elem;
        [|apply (wf_bucket_ids Hwf)|by apply (wf_hash _ _ _ _ _ _ Hwf)].
      rewrite (wf_hash _ _ _ _ _ _ Hwf). split.
      * intros [[Hq Hh] Hne]. rewrite id_of_delete by done. split; [done|].
        congruence.
      * intros [[Hq Hne] Hh]. rewrite id_of_delete in Hh by done.
        split; [split; [done|congruence]|done].
    + rewrite (wf_hash _ _ _ _ _ _ Hwf). split.
      * intros [Hq Hh]. assert (q ≠ p) by (intros ->; done).
        by rewrite id_of_delete.
      * intros [[Hq Hne] Hh]. by rewrite id_of_delete in Hh.
  - intros i. rewrite bucket_insert. case_decide; [|apply Hwf].
    eapply sublist_NoDup; [apply (wf_hash_nodup _ _ _ _ _ _ Hwf)|].
    apply removeVaccineFromList_sublist.
  - intros i e. rewrite removeVaccineFromNameIndex_bucket.
    case_decide as Hi.
    + subst i. rewrite update_chain_fmap by apply Hwf.
      intros (e0 & -> & He0)%list_elem_of_fmap.
      destruct (wf_group _ _ _ _ _ _ Hwf _ _ He0) as (Hh & Hnd & Hl).
      case_decide as Hn.
      * rewrite remove_lot_from_entry_name. split_and!; [done| |].
        { by eapply remove_lot_from_entry_NoDup. }
        intros q [Hq Hne]%(remove_lot_from_entry_lots _ _ _ He0 Hn).
        destruct (Hl _ Hq). rewrite name_of_delete by done.
        split; [by apply Hvl|done].
      * split_and!; [done..|]. intros q Hq. destruct (Hl _ Hq) as [? Hqn].
        assert (q ≠ p) by (intros ->; done).
        rewrite name_of_delete by done. split; [by apply Hvl|done].
    + intros He. destruct (wf_group _ _ _ _ _ _ Hwf _ _ He) as (Hh & Hnd & Hl).
      split_and!; [done..|]. intros q Hq. destruct (Hl _ Hq) as [? Hqn].
      assert (q ≠ p).
      { intros ->. destruct Hi. by rewrite Hqn. }
      rewrite name_of_delete by done. split; [by apply Hvl|done].
  - intros i. rewrite removeVaccineFromNameIndex_bucket.
    case_decide; [|apply Hwf].
    rewrite update_chain_keys; [apply Hwf|apply remove_lot_from_entry_name].
  - intros q [Hq Hne]%Hvl. rewrite name_of_delete by done.
    destruct (wf_grouped _ _ _ _ _ _ Hwf q Hq) as (e & He & Hn & Hqe).
    rewrite removeVaccineFromNameIndex_bucket. case_decide as Hi; [|by eauto].
    rewrite <- Hi in He. rewrite update_chain_fmap by apply Hwf.
    exists (if decide (vni_name e = nm) then remove_lot_from_entry h batch e else e).
    split_and!.
    + apply list_elem_of_fmap. eauto.
    + case_decide; [|done]. by rewrite remove_lot_from_entry_name.
    + case_decide as Hn'; [|done].
      by apply (remove_lot_from_entry_lots _ _ _ He Hn').
Qed.
End Purge.

(** ** Every command preserves well-formedness *)

Lemma oldest_loop_elem h l cur acc p :
  oldest_loop h l cur acc = Some p →
  (p ∈ l ∧ isLotValidAndAvailable (h !!! p) cur = true) ∨ acc = Some p.
Proof.
  revert acc. induction l as [|a l IH]; simpl; intros acc; [by right|].
  intros [[Hp Hv]|Hacc]%IH; [left; split; [by right|done]|].
  destruct (isLotValidAndAvailable (h !!! a) cur) eqn:Ha; [|by right].
  destruct acc as [o|].
  - destruct (compareVaccines _ _ <? 0); [|by right].
    injection Hacc as ->. left. split; [by left|done].
  - injection Hacc as ->. left. split; [by left|done].
Qed.

Lemma findOldestValidLot_elem s v cur hashSize p :
  findOldestValidLot s v cur hashSize = Some p →
  p ∈ group s v hashSize ∧ isLotValidAndAvailable (heap s !!! p) cur = true.
Proof.
  unfold findOldestValidLot, group.
  destruct (findVaccineByName _ _ _) as [e|]; [|done].
  destruct (lots e) as [|a l] eqn:Hl; [done|].
  unfold findOldestValidLotFromList.
  intros [?|?]%oldest_loop_elem; done.
Qed.

Lemma group_listed hashSize s v p :
  wf hashSize s → p ∈ group s v hashSize →
  p ∈ vaccineList s ∧ name_of (heap s) p = v.
Proof.
  intros Hwf. unfold group.
  destruct (findVaccineByName _ _ _) as [e|] eqn:He; [|by intros ?%elem_of_nil].
  intros Hp. by apply (wf_group_found Hwf v e He).
Qed.

Lemma commandC_wf hashSize args s maxVaccines portuguese :
  wf hashSize s → wf hashSize (commandC args s hashSize maxVaccines portuguese).1.
Proof.
  intros Hwf. unfold commandC.
  destruct (parseArgumentsC args) as [[[[batch validation] d] nm]|]; [|done].
  destruct (validateNewVaccine _ _ _ _ _ _); [done|].
  unfold addNewVaccineToSystem. destruct (_ >=? _); [done|].
  case_bool_decide as Hf; [done|]. simpl.
  apply wf_register; [done|]. by apply eq_None_not_Some.
Qed.

Lemma applyVaccine_wf hashSize u p cur s :
  wf hashSize s → p ∈ vaccineList s → wf hashSize (applyVaccine u p cur s).1.
Proof.
  intros Hwf Hp. unfold applyVaccine, wf. simpl.
  apply wf_lots_write; [by eapply wf_alloc|done..].
Qed.

Lemma processVaccineApplication_wf hashSize u v s cur portuguese :
  wf hashSize s →
  wf hashSize (processVaccineApplication u v s hashSize cur portuguese).1.
Proof.
  intros Hwf. unfold processVaccineApplication.
  destruct (isAlreadyVaccinated _ _ _ _ _); [done|].
  destruct (findOldestValidLot _ _ _ _) as [p|] eqn:Hf; [|done].
  apply applyVaccine_wf; [done|].
  apply findOldestValidLot_elem in Hf as [Hp _].
  by apply (group_listed hashSize s v p).
Qed.

Lemma commandA_wf hashSize args s cur portuguese :
  wf hashSize s → wf hashSize (commandA args s hashSize cur portuguese).1.
Proof.
  intros Hwf. unfold commandA. destruct (extractArguments args) as [[u v]|]; [|done].
  by apply processVaccineApplication_wf.
Qed.

Lemma handleUnusedVaccineLot_wf hashSize batch s :
  wf hashSize s → wf hashSize (handleUnusedVaccineLot batch s hashSize).
Proof.
  intros Hwf. unfold handleUnusedVaccineLot.
  destruct (findVaccineByBatch _ _ _ _) as [p|] eqn:Hf; [|done].
  pose proof Hf as [Hp <-]%(findVaccineByBatch_spec Hwf).
  unfold removeVaccineFromHash. rewrite hashBatch_hashString.
  unfold findVaccineByBatch in Hf. rewrite Hf. unfold wf. simpl.
  by apply wf_purge.
Qed.

Lemma handleUsedVaccineLot_wf hashSize p s :
  wf hashSize s → p ∈ vaccineList s → wf hashSize (handleUsedVaccineLot p s).
Proof.
  intros Hwf Hp. unfold handleUsedVaccineLot, wf. simpl.
  apply wf_lots_write; [by eapply wf_alloc|done..].
Qed.

Lemma commandR_wf hashSize args s portuguese :
  wf hashSize s → wf hashSize (commandR args s hashSize portuguese).1.
Proof.
  intros Hwf. unfold commandR. destruct args as [|c r]; [done|].
  destruct (findVaccineByBatch _ _ _ _) as [p|] eqn:Hf; [|done].
  destruct (_ =? 0); simpl.
  - by apply handleUnusedVaccineLot_wf.
  - apply handleUsedVaccineLot_wf; [done|].
    by apply (findVaccineByBatch_spec Hwf) in Hf as [? _].
Qed.

(** Command D leaves every index of the lots, and the lots themselves,
    untouched. *)
Lemma removeMatchingInoculations_lots s args hashSize :
  let s1 := (removeMatchingInoculations s args hashSize).1 in
  heap s1 = heap s ∧ hashTable s1 = hashTable s
  ∧ nameHashTable s1 = nameHashTable s ∧ vaccineList s1 = vaccineList s
  ∧ vaccineCount s1 = vaccineCount s ∧ currentDate s1 = currentDate s
  ∧ next_lot s1 = next_lot s.
Proof.
  unfold removeMatchingInoculations.
  destruct (findUserByName _ _ _); [|done].
  by destruct (remove_loop _ _ _ _) as [[??]?].
Qed.

Lemma commandD_lots args s hashSize cur portuguese :
  let s1 := (commandD args s hashSize cur portuguese).1 in
  heap s1 = heap s ∧ hashTable s1 = hashTable s
  ∧ nameHashTable s1 = nameHashTable s ∧ vaccineList s1 = vaccineList s
  ∧ vaccineCount s1 = vaccineCount s ∧ currentDate s1 = currentDate s
  ∧ next_lot s1 = next_lot s.
Proof.
  unfold commandD. destruct (processDeleteArgs _ _ _) as [[da|] out]; [|done].
  destruct (validateUser _ _ _); [done|].
  destruct (validateLot _ _ _ _); [done|].
  pose proof (removeMatchingInoculations_lots s da hashSize) as Hl.
  by destruct (removeMatchingInoculations s da hashSize).
Qed.

Lemma commandD_wf hashSize args s cur portuguese :
  wf hashSize s → wf hashSize (commandD args s hashSize cur portuguese).1.
Proof.
  intros Hwf. unfold wf.
  destruct (commandD_lots args s hashSize cur portuguese)
    as (-> & -> & -> & -> & _ & _ & ->). done.
Qed.

Lemma commandT_wf hashSize args s portuguese :
  wf hashSize s → wf hashSize (commandT args s portuguese).1.
Proof.
  intros Hwf. unfold commandT. destruct args; [done|].
  destruct (sscanf_date _); [|done].
  destruct (negb _); [done|]. by destruct (_ >? 0).
Qed.

Lemma handleCommand_wf hashSize cmd args s maxVaccines portuguese :
  wf hashSize s →
  wf hashSize (handleCommand cmd args s hashSize maxVaccines portuguese).1.
Proof.
  intros Hwf. unfold handleCommand.
  repeat (destruct (Ascii.eqb cmd _));
    auto using commandC_wf, commandT_wf, commandA_wf, commandR_wf, commandD_wf.
Qed.

Lemma processCommands_wf lines s portuguese :
  wf HASH_SIZE s → wf HASH_SIZE (processCommands lines s portuguese).1.
Proof.
  revert s. induction lines as [|command lines IH]; intros s Hwf; [done|].
  simpl.
  assert (wf HASH_SIZE (processLine command s portuguese).1) as Hwf1.
  { unfold processLine. destruct command; [done|]. by apply handleCommand_wf. }
  destruct (processLine command s portuguese) as [s1 out1].
  specialize (IH s1 Hwf1). destruct (processCommands lines s1 portuguese).
  destruct command as [|c r]; [done|].
  destruct c as [[] [] [] [] [] [] [] []]; done.
Qed.

(** ** Ranges

    Stored dates have a year that fits an [int] and is not negative, and
    stored dose counts satisfy [0 <= dosesUsed <= doses]: on such lots no
    [int] expression of the program overflows. *)

Lemma wrap_int_id (z : Z) : int_range z → wrap_int z = z.
Proof.
  unfold int_range, wrap_int. intros Hz.
  rewrite Z.mod_small; lia.
Qed.

Lemma wf_range_lot (s : State) (hashSize : Z) (p : ptr) :
  wf hashSize s → wf_range s → p ∈ vaccineList s → lot_ok (heap s !!! p).
Proof.
  intros Hwf [_ Hr] Hp. destruct (wf_alloc _ _ _ _ _ _ Hwf p Hp) as [vl Hvl].
  rewrite (lookup_total_correct _ _ _ Hvl). by eapply Hr.
Qed.

(** ** The order of the listing and of the allocation

    Dates are ordered by year, month, day; lots by expiry date and then by
    id, ids in the lexicographic order of their bytes. *)

Lemma Date_eq (a b : Date) :
  a = b ↔ year a = year b ∧ month a = month b ∧ day a = day b.
Proof.
  split; [by intros ->|]. destruct a, b; simpl. by intros (-> & -> & ->).
Qed.

Lemma string_ltb_strcmp (a b : string) : String.ltb a b = true ↔ strcmp a b < 0.
Proof.
  rewrite strcmp_lt. unfold String.ltb.
  destruct (String.compare a b); split; done.
Qed.

Lemma compareDates_lt (a b : Date) :
  date_ok a → date_ok b → compareDates a b < 0 ↔ date_lt a b.
Proof.
  unfold date_ok, date_lt, compareDates. intros Ha Hb.
  destruct (Z.eqb_spec (year a) (year b)); simpl;
    [destruct (Z.eqb_spec (month a) (month b)); simpl|];
    rewrite wrap_int_id by (unfold int_range; lia); lia.
Qed.

Lemma compareDates_eq (a b : Date) :
  date_ok a → date_ok b → compareDates a b = 0 ↔ a = b.
Proof.
  rewrite Date_eq. unfold date_ok, compareDates. intros Ha Hb.
  destruct (Z.eqb_spec (year a) (year b)); simpl;
    [destruct (Z.eqb_spec (month a) (month b)); simpl|];
    rewrite wrap_int_id by (unfold int_range; lia); lia.
Qed.

Lemma compareDates_ge (a b : Date) :
  date_ok a → date_ok b → compareDates a b >= 0 ↔ date_le b a.
Proof.
  intros Ha Hb. unfold date_le.
  rewrite <- (compareDates_lt b a), <- (compareDates_eq b a) by done.
  unfold date_ok, compareDates in *.
  destruct (Z.eqb_spec (year a) (year b)), (Z.eqb_spec (year b) (year a));
    try lia; simpl;
    [destruct (Z.eqb_spec (month a) (month b)), (Z.eqb_spec (month b) (month a));
     try lia; simpl|];
    rewrite !wrap_int_id by (unfold int_range; lia); lia.
Qed.

(** The value of [compareVaccines] on lots with stored dates. *)
Lemma compareVaccines_ok (a b : VaccineLot) :
  date_ok (validation a) → date_ok (validation b) →
  compareVaccines a b
  = if negb (year (validation a) =? year (validation b))
    then year (validation a) - year (validation b)
    else if negb (month (validation a) =? month (validation b))
    then month (validation a) - month (validation b)
    else if negb (day (validation a) =? day (validation b))
    then day (validation a) - day (validation b)
    else strcmp (lot a) (lot b).
Proof.
  unfold date_ok, compareVaccines. intros Ha Hb.
  rewrite !wrap_int_id by (unfold int_range; lia). done.
Qed.

Lemma compareVaccines_lt (a b : VaccineLot) :
  date_ok (validation a) → date_ok (validation b) →
  compareVaccines a b < 0 ↔ batch_lt a b.
Proof.
  intros Ha Hb. rewrite compareVaccines_ok by done.
  unfold batch_lt, date_lt. rewrite Date_eq, string_ltb_strcmp.
  destruct (Z.eqb_spec (year (validation a)) (year (validation b))); simpl; [|lia].
  destruct (Z.eqb_spec (month (validation a)) (month (validation b))); simpl; [|lia].
  destruct (Z.eqb_spec (day (validation a)) (day (validation b))); simpl; lia.
Qed.

Lemma compareVaccines_eq (a b : VaccineLot) :
  date_ok (validation a) → date_ok (validation b) →
  compareVaccines a b = 0 ↔ validation a = validation b ∧ lot a = lot b.
Proof.
  intros Ha Hb. rewrite compareVaccines_ok by done.
  rewrite Date_eq, <- strcmp_eq.
  destruct (Z.eqb_spec (year (validation a)) (year (validation b))); simpl; [|lia].
  destruct (Z.eqb_spec (month (validation a)) (month (validation b))); simpl; [|lia].
  destruct (Z.eqb_spec (day (validation a)) (day (validation b))); simpl; lia.
Qed.

Lemma compareVaccines_le (a b : VaccineLot) :
  date_ok (validation a) → date_ok (validation b) →
  compareVaccines a b <= 0 ↔ batch_le a b.
Proof.
  intros Ha Hb. unfold batch_le.
  rewrite <- compareVaccines_lt, <- compareVaccines_eq by done. lia.
Qed.

Lemma compareVaccines_antisym (a b : VaccineLot) :
  date_ok (validation a) → date_ok (validation b) →
  compareVaccines b a = - compareVaccines a b.
Proof.
  intros Ha Hb. rewrite !compareVaccines_ok by done.
  rewrite (strcmp_antisym (lot a) (lot b)).
  destruct (Z.eqb_spec (year (validation a)) (year (validation b))),
    (Z.eqb_spec (year (validation b)) (year (validation a))); try lia; simpl; [|lia].
  destruct (Z.eqb_spec (month (validation a)) (month (validation b))),
    (Z.eqb_spec (month (validation b)) (month (validation a))); try lia; simpl; [|lia].
  destruct (Z.eqb_spec (day (validation a)) (day (validation b))),
    (Z.eqb_spec (day (validation b)) (day (validation a))); try lia; simpl; lia.
Qed.

Lemma strcmp_le_trans (a b c : string) :
  strcmp a b <= 0 → strcmp b c <= 0 → strcmp a c <= 0.
Proof.
  intros Hab Hbc.
  destruct (decide (strcmp a b = 0)) as [->%strcmp_eq|]; [done|].
  destruct (decide (strcmp b c = 0)) as [->%strcmp_eq|]; [done|].
  assert (strcmp a c < 0); [|lia]. apply (strcmp_lt_trans a b c); lia.
Qed.

Lemma compareVaccines_trans (a b c : VaccineLot) :
  date_ok (validation a) → date_ok (validation b) → date_ok (validation c) →
  compareVaccines a b <= 0 → compareVaccines b c <= 0 →
  compareVaccines a c <= 0.
Proof.
  intros Ha Hb Hc. rewrite !compareVaccines_ok by done.
  pose proof (strcmp_le_trans (lot a) (lot b) (lot c)).
  destruct (Z.eqb_spec (year (validation a)) (year (validation b))),
    (Z.eqb_spec (year (validation b)) (year (validation c))),
    (Z.eqb_spec (year (validation a)) (year (validation c))); simpl; try lia.
  destruct (Z.eqb_spec (month (validation a)) (month (validation b))),
    (Z.eqb_spec (month (validation b)) (month (validation c))),
    (Z.eqb_spec (month (validation a)) (month (validation c))); simpl; try lia.
  destruct (Z.eqb_spec (day (validation a)) (day (validation b))),
    (Z.eqb_spec (day (validation b)) (day (validation c))),
    (Z.eqb_spec (day (validation a)) (day (validation c))); simpl; try lia.
Qed.

Lemma isLotValidAndAvailable_spec (vl : VaccineLot) (cur : Date) :
  date_ok (validation vl) → date_ok cur →
  isLotValidAndAvailable vl cur = true ↔ eligible vl cur.
Proof.
  intros Hvl Hcur. unfold isLotValidAndAvailable, eligible.
  rewrite !andb_true_iff, negb_true_iff, Z.gtb_lt, Z.geb_le.
  rewrite <- (compareDates_ge (validation vl) cur) by done.
  intuition lia.
Qed.

Lemma compareVaccines_refl (a : VaccineLot) :
  date_ok (validation a) → compareVaccines a a = 0.
Proof. intros Ha. by apply compareVaccines_eq. Qed.

Section Oldest.
Context (h : gmap ptr VaccineLot) (cur : Date).
Hypothesis Hcur : date_ok cur.

Local Abbreviation ok p := (date_ok (validation (h !!! p))).
Local Abbreviation elig p := (eligible (h !!! p) cur).

Lemma oldest_loop_spec (l : list ptr) (acc : option ptr) :
  (∀ p, p ∈ l → ok p) →
  (∀ o, acc = Some o → ok o) →
  match oldest_loop h l cur acc with
  | Some p =>
      ok p ∧ ((p ∈ l ∧ elig p) ∨ acc = Some p)
      ∧ (∀ q, q ∈ l → elig q → compareVaccines (h !!! p) (h !!! q) <= 0)
      ∧ (∀ o, acc = Some o → compareVaccines (h !!! p) (h !!! o) <= 0)
  | None => acc = None ∧ ∀ q, q ∈ l → ¬ elig q
  end.
Proof.
  revert acc. induction l as [|a l IH]; intros acc Hl Hacc; simpl.
  - destruct acc as [o|]; [|by split; [|intros ? ?%elem_of_nil]].
    split_and!; [by apply Hacc|by right|by intros ? ?%elem_of_nil|].
    intros ? [= <-]. rewrite compareVaccines_refl; [done|by apply Hacc].
  - assert (ok a) as Hoka by (apply Hl; left).
    assert (∀ p, p ∈ l → ok p) as Hl' by (intros; apply Hl; by right).
    destruct (isLotValidAndAvailable (h !!! a) cur) eqn:Ha.
    + apply isLotValidAndAvailable_spec in Ha; [|done..].
      destruct acc as [o|].
      * assert (ok o) as Hoko by by apply Hacc.
        destruct (Z.ltb_spec (compareVaccines (h !!! a) (h !!! o)) 0) as [Hlt|Hge].
        -- specialize (IH (Some a) Hl'). destruct (oldest_loop h l cur (Some a)) as [p|].
           ++ destruct IH as (Hokp & Hin & Hmin & Hbest); [by intros ? [= <-]|].
              specialize (Hbest a eq_refl). split_and!.
              ** done.
              ** left. destruct Hin as [[??]|[= ->]]; (split; [by constructor|done]).
              ** intros q [->|Hq]%elem_of_cons Hq'; auto.
              ** intros ? [= <-].
                 apply (compareVaccines_trans _ (h !!! a)); [done..|lia].
           ++ by destruct IH as [? _]; [by intros ? [= <-]|].
        -- specialize (IH (Some o) Hl'). destruct (oldest_loop h l cur (Some o)) as [p|].
           ++ destruct IH as (Hokp & Hin & Hmin & Hbest); [by intros ? [= <-]|].
              specialize (Hbest o eq_refl). split_and!.
              ** done.
              ** destruct Hin as [[??]|[= ->]]; [left|by right].
                 split; [by constructor|done].
              ** intros q [->|Hq]%elem_of_cons Hq'; [|by auto].
                 apply (compareVaccines_trans _ (h !!! o)); [done..|].
                 rewrite (compareVaccines_antisym (h !!! a)) by done. lia.
              ** by intros ? [= <-].
           ++ by destruct IH as [? _]; [by intros ? [= <-]|].
      * specialize (IH (Some a) Hl'). destruct (oldest_loop h l cur (Some a)) as [p|].
        -- destruct IH as (Hokp & Hin & Hmin & Hbest); [by intros ? [= <-]|].
           specialize (Hbest a eq_refl). split_and!.
           ++ done.
           ++ left. destruct Hin as [[??]|[= ->]]; (split; [by constructor|done]).
           ++ intros q [->|Hq]%elem_of_cons Hq'; auto.
           ++ done.
        -- by destruct IH as [? _]; [by intros ? [= <-]|].
    + assert (¬ elig a) as Hna.
      { intros He. apply isLotValidAndAvailable_spec in He; [|done..]. congruence. }
      specialize (IH acc Hl' Hacc). destruct (oldest_loop h l cur acc) as [p|].
      * destruct IH as (Hokp & Hin & Hmin & Hbest). split_and!.
        -- done.
        -- destruct Hin as [[??]|?]; [left|by right]. split; [by constructor|done].
        -- intros q [->|Hq]%elem_of_cons Hq'; [done|by auto].
        -- done.
      * destruct IH as [-> Hnone]. split; [done|].
        intros q [->|Hq]%elem_of_cons; auto.
Qed.
End Oldest.


Lemma wf_range_three_lots : wf_range three_lots.
Proof. apply (bool_decide_unpack (wf_range three_lots)). vm_compute. exact I. Qed.


(** On [three_lots] the allocation takes A1: C3 expires the same day and has
    the greater id, B2 expires later. *)
Example three_lots_allocation :
  (processVaccineApplication "Alice" "VaxX" three_lots HASH_SIZE
     (currentDate three_lots) false).2 = ["A1"].
Proof. vm_compute. reflexivity. Qed.

(** ** The ranges are kept by the commands

    Command T is the exception: its comparison [compareDates] subtracts
    years, and a scanned year below [2025 - 2^31] makes the difference
    overflow; the clock keeps a valid date when the scanned year is not
    negative. *)

Lemma wrap_int_range (z : Z) : int_range (wrap_int z).
Proof.
  unfold int_range, wrap_int.
  pose proof (Z.mod_pos_bound (z + 2 ^ 31) (2 ^ 32)). lia.
Qed.

Lemma scan_int_range (s : string) (v : Z) (rest : string) :
  scan_int s = Some (v, rest) → int_range v.
Proof.
  unfold scan_int.
  destruct (match skip_space s with
            | String "-" r => (true, r)
            | String "+" r => (false, r)
            | _ => (false, skip_space s)
            end) as [neg s2].
  destruct (scan_digits s2 0 false) as [[v' seen] rest'].
  destruct seen; [|done]. intros [= <- _]. apply wrap_int_range.
Qed.

Lemma sscanf_date_range (s : string) (d : Date) :
  sscanf_date s = Some d → int_range (year d).
Proof.
  unfold sscanf_date.
  destruct (scan_int s) as [[dd [|c1 r1]]|]; [done| |done].
  destruct (Ascii.eqb_spec c1 "-") as [->|Hc1].
  2:{ destruct c1 as [[] [] [] [] [] [] [] []]; done. }
  destruct (scan_int r1) as [[mm [|c2 r2]]|]; [done| |done].
  destruct (Ascii.eqb_spec c2 "-") as [->|Hc2].
  2:{ destruct c2 as [[] [] [] [] [] [] [] []]; done. }
  destruct (scan_int r2) as [[yy r3]|] eqn:Hy; [|done].
  intros [= <-]. simpl. by eapply scan_int_range.
Qed.

Lemma atoi_range (s : string) : int_range (atoi s).
Proof.
  unfold atoi. destruct (scan_int s) as [[v r]|] eqn:E.
  - by eapply scan_int_range.
  - unfold int_range. lia.
Qed.

Lemma getDaysInMonth_le (m y : Z) : 1 <= m <= 12 → getDaysInMonth m y <= 31.
Proof.
  intros Hm. unfold getDaysInMonth. destruct (_ && _); [lia|].
  assert (m = 1 ∨ m = 2 ∨ m = 3 ∨ m = 4 ∨ m = 5 ∨ m = 6 ∨ m = 7 ∨ m = 8
          ∨ m = 9 ∨ m = 10 ∨ m = 11 ∨ m = 12) as Hcases by lia.
  repeat (destruct Hcases as [->|Hcases]; [by vm_compute|]). subst. by vm_compute.
Qed.

Lemma isValidDate_ok (d cur : Date) :
  date_ok cur → int_range (year d) → isValidDate d cur = true → date_ok d.
Proof.
  intros (Hy & _) Hr. unfold isValidDate, isMonthValid, isDayValid, isDateNotEarlier.
  destruct (Z.leb_spec 1 (month d)), (Z.leb_spec (month d) 12); simpl; try done.
  destruct (Z.leb_spec 1 (day d)), (Z.leb_spec (day d) (getDaysInMonth (month d) (year d)));
    simpl; try done.
  pose proof (getDaysInMonth_le (month d) (year d)).
  destruct (Z.ltb_spec (year d) (year cur)); [done|]. intros _.
  unfold date_ok, int_range in *. lia.
Qed.

Lemma isDateFormatValid_ok (d : Date) :
  0 <= year d → int_range (year d) → isDateFormatValid d = true → date_ok d.
Proof.
  intros Hy Hr. unfold isDateFormatValid.
  destruct (Z.ltb_spec (month d) 1), (Z.gtb_spec (month d) 12); simpl; try done.
  pose proof (getDaysInMonth_le (month d) (year d)) as Hdim.
  unfold getDaysInMonth in Hdim.
  destruct (Z.geb_spec (day d) 1); simpl; [|done].
  intros Hle%Z.leb_le. unfold date_ok, int_range in *. lia.
Qed.

Lemma parseArgumentsC_range (args batch nm : string) (validation : Date) (d : Z) :
  parseArgumentsC args = Some (batch, validation, d, nm) →
  int_range (year validation) ∧ int_range d.
Proof.
  unfold parseArgumentsC.
  destruct (strtok_r args " ") as [[b r1]|]; [|done].
  destruct (strtok_r r1 " ") as [[t2 r2]|]; [|done].
  destruct (parseValidationDate t2) as [val|] eqn:Hval; [|done].
  destruct (strtok_r r2 " ") as [[t3 r3]|]; [|done].
  destruct r3; [done|]. intros [= <- <- <- <-].
  split; [by eapply sscanf_date_range|apply atoi_range].
Qed.

Lemma commandC_wf_range hashSize args s maxVaccines portuguese :
  wf hashSize s → wf_range s →
  wf_range (commandC args s hashSize maxVaccines portuguese).1.
Proof.
  intros Hwf [Hcur Hlots]. unfold commandC.
  destruct (parseArgumentsC args) as [[[[batch validation] d] nm]|] eqn:Hparse; [|done].
  apply parseArgumentsC_range in Hparse as [Hvr Hdr].
  unfold validateNewVaccine.
  destruct (isValidBatch batch); simpl; [|done].
  destruct (isValidName nm); simpl; [|done].
  destruct (isValidDate validation (currentDate s)) eqn:Hvd; simpl; [|done].
  destruct (Z.leb_spec d 0); [done|].
  unfold addNewVaccineToSystem. destruct (_ >=? _); [done|].
  case_bool_decide; [done|]. split; [done|]. simpl.
  apply map_Forall_insert_2; [|done]. unfold lot_ok, createVaccineLot. simpl.
  split; [by eapply isValidDate_ok|]. unfold int_range in Hdr. lia.
Qed.

Lemma commandA_wf_range hashSize args s portuguese :
  wf hashSize s → wf_range s →
  wf_range (commandA args s hashSize (currentDate s) portuguese).1.
Proof.
  intros Hwf [Hcur Hlots]. unfold commandA.
  destruct (extractArguments args) as [[u v]|]; [|done].
  unfold processVaccineApplication. destruct (isAlreadyVaccinated _ _ _ _ _); [done|].
  destruct (findOldestValidLot _ _ _ _) as [p|] eqn:Hf; [|done].
  apply findOldestValidLot_elem in Hf as [Hp Hv].
  assert (lot_ok (heap s !!! p)) as (Hd & Hu & Hdoses).
  { apply (wf_range_lot s hashSize); [done..|]. by apply (group_listed hashSize s v p). }
  split; [done|]. simpl. apply map_Forall_insert_2; [|done].
  unfold isLotValidAndAvailable in Hv.
  apply andb_true_iff in Hv as [[_ Hgt%Z.gtb_lt]%andb_true_iff _].
  unfold lot_ok, use_dose. simpl.
  rewrite wrap_int_id by (unfold int_range; lia). split; [done|lia].
Qed.

Lemma commandR_wf_range hashSize args s portuguese :
  wf hashSize s → wf_range s →
  wf_range (commandR args s hashSize portuguese).1.
Proof.
  intros Hwf [Hcur Hlots]. unfold commandR. destruct args as [|c a]; [done|].
  destruct (findVaccineByBatch _ _ _ _) as [p|] eqn:Hf; [|done].
  pose proof Hf as [Hp _]%(findVaccineByBatch_spec Hwf).
  destruct (_ =? 0); simpl.
  - unfold handleUnusedVaccineLot. rewrite Hf.
    unfold removeVaccineFromHash. rewrite hashBatch_hashString.
    unfold findVaccineByBatch in Hf. rewrite Hf. split; [done|]. simpl.
    by apply map_Forall_delete.
  - split; [done|]. simpl. apply map_Forall_insert_2; [|done].
    assert (lot_ok (heap s !!! p)) as (Hd & Hu & Hdoses)
      by by apply (wf_range_lot s hashSize).
    unfold lot_ok, freeze. simpl. split; [done|lia].
Qed.

Lemma commandD_wf_range hashSize args s cur portuguese :
  wf_range s → wf_range (commandD args s hashSize cur portuguese).1.
Proof.
  intros Hr. unfold wf_range.
  destruct (commandD_lots args s hashSize cur portuguese)
    as (-> & _ & _ & _ & _ & -> & _). done.
Qed.

Lemma commandT_wf_range args s portuguese :
  wf_range s → (∀ d, sscanf_date args = Some d → 0 <= year d) →
  wf_range (commandT args s portuguese).1.
Proof.
  intros [Hcur Hlots] Hyear. unfold commandT. destruct args as [|c a]; [done|].
  destruct (sscanf_date (String c a)) as [d|] eqn:Hd; [|done].
  destruct (isDateFormatValid d) eqn:Hv; simpl; [|done].
  destruct (_ >? 0); [done|]. split; [|done]. simpl.
  apply isDateFormatValid_ok; [by apply Hyear|by eapply sscanf_date_range|done].
Qed.

(** ** The hybrid sort

    An index range [low .. high] of the array is the segment between a
    prefix of length [low] and a suffix; each loop is described by what it
    does to the segment. *)

Section SortProofs.
Context {A : Type} `{Inhabited A}.
Variable compare : A → A → Z.

Lemma get_mid (pre post : list A) (x : A) (i : Z) :
  i = Z.of_nat (length pre) → (pre ++ x :: post) !!! Z.to_nat i = x.
Proof. intros ->. rewrite Nat2Z.id. by apply list_lookup_total_middle. Qed.

Lemma set_mid (pre post : list A) (x y : A) (i : Z) :
  i = Z.of_nat (length pre) →
  <[Z.to_nat i := y]> (pre ++ x :: post) = pre ++ y :: post.
Proof.
  intros ->. rewrite Nat2Z.id, insert_app_r_alt by lia.
  by rewrite Nat.sub_diag.
Qed.

Lemma ins_perm key R : ins compare key R ≡ₚ key :: R.
Proof.
  induction R as [|x R IH]; simpl; [done|].
  destruct (compare x key >? 0); [|done]. rewrite IH. apply Permutation_swap.
Qed.

Lemma ins_length key R : length (ins compare key R) = S (length R).
Proof. by rewrite ins_perm. Qed.

Lemma insertion_shift_spec (R pre post : list A) (junk key : A) (low j : Z) :
  low = Z.of_nat (length pre) → j = low + Z.of_nat (length R) - 1 →
  insertion_shift compare (length R) (pre ++ rev R ++ junk :: post) key low j
  = pre ++ rev (ins compare key R) ++ post.
Proof.
  revert junk post j. induction R as [|x R IH]; intros junk post j Hlow Hj.
  - simpl in *. rewrite set_mid by lia. done.
  - cbn [length insertion_shift rev ins].
    assert (j = Z.of_nat (length (pre ++ rev R))) as Hj'
      by (rewrite length_app, length_rev; simpl in Hj; lia).
    replace (pre ++ (rev R ++ [x]) ++ junk :: post)
      with ((pre ++ rev R) ++ x :: junk :: post)
      by by rewrite <- !app_assoc.
    rewrite get_mid by done.
    replace (j >=? low) with true by (symmetry; apply Z.geb_le; simpl in Hj; lia).
    rewrite andb_true_l.
    replace ((pre ++ rev R) ++ x :: junk :: post)
      with ((pre ++ rev R ++ [x]) ++ junk :: post)
      by by rewrite <- !app_assoc.
    assert (j + 1 = Z.of_nat (length (pre ++ rev R ++ [x]))) as Hj1
      by (rewrite !length_app, length_rev; simpl in *; lia).
    rewrite !set_mid by done.
    destruct (compare x key >? 0).
    + replace ((pre ++ rev R ++ [x]) ++ x :: post)
        with (pre ++ rev R ++ x :: x :: post) by by rewrite <- !app_assoc.
      rewrite IH by (simpl in Hj; lia).
      cbn [rev]. by rewrite <- !app_assoc.
    + cbn [rev]. by rewrite <- !app_assoc.
Qed.

Lemma insertion_outer_spec (rest R pre post : list A) (low i : Z) :
  low = Z.of_nat (length pre) → i = low + Z.of_nat (length R) →
  insertion_outer compare (length rest) (pre ++ rev R ++ rest ++ post) low i
  = pre ++ rev (fold_left (λ R k, ins compare k R) rest R) ++ post.
Proof.
  revert R i. induction rest as [|k rest IH]; intros R i Hlow Hi.
  - done.
  - cbn [length insertion_outer fold_left].
    replace (pre ++ rev R ++ (k :: rest) ++ post)
      with ((pre ++ rev R) ++ k :: rest ++ post) by by rewrite <- !app_assoc.
    rewrite get_mid by (rewrite length_app, length_rev; lia).
    replace (Z.to_nat (i - low)) with (length R) by lia.
    replace ((pre ++ rev R) ++ k :: rest ++ post)
      with (pre ++ rev R ++ k :: rest ++ post) by by rewrite <- !app_assoc.
    rewrite insertion_shift_spec by lia.
    apply IH; [done|]. rewrite ins_length. lia.
Qed.

Lemma insertionSort_spec (pre post rest : list A) (x : A) (low high : Z) :
  low = Z.of_nat (length pre) →
  Z.of_nat (length (x :: rest)) = high - low + 1 →
  insertionSort compare (pre ++ (x :: rest) ++ post) low high
  = pre ++ rev (fold_left (λ R k, ins compare k R) rest [x]) ++ post.
Proof.
  intros Hlow Hlen. unfold insertionSort.
  replace (Z.to_nat (high - low)) with (length rest) by (simpl in Hlen; lia).
  apply (insertion_outer_spec rest [x]); simpl; lia.
Qed.

Lemma fold_ins_perm (rest R : list A) :
  fold_left (λ R k, ins compare k R) rest R ≡ₚ R ++ rest.
Proof.
  revert R. induction rest as [|k rest IH]; intros R; simpl.
  - by rewrite app_nil_r.
  - rewrite IH, ins_perm. simpl. apply Permutation_middle.
Qed.

Lemma swap_same (arr : list A) (k : Z) : swapVaccines arr k k = arr.
Proof.
  unfold swapVaccines.
  assert (<[Z.to_nat k := arr !!! Z.to_nat k]> arr = arr) as Hid.
  { apply list_insert_id'. intros Hk. by apply list_lookup_lookup_total_lt. }
  by rewrite !Hid.
Qed.

Lemma swap_apart (l1 l2 l3 : list A) (a b : A) (i j : Z) :
  i = Z.of_nat (length l1) → j = Z.of_nat (length l1 + 1 + length l2) →
  swapVaccines (l1 ++ a :: l2 ++ b :: l3) i j = l1 ++ b :: l2 ++ a :: l3.
Proof.
  intros Hi Hj. unfold swapVaccines.
  rewrite get_mid by done. rewrite set_mid by done.
  assert (j = Z.of_nat (length (l1 ++ a :: l2))) as Hj1
    by (rewrite length_app; simpl; lia).
  assert (j = Z.of_nat (length (l1 ++ b :: l2))) as Hj2
    by (rewrite length_app; simpl; lia).
  replace (l1 ++ a :: l2 ++ b :: l3) with ((l1 ++ a :: l2) ++ b :: l3)
    by by rewrite <- app_assoc.
  rewrite get_mid by done.
  replace (l1 ++ b :: l2 ++ b :: l3) with ((l1 ++ b :: l2) ++ b :: l3)
    by by rewrite <- app_assoc.
  rewrite set_mid by done. by rewrite <- app_assoc.
Qed.

(** The loop of [partition]: the segment is [Sm ++ Lg ++ Rest ++ [pivot]],
    with [Sm] the elements found not greater than the pivot, [Lg] those
    found greater, [Rest] those not yet seen. *)
Lemma partition_loop_spec (Rest Sm Lg pre post : list A) (pivot : A)
    (low i j : Z) :
  low = Z.of_nat (length pre) →
  i = low + Z.of_nat (length Sm) - 1 →
  j = low + Z.of_nat (length Sm) + Z.of_nat (length Lg) →
  Forall (λ x, compare x pivot <= 0) Sm →
  Forall (λ x, compare x pivot > 0) Lg →
  ∃ Sm' Lg',
    partition_loop compare (length Rest)
      (pre ++ Sm ++ Lg ++ Rest ++ pivot :: post) pivot i j
    = (pre ++ Sm' ++ Lg' ++ pivot :: post, low + Z.of_nat (length Sm') - 1)
    ∧ Sm' ++ Lg' ≡ₚ Sm ++ Lg ++ Rest
    ∧ Forall (λ x, compare x pivot <= 0) Sm'
    ∧ Forall (λ x, compare x pivot > 0) Lg'.
Proof.
  revert Sm Lg i j. induction Rest as [|x Rest IH]; intros Sm Lg i j Hlow Hi Hj HSm HLg.
  - exists Sm, Lg. simpl. rewrite app_nil_r. subst i. done.
  - cbn [length partition_loop].
    replace (pre ++ Sm ++ Lg ++ (x :: Rest) ++ pivot :: post)
      with ((pre ++ Sm ++ Lg) ++ x :: Rest ++ pivot :: post)
      by by rewrite <- !app_assoc.
    rewrite get_mid by (rewrite !length_app; lia).
    destruct (Z.leb_spec (compare x pivot) 0) as [Hle|Hgt].
    + destruct Lg as [|g Lg].
      * assert (j = i + 1) as -> by (simpl in Hj; lia). rewrite swap_same.
        destruct (IH (Sm ++ [x]) [] (i + 1) (i + 1 + 1)) as (Sm' & Lg' & Heq & Hperm & H1 & H2).
        { done. } { rewrite length_app. simpl. lia. }
        { rewrite length_app. simpl in *. lia. }
        { apply Forall_app. split; [done|]. by repeat constructor. }
        { constructor. }
        exists Sm', Lg'. split_and!; [|by rewrite Hperm, <- !app_assoc|done..].
        rewrite <- Heq. f_equal. by rewrite <- !app_assoc.
      * replace ((pre ++ Sm ++ g :: Lg) ++ x :: Rest ++ pivot :: post)
          with ((pre ++ Sm) ++ g :: Lg ++ x :: Rest ++ pivot :: post)
          by by rewrite <- !app_assoc.
        rewrite swap_apart;
          [|rewrite length_app; lia|rewrite length_app; simpl in Hj; lia].
        apply Forall_cons in HLg as [Hg HLg].
        destruct (IH (Sm ++ [x]) (Lg ++ [g]) (i + 1) (j + 1)) as (Sm' & Lg' & Heq & Hperm & H1 & H2).
        { done. } { rewrite length_app. simpl. lia. }
        { rewrite !length_app. simpl in *. lia. }
        { apply Forall_app. split; [done|]. by repeat constructor. }
        { apply Forall_app. split; [done|]. by repeat constructor. }
        exists Sm', Lg'. split_and!; [| |done..].
        -- rewrite <- Heq. f_equal. by rewrite <- !app_assoc.
        -- rewrite Hperm. rewrite <- !app_assoc. apply Permutation_app_head.
           simpl. rewrite (Permutation_app_comm Lg (g :: Rest)). simpl.
           rewrite (Permutation_app_comm Rest Lg).
           rewrite Permutation_swap. apply perm_skip.
           by rewrite Permutation_middle.
    + destruct (IH Sm (Lg ++ [x]) i (j + 1)) as (Sm' & Lg' & Heq & Hperm & H1 & H2).
      { done. } { done. } { rewrite length_app. simpl. lia. }
      { done. } { apply Forall_app. split; [done|]. repeat constructor. lia. }
      exists Sm', Lg'. split_and!; [|by rewrite Hperm, <- !app_assoc|done..].
      rewrite <- Heq. f_equal. by rewrite <- !app_assoc.
Qed.

Lemma partition_spec (pre body post : list A) (pivot : A) (low high : Z) :
  low = Z.of_nat (length pre) →
  Z.of_nat (length (body ++ [pivot])) = high - low + 1 →
  ∃ Sm Lg,
    partition compare (pre ++ (body ++ [pivot]) ++ post) low high
    = (pre ++ Sm ++ pivot :: Lg ++ post, low + Z.of_nat (length Sm))
    ∧ Sm ++ Lg ≡ₚ body
    ∧ Forall (λ x, compare x pivot <= 0) Sm
    ∧ Forall (λ x, compare x pivot > 0) Lg.
Proof.
  intros Hlow Hlen. rewrite length_app in Hlen. simpl in Hlen.
  unfold partition.
  replace (pre ++ (body ++ [pivot]) ++ post)
    with ((pre ++ body) ++ pivot :: post) by by rewrite <- !app_assoc.
  rewrite get_mid by (rewrite length_app; lia).
  replace (Z.to_nat (high - low)) with (length body) by lia.
  destruct (partition_loop_spec body [] [] pre post pivot low (low - 1) low)
    as (Sm & Lg & Heq & Hperm & HSm & HLg);
    [done|simpl; lia|simpl; lia|constructor|constructor|].
  simpl in Heq, Hperm.
  replace ((pre ++ body) ++ pivot :: post) with (pre ++ body ++ pivot :: post)
    by by rewrite <- !app_assoc.
  rewrite Heq.
  replace (low + Z.of_nat (length Sm) - 1 + 1) with (low + Z.of_nat (length Sm)) by lia.
  destruct Lg as [|g Lg].
  - exists Sm, []. simpl in *.
    replace high with (low + Z.of_nat (length Sm)).
    2:{ apply Permutation_length in Hperm. rewrite app_nil_r in Hperm. lia. }
    rewrite swap_same. done.
  - exists Sm, (Lg ++ [g]).
    replace (pre ++ Sm ++ (g :: Lg) ++ pivot :: post)
      with ((pre ++ Sm) ++ g :: Lg ++ pivot :: post) by by rewrite <- !app_assoc.
    rewrite swap_apart.
    + split_and!; [by rewrite <- !app_assoc| |done|].
      * rewrite <- Hperm. apply Permutation_app_head.
        by rewrite <- Permutation_cons_append.
      * apply Forall_cons in HLg as [??]. apply Forall_app. split; [done|].
        by repeat constructor.
    + rewrite length_app. lia.
    + apply Permutation_length in Hperm. rewrite !length_app in *. simpl in *. lia.
Qed.

(** Sortedness needs the comparator to behave as a total preorder on the
    elements at hand. *)
Variable ok : A → Prop.
Hypothesis compare_trans : ∀ a b c, ok a → ok b → ok c →
  compare a b <= 0 → compare b c <= 0 → compare a c <= 0.
Hypothesis compare_total : ∀ a b, ok a → ok b →
  compare a b > 0 → compare b a <= 0.

Local Abbreviation le := (λ a b, compare a b <= 0).
Local Abbreviation ge := (λ a b, compare b a <= 0).

Lemma ins_sorted key R :
  ok key → Forall ok R → StronglySorted ge R → StronglySorted ge (ins compare key R).
Proof.
  intros Hkey. induction R as [|x R IH]; intros Hok Hs; simpl.
  - repeat constructor.
  - apply Forall_cons in Hok as [Hx Hok].
    apply StronglySorted_cons in Hs as [Hall Hs].
    destruct (Z.gtb_spec (compare x key) 0) as [Hgt|Hle].
    + apply StronglySorted_cons. split; [|by apply IH].
      rewrite ins_perm. constructor; [|done]. apply compare_total; [done..|lia].
    + apply StronglySorted_cons. split; [|by apply StronglySorted_cons].
      constructor; [done|]. rewrite Forall_forall in Hall, Hok |- *.
      intros y Hy. apply (compare_trans y x key); auto.
Qed.

Lemma fold_ins_sorted (rest R : list A) :
  Forall ok rest → Forall ok R → StronglySorted ge R →
  StronglySorted ge (fold_left (λ R k, ins compare k R) rest R).
Proof.
  revert R. induction rest as [|k rest IH]; intros R Hrest HR Hs; simpl; [done|].
  apply Forall_cons in Hrest as [Hk Hrest]. apply IH; [done| |by apply ins_sorted].
  rewrite ins_perm. by constructor.
Qed.

Lemma StronglySorted_rev_ge (R : list A) :
  StronglySorted ge R → StronglySorted le (rev R).
Proof.
  induction R as [|x R IH]; intros Hs; simpl; [constructor|].
  apply StronglySorted_cons in Hs as [Hall Hs].
  apply StronglySorted_app. split_and!; [|by apply IH|repeat constructor].
  intros a b Ha ->%list_elem_of_singleton.
  rewrite Forall_forall in Hall. apply Hall.
  apply list_elem_of_In, in_rev. by apply list_elem_of_In.
Qed.

Lemma quickSort_rec_spec (fuel : nat) (pre seg post : list A) (low high : Z) :
  low = Z.of_nat (length pre) →
  Z.of_nat (length seg) = high - low + 1 →
  (length seg ≤ fuel)%nat →
  ∃ seg',
    quickSort_rec compare fuel (pre ++ seg ++ post) low high
    = pre ++ seg' ++ post
    ∧ seg' ≡ₚ seg
    ∧ (Forall ok seg → StronglySorted le seg').
Proof.
  revert pre seg post low high.
  induction fuel as [|fuel IH]; intros pre seg post low high Hlow Hlen Hfuel.
  { destruct seg; [|simpl in Hfuel; lia]. exists []. split_and!; [done..|constructor]. }
  cbn [quickSort_rec]. destruct (Z.ltb_spec low high) as [Hlt|Hge].
  2:{ exists seg. split_and!; [done..|]. intros _.
      destruct seg as [|x [|y seg]]; [constructor|repeat constructor|].
      simpl in Hlen. lia. }
  destruct (Z.ltb_spec (high - low) 10) as [Hsmall|Hbig].
  - destruct seg as [|x rest]; [simpl in Hlen; lia|].
    rewrite insertionSort_spec by done.
    eexists. split_and!; [done| |].
    + rewrite <- Permutation_rev. by rewrite fold_ins_perm.
    + intros [Hx Hrest]%Forall_cons. apply StronglySorted_rev_ge.
      apply fold_ins_sorted; [done|by repeat constructor|repeat constructor].
  - destruct seg as [|pivot body _] using rev_ind; [simpl in Hlen; lia|].
    destruct (partition_spec pre body post pivot low high Hlow Hlen)
      as (Sm & Lg & -> & Hperm & HSm & HLg).
    pose proof (Permutation_length Hperm) as Hl.
    rewrite !length_app in Hlen, Hfuel, Hl. simpl in Hlen, Hfuel.
    destruct (IH pre Sm (pivot :: Lg ++ post) low (low + Z.of_nat (length Sm) - 1))
      as (Sm' & -> & HpSm & HsSm); [done|lia|lia|].
    pose proof (Permutation_length HpSm) as Hl'.
    replace (pre ++ Sm' ++ pivot :: Lg ++ post)
      with ((pre ++ Sm' ++ [pivot]) ++ Lg ++ post) by by rewrite <- !app_assoc.
    destruct (IH (pre ++ Sm' ++ [pivot]) Lg post (low + Z.of_nat (length Sm) + 1) high)
      as (Lg' & -> & HpLg & HsLg).
    { rewrite !length_app. simpl. lia. } { lia. } { lia. }
    exists (Sm' ++ pivot :: Lg'). split_and!.
    + by rewrite <- !app_assoc.
    + rewrite HpSm, HpLg, <- Hperm.
      rewrite <- !app_assoc. apply Permutation_app_head.
      by rewrite <- Permutation_cons_append.
    + intros Hok. rewrite <- Hperm in Hok.
      apply Forall_app in Hok as [[HokS HokL]%Forall_app [Hokp _]%Forall_cons].
      assert (Forall (λ x, ok x ∧ compare x pivot <= 0) Sm') as HS'.
      { rewrite HpSm. apply Forall_and. done. }
      assert (Forall (λ x, ok x ∧ compare x pivot > 0) Lg') as HL'.
      { rewrite HpLg. apply Forall_and. done. }
      rewrite Forall_forall in HS', HL'.
      apply StronglySorted_app. split_and!.
      * intros x1 x2 [Hx1 Hx1p]%HS' [->|[Hx2 Hx2p]%HL']%elem_of_cons; [done|].
        apply (compare_trans x1 pivot x2); [done..|]. by apply compare_total.
      * by apply HsSm.
      * apply StronglySorted_cons. split; [|by apply HsLg].
        apply Forall_forall. intros y [Hy Hyp]%HL'. by apply compare_total.
Qed.

Lemma quickSort_spec (arr : list A) :
  ∃ arr',
    quickSort compare arr 0 (Z.of_nat (length arr) - 1) = arr'
    ∧ arr' ≡ₚ arr
    ∧ (Forall ok arr → StronglySorted le arr').
Proof.
  destruct (quickSort_rec_spec (length arr) [] arr [] 0 (Z.of_nat (length arr) - 1))
    as (arr' & Heq & Hperm & Hs); [done|lia|done|].
  exists arr'. split_and!; [|done..]. unfold quickSort.
  replace (Z.to_nat (Z.of_nat (length arr) - 1 - 0 + 1)) with (length arr) by lia.
  rewrite app_nil_r in Heq. simpl in Heq. by rewrite app_nil_r in Heq.
Qed.
End SortProofs.

Lemma fmt_02d_two_digits (n : Z) : 0 <= n <= 31 → fmt_02d n = two_digits n.
Proof.
  intros Hn.
  assert (Forall (λ k, fmt_02d (Z.of_nat k) = two_digits (Z.of_nat k)) (seq 0 32)) as Hall.
  { apply (bool_decide_unpack _). vm_compute. exact I. }
  rewrite Forall_forall in Hall. rewrite <- (Z2Nat.id n) by lia.
  apply Hall, elem_of_seq. lia.
Qed.

Lemma printVaccine_batch_line (vl : VaccineLot) :
  lot_ok vl → printVaccine vl = batch_line vl.
Proof.
  intros ((Hy & Hm & Hd) & Hu & Hdoses). unfold printVaccine, batch_line.
  rewrite !fmt_02d_two_digits by lia.
  rewrite wrap_int_id by (unfold int_range; lia). done.
Qed.

Lemma StronglySorted_impl_elem {B} (R R' : B → B → Prop) (l : list B) :
  (∀ x y, x ∈ l → y ∈ l → R x y → R' x y) →
  StronglySorted R l → StronglySorted R' l.
Proof.
  induction l as [|a l IH]; intros Himpl Hs; [constructor|].
  apply StronglySorted_cons in Hs as [Hall Hs]. apply StronglySorted_cons. split.
  - rewrite Forall_forall in Hall |- *. intros y Hy.
    apply Himpl; [by left|by right|by apply Hall].
  - apply IH; [|done]. intros x y Hx Hy. apply Himpl; by right.
Qed.

Lemma quickSort_compare_ptr (h : gmap ptr VaccineLot) (arr : list ptr) :
  ∃ arr',
    quickSort (compare_ptr h) arr 0 (Z.of_nat (length arr) - 1) = arr'
    ∧ arr' ≡ₚ arr
    ∧ (Forall (λ p, date_ok (validation (h !!! p))) arr →
       StronglySorted (λ p q, batch_le (h !!! p) (h !!! q)) arr').
Proof.
  destruct (quickSort_spec (compare_ptr h)
              (λ p, date_ok (validation (h !!! p)))) with (arr := arr)
    as (arr' & Heq & Hperm & Hs).
  - intros a b c Ha Hb Hc. by apply compareVaccines_trans.
  - intros a b Ha Hb Hgt. unfold compare_ptr in *.
    rewrite (compareVaccines_antisym (h !!! a)) by done. lia.
  - exists arr'. split_and!; [done..|]. intros Hok.
    eapply StronglySorted_impl_elem; [|by apply Hs].
    intros x y Hx Hy Hle. rewrite <- Hperm in Hok. rewrite Forall_forall in Hok.
    apply compareVaccines_le; [by apply Hok..|done].
Qed.

(** C5: the full listing prints one line per live lot and nothing else, each
    line made of the name, the id, the expiry date, the doses left
    ([doses - dosesUsed]) and the doses used, in the order of (expiry date,
    id). *)
Theorem C5_list_all_batches (s : State) (hashSize : Z) :
  wf hashSize s → wf_range s →
  ∃ L : list ptr,
    listAllVaccines (heap s) (vaccineList s)
    = (λ p, batch_line (heap s !!! p)) <$> L
    ∧ NoDup L
    ∧ (∀ p, p ∈ L ↔ live s hashSize p)
    ∧ StronglySorted (λ p q, batch_le (heap s !!! p) (heap s !!! q)) L.
Proof.
  intros Hwf Hrange.
  assert (∀ p, p ∈ vaccineList s ↔ live s hashSize p) as Hlive.
  { intros p. unfold live. split.
    - intros Hp. exists (id_of (heap s) p). by apply (findVaccineByBatch_spec Hwf).
    - intros [b [Hp _]%(findVaccineByBatch_spec Hwf)]. done. }
  assert (NoDup (vaccineList s)) as Hnd.
  { eapply NoDup_fmap_1. apply (wf_ids _ _ _ _ _ _ Hwf). }
  destruct (quickSort_compare_ptr (heap s) (vaccineList s))
    as (L & Heq & Hperm & Hs).
  assert (∀ p, p ∈ L → lot_ok (heap s !!! p)) as Hok.
  { intros p Hp. rewrite Hperm in Hp. by apply (wf_range_lot s hashSize). }
  exists L. split_and!.
  - unfold listAllVaccines.
    destruct (Z.eqb_spec (Z.of_nat (length (vaccineList s))) 0) as [Hz|Hnz].
    + destruct (vaccineList s); [|simpl in Hz; lia].
      apply Permutation_nil_r in Hperm. by subst L.
    + rewrite Heq. unfold printAllVaccines. apply list_fmap_ext.
      intros i p Hp. apply printVaccine_batch_line, Hok.
      by eapply list_elem_of_lookup_2.
  - by rewrite Hperm.
  - intros p. by rewrite Hperm.
  - apply Hs. apply Forall_forall. intros p Hp.
    by apply (wf_range_lot s hashSize).
Qed.

Lemma wf_range_twelve_lots : wf_range twelve_lots.
Proof. apply (bool_decide_unpack (wf_range twelve_lots)). vm_compute. exact I. Qed.

Lemma C5_list_all_batches_witness :
  ∃ L : list ptr,
    listAllVaccines (heap twelve_lots) (vaccineList twelve_lots)
    = (λ p, batch_line (heap twelve_lots !!! p)) <$> L
    ∧ NoDup L
    ∧ (∀ p, p ∈ L ↔ live twelve_lots HASH_SIZE p)
    ∧ StronglySorted
        (λ p q, batch_le (heap twelve_lots !!! p) (heap twelve_lots !!! q)) L.
Proof.
  apply (C5_list_all_batches twelve_lots HASH_SIZE).
  - apply processCommands_wf, wf_initial.
  - exact wf_range_twelve_lots.
Defined.

Example twelve_lots_listing :
  listAllVaccines (heap twelve_lots) (vaccineList twelve_lots)
  = ["VaxY 5 01-01-2025 2 0"; "VaxX FF 01-01-2025 0 1"; "VaxY 0F 15-02-2025 7 0";
     "VaxX 3D 01-03-2025 4 0"; "VaxX A1 01-03-2025 5 0"; "VaxY C3 01-03-2025 5 0";
     "VaxX B2 01-06-2025 10 0"; "VaxY E0 01-06-2025 8 0"; "VaxX AA 02-06-2025 6 0";
     "VaxY 9 10-10-2025 3 0"; "VaxY 07 31-12-2025 9 0"; "VaxX 1A 28-02-2026 2 0"].
Proof. vm_compute. reflexivity. Qed.

Lemma later_wf hashSize s s2 : wf hashSize s → later hashSize s s2 → wf hashSize s2.
Proof. intros Hwf. induction 1; [done|by apply handleCommand_wf]. Qed.

Lemma listAllVaccines_lines h vl line :
  line ∈ listAllVaccines h vl ↔ ∃ q, q ∈ vl ∧ line = printVaccine (h !!! q).
Proof.
  unfold listAllVaccines.
  destruct (Z.eqb_spec (Z.of_nat (length vl)) 0) as [Hz|Hnz].
  - destruct vl; [|simpl in Hz; lia]. split; [by intros ?%elem_of_nil|].
    by intros (q & ?%elem_of_nil & _).
  - destruct (quickSort_spec (compare_ptr h) (λ _, False)) with (arr := vl)
      as (arr' & -> & Hperm & _); [done..|].
    unfold printAllVaccines. rewrite list_elem_of_fmap.
    split; intros (q & Hq1 & Hq2); exists q.
    + by rewrite <- Hperm.
    + by rewrite Hperm.
Qed.

Lemma listVaccinesByName_lines s v hashSize portuguese line :
  line ∈ listVaccinesByName s v hashSize portuguese ↔
  ([line] = handleVaccineNotFound v portuguese ∧ group s v hashSize = [])
  ∨ ∃ q, q ∈ group s v hashSize ∧ line = printVaccine (heap s !!! q).
Proof.
  unfold listVaccinesByName, group.
  destruct (findVaccineByName _ _ _) as [e|].
  - unfold printVaccineLots. destruct (lots e) as [|a l] eqn:Hl.
    + unfold handleVaccineNotFound. rewrite list_elem_of_singleton. split.
      * intros ->. by left.
      * intros [[[= ->] _]|(q & ?%elem_of_nil & _)]; done.
    + rewrite list_elem_of_fmap. split.
      * intros (q & -> & Hq). right. eauto.
      * intros [[_ ?]|(q & Hq & ->)]; [done|eauto].
  - unfold handleVaccineNotFound. rewrite list_elem_of_singleton. split.
    + intros ->. by left.
    + intros [[[= ->] _]|(q & ?%elem_of_nil & _)]; done.
Qed.

Lemma freeze_frozen (vl : VaccineLot) :
  isRemoved vl = true → doses vl = dosesUsed vl → freeze vl = vl.
Proof. destruct vl; simpl; intros -> ->; done. Qed.

(** A frozen lot with used doses is left alone by every command. *)
Lemma frozen_step hashSize s p vl cmd args maxVaccines portuguese :
  wf hashSize s → heap s !! p = Some vl → p ∈ vaccineList s →
  isRemoved vl = true → doses vl = dosesUsed vl → dosesUsed vl ≠ 0 →
  let s' := (handleCommand cmd args s hashSize maxVaccines portuguese).1 in
  heap s' !! p = Some vl ∧ p ∈ vaccineList s'.
Proof.
  intros Hwf Hp Hin Hrem Hdoses Hused.
  assert (heap s !!! p = vl) as Hpt by by apply lookup_total_correct.
  unfold handleCommand.
  destruct (Ascii.eqb cmd "c").
  { unfold commandC. destruct (parseArgumentsC args) as [[[[b val] d] nm]|]; [|done].
    destruct (validateNewVaccine _ _ _ _ _ _); [done|].
    unfold addNewVaccineToSystem. destruct (_ >=? _); [done|].
    case_bool_decide; [done|]. simpl. split; [|by right].
    rewrite lookup_insert_ne; [done|]. intros <-.
    assert (next_lot s < next_lot s)%nat; [|lia].
    eapply (wf_fresh _ _ _ _ _ _ Hwf). by eexists. }
  destruct (Ascii.eqb cmd "l"); [done|].
  destruct (Ascii.eqb cmd "t").
  { unfold commandT. destruct args; [done|]. destruct (sscanf_date _); [|done].
    destruct (negb _); [done|]. by destruct (_ >? 0). }
  destruct (Ascii.eqb cmd "a").
  { unfold commandA. destruct (extractArguments args) as [[u v]|]; [|done].
    unfold processVaccineApplication. destruct (isAlreadyVaccinated _ _ _ _ _); [done|].
    destruct (findOldestValidLot _ _ _ _) as [q|] eqn:Hq; [|done].
    apply findOldestValidLot_elem in Hq as [_ Hq]. simpl. split; [|done].
    rewrite lookup_insert_ne; [done|]. intros ->.
    rewrite Hpt in Hq. unfold isLotValidAndAvailable in Hq. by rewrite Hrem in Hq. }
  destruct (Ascii.eqb cmd "u"); [done|].
  destruct (Ascii.eqb cmd "r").
  { unfold commandR. destruct args as [|c a]; [done|].
    destruct (findVaccineByBatch _ _ _ _) as [q|] eqn:Hq; [|done].
    destruct (Z.eqb_spec (dosesUsed (heap s !!! q)) 0) as [Hz|Hnz]; simpl.
    - assert (q ≠ p) as Hne by (intros ->; rewrite Hpt in Hz; done).
      unfold handleUnusedVaccineLot. rewrite Hq.
      unfold removeVaccineFromHash. rewrite hashBatch_hashString.
      unfold findVaccineByBatch in Hq. rewrite Hq. simpl.
      fold (findVaccineByBatch (heap s) (hashTable s) (String c a) hashSize) in Hq.
      apply (findVaccineByBatch_spec Hwf) in Hq as [Hqin <-].
      split; [by rewrite lookup_delete_ne|].
      apply removeVaccineFromList_elem; [apply Hwf|done|]. split; [done|]. congruence.
    - unfold handleUsedVaccineLot. simpl. split; [|done].
      destruct (decide (q = p)) as [->|Hne].
      + rewrite lookup_insert_eq, Hpt. by rewrite freeze_frozen.
      + by rewrite lookup_insert_ne. }
  destruct (Ascii.eqb cmd "d"); [|done].
  destruct (commandD_lots args s hashSize (currentDate s) portuguese)
    as (-> & _ & _ & -> & _). done.
Qed.

Lemma frozen_later hashSize s s2 p vl :
  wf hashSize s → heap s !! p = Some vl → p ∈ vaccineList s →
  isRemoved vl = true → doses vl = dosesUsed vl → dosesUsed vl ≠ 0 →
  later hashSize s s2 → heap s2 !! p = Some vl ∧ p ∈ vaccineList s2.
Proof.
  intros Hwf Hp Hin Hrem Hdoses Hused. induction 1 as [|s1 ? ? ? ? Hl [IH1 IH2]]; [done|].
  apply frozen_step; [by eapply later_wf|done..].
Qed.

(** A group holds the listed lots of its name. *)
Lemma group_spec hashSize s v q :
  wf hashSize s →
  q ∈ group s v hashSize ↔ q ∈ vaccineList s ∧ name_of (heap s) q = v.
Proof.
  intros Hwf. split; [by apply group_listed|].
  intros [Hq <-]. destruct (wf_lot_in_group Hwf q Hq) as (e & He & Hqe).
  unfold group. by rewrite He.
Qed.

(** What [handleUnusedVaccineLot] does to the store and to the global list
    when the id is found. *)
Lemma handleUnusedVaccineLot_found hashSize s batch p :
  wf hashSize s →
  findVaccineByBatch (heap s) (hashTable s) batch hashSize = Some p →
  let s1 := handleUnusedVaccineLot batch s hashSize in
  heap s1 = delete p (heap s)
  ∧ (∀ q, q ∈ vaccineList s1 ↔ q ∈ vaccineList s ∧ q ≠ p)
  ∧ userHashTable s1 = userHashTable s
  ∧ inoculationList s1 = inoculationList s
  ∧ vaccineCount s1 = vaccineCount s
  ∧ currentDate s1 = currentDate s.
Proof.
  intros Hwf Hf. pose proof Hf as [Hp Hid]%(findVaccineByBatch_spec Hwf).
  unfold handleUnusedVaccineLot. rewrite Hf.
  unfold removeVaccineFromHash. rewrite hashBatch_hashString.
  unfold findVaccineByBatch in Hf. rewrite Hf. simpl.
  split_and!; try done. intros q. rewrite <- Hid.
  apply removeVaccineFromList_elem; [apply Hwf|done].
Qed.

(** With no dose used, command R purges the lot and keeps the others. *)
Lemma handleUnusedVaccineLot_purges hashSize s batch p :
  wf hashSize s →
  findVaccineByBatch (heap s) (hashTable s) batch hashSize = Some p →
  purged hashSize p batch (handleUnusedVaccineLot batch s hashSize)
  ∧ others_kept hashSize p s (handleUnusedVaccineLot batch s hashSize).
Proof.
  intros Hwf Hf. pose proof Hf as [Hp Hid]%(findVaccineByBatch_spec Hwf).
  assert (wf hashSize (handleUnusedVaccineLot batch s hashSize)) as Hwf1
    by by apply handleUnusedVaccineLot_wf.
  destruct (handleUnusedVaccineLot_found hashSize s batch p Hwf Hf)
    as (Hh & Hvl & Hu & Hi & Hc & Hd).
  set (s1 := handleUnusedVaccineLot batch s hashSize) in *.
  assert (∀ q, q ≠ p → id_of (heap s1) q = id_of (heap s) q) as Hids.
  { intros q Hq. rewrite Hh. by apply id_of_delete. }
  assert (∀ q, q ≠ p → name_of (heap s1) q = name_of (heap s) q) as Hnames.
  { intros q Hq. rewrite Hh. by apply name_of_delete. }
  assert (∀ q, q ∈ vaccineList s1 →
            q ≠ p ∧ ∃ vl, heap s1 !! q = Some vl ∧ heap s1 !!! q = vl
                          ∧ lot vl ≠ batch) as Hlisted.
  { intros q Hq. pose proof Hq as [Hq0 Hne]%Hvl. split; [done|].
    destruct (wf_alloc _ _ _ _ _ _ Hwf1 q Hq) as [vl Hq1]. exists vl.
    assert (heap s1 !!! q = vl) as Hqt by by apply lookup_total_correct.
    split_and!; [done..|]. intros Hl. apply Hne.
    apply (wf_id_inj Hwf); [done..|].
    rewrite <- (Hids q Hne), Hid. unfold id_of. by rewrite Hqt. }
  split.
  - unfold purged. split_and!.
    + apply (findVaccineByBatch_None Hwf1). intros q Hq.
      destruct (Hlisted q Hq) as (_ & vl & _ & Hqt & Hl).
      unfold id_of. by rewrite Hqt.
    + rewrite Hh. apply lookup_delete_eq.
    + intros [_ ?]%Hvl. done.
    + intros i [[_ ?]%Hvl _]%(wf_hash _ _ _ _ _ _ Hwf1). done.
    + intros i e He Hpe.
      destruct (wf_group _ _ _ _ _ _ Hwf1 _ _ He) as (_ & _ & Hl).
      destruct (Hl p Hpe) as [[_ ?]%Hvl _]. done.
    + intros line (q & Hq & ->)%listAllVaccines_lines.
      destruct (Hlisted q Hq) as (Hne & vl & Hq1 & Hqt & Hl).
      exists q, vl. by rewrite Hqt.
    + intros v pt line [?|(q & Hq & ->)]%listVaccinesByName_lines; [by left|].
      right. destruct (group_listed hashSize s1 v q Hwf1 Hq) as [Hq' _].
      destruct (Hlisted q Hq') as (Hne & vl & Hq1 & Hqt & Hl).
      exists q, vl. by rewrite Hqt.
  - unfold others_kept. split_and!; try done. intros q Hne. split_and!.
    + rewrite Hh. by apply lookup_delete_ne.
    + rewrite Hvl. tauto.
    + intros i. rewrite (wf_hash _ _ _ _ _ _ Hwf1), (wf_hash _ _ _ _ _ _ Hwf).
      rewrite Hvl, (Hids q Hne). tauto.
    + intros v. rewrite (group_spec hashSize s1 v q Hwf1).
      rewrite (group_spec hashSize s v q Hwf), Hvl, (Hnames q Hne). tauto.
Qed.

(** With doses used, command R freezes the lot for good. *)
Lemma handleUsedVaccineLot_freezes hashSize s batch p s2 :
  wf hashSize s →
  findVaccineByBatch (heap s) (hashTable s) batch hashSize = Some p →
  dosesUsed (heap s !!! p) ≠ 0 →
  later hashSize (handleUsedVaccineLot p s) s2 →
  frozen_in hashSize p batch (dosesUsed (heap s !!! p)) s2.
Proof.
  intros Hwf Hf Hused Hlater.
  pose proof Hf as [Hp Hid]%(findVaccineByBatch_spec Hwf).
  destruct (wf_alloc _ _ _ _ _ _ Hwf p Hp) as [vl Hvl].
  assert (heap s !!! p = vl) as Hpt by by apply lookup_total_correct.
  rewrite Hpt in *.
  assert (wf hashSize (handleUsedVaccineLot p s)) as Hwf1
    by by apply handleUsedVaccineLot_wf.
  destruct (frozen_later hashSize (handleUsedVaccineLot p s) s2 p (freeze vl))
    as [Hh2 Hin2]; [done| |done|done|done|done|done|].
  { unfold handleUsedVaccineLot. simpl. by rewrite lookup_insert_eq, Hpt. }
  pose proof (later_wf _ _ _ Hwf1 Hlater) as Hwf2.
  assert (heap s2 !!! p = freeze vl) as Hpt2 by by apply lookup_total_correct.
  unfold frozen_in. rewrite Hpt2. simpl. split_and!; try done.
  + apply (findVaccineByBatch_spec Hwf2). split; [done|].
    unfold id_of. rewrite Hpt2. simpl. unfold id_of in Hid. by rewrite Hpt in Hid.
  + lia.
  + apply listAllVaccines_lines. exists p. by rewrite Hpt2.
  + intros pt. apply listVaccinesByName_lines. right. exists p.
    rewrite Hpt2. split; [|done].
    destruct (wf_lot_in_group Hwf2 p Hin2) as (e & He & Hpe).
    unfold group. unfold name_of in He. rewrite Hpt2 in He. simpl in He.
    by rewrite He.
  + intros v cur [_ Hq]%findOldestValidLot_elem. by rewrite Hpt2 in Hq.
Qed.




(** The two cases of the witness, evaluated: the used lot is found and has
    one dose used; the unused one is found with none, and after command R
    the listings print the other lot only. *)
Example retire_cases :
  findVaccineByBatch (heap one_dose) (hashTable one_dose) "A1F" HASH_SIZE = Some 0%nat
  ∧ dosesUsed (heap one_dose !!! 0%nat) = 1
  ∧ findVaccineByBatch (heap two_lots) (hashTable two_lots) "B2" HASH_SIZE = Some 0%nat
  ∧ dosesUsed (heap two_lots !!! 0%nat) = 0
  ∧ (processCommands ["c B2 01-06-2025 10 VaxX"; "c A1 01-03-2025 5 VaxX"; "r B2";
                      "l"; "l VaxX"; "r B2"] initialState false).2
    = ["B2"; "A1"; "0"; "VaxX A1 01-03-2025 5 0"; "VaxX A1 01-03-2025 5 0";
       "B2: no such batch"].
Proof. split_and!; vm_compute; reflexivity. Qed.

(** The scenario of the specification, to its end. *)
Example scenario_retire :
  (processCommands
     ["c A1F 01-06-2025 10 VaxX"; "a Alice VaxX"; "a Alice VaxX"; "r A1F"; "l";
      "a Bob VaxX"; "r 0B"; "c 0B 01-06-2025 3 VaxX"; "r 0B"; "l"] initialState false).2
  = ["A1F"; "A1F"; "already vaccinated"; "1"; "VaxX A1F 01-06-2025 0 1";
     "no stock"; "0B: no such batch"; "0B"; "0"; "VaxX A1F 01-06-2025 0 1"].
Proof. vm_compute. reflexivity. Qed.

Lemma full_registry_facts :
  vaccineCount full_registry = 1000
  ∧ parseArgumentsC "7 01-01-2026 10 VaxX" = Some ("7", mkDate 1 1 2026, 10, "VaxX")
  ∧ validateNewVaccine "7" (mkDate 1 1 2026) 10 "VaxX"
      (currentDate full_registry) false = None
  ∧ id_of (heap full_registry) <$>
      findVaccineByBatch (heap full_registry) (hashTable full_registry) "7" HASH_SIZE
    = Some "7"
  ∧ (commandC "7 01-01-2026 10 VaxX" full_registry HASH_SIZE MAX_VACCINES false).2
    = ["too many vaccines"].
Proof. split_and!; vm_compute; reflexivity. Qed.

(** C6, as stated, fails: with a thousand lots registered, registering the id
    of one of them again with well-formed arguments reports the capacity
    error, not the duplicate-id error. *)
Lemma C6_counterexample :
  parseArgumentsC "7 01-01-2026 10 VaxX" = Some ("7", mkDate 1 1 2026, 10, "VaxX")
  ∧ validateNewVaccine "7" (mkDate 1 1 2026) 10 "VaxX"
      (currentDate full_registry) false = None
  ∧ is_Some (findVaccineByBatch (heap full_registry) (hashTable full_registry)
               "7" HASH_SIZE)
  ∧ vaccineCount full_registry >= MAX_VACCINES
  ∧ (commandC "7 01-01-2026 10 VaxX" full_registry HASH_SIZE MAX_VACCINES false).2
    ≠ ["duplicate batch number"].
Proof.
  destruct full_registry_facts as (H1 & H2 & H3 & H4 & H5). split_and!.
  - exact H2.
  - exact H3.
  - destruct (findVaccineByBatch _ _ _ _); [by eexists|discriminate H4].
  - rewrite H1. discriminate.
  - rewrite H5. discriminate.
Qed.

(** C6 (amended): for a call with well-formed arguments, the capacity check
    comes first: when the count has reached the cap the error is the
    capacity error, whether or not the id is registered; the duplicate-id
    error is reported only below the cap. *)
Theorem C6_capacity_before_duplicate (s : State) (args batch nm : string)
    (validation : Date) (d hashSize maxVaccines : Z) (portuguese : bool) :
  parseArgumentsC args = Some (batch, validation, d, nm) →
  validateNewVaccine batch validation d nm (currentDate s) portuguese = None →
  (vaccineCount s >= maxVaccines →
   commandC args s hashSize maxVaccines portuguese
   = (s, [msg portuguese "demasiadas vacinas" "too many vaccines"]))
  ∧ (vaccineCount s < maxVaccines →
     is_Some (findVaccineByBatch (heap s) (hashTable s) batch hashSize) →
     commandC args s hashSize maxVaccines portuguese
     = (s, [msg portuguese "número de lote duplicado" "duplicate batch number"])).
Proof.
  intros Hparse Hval. unfold commandC. rewrite Hparse, Hval.
  unfold addNewVaccineToSystem. split.
  - intros Hcap. by rewrite (proj2 (Z.geb_le _ _)) by lia.
  - intros Hcap Hdup. destruct (_ >=? _) eqn:E; [apply Z.geb_le in E; lia|].
    by rewrite bool_decide_eq_true_2.
Qed.

Lemma C6_capacity_before_duplicate_witness :
  commandC "7 01-01-2026 10 VaxX" full_registry HASH_SIZE MAX_VACCINES false
  = (full_registry, ["too many vaccines"]).
Proof.
  refine (proj1 (C6_capacity_before_duplicate full_registry "7 01-01-2026 10 VaxX"
                   "7" "VaxX" (mkDate 1 1 2026) 10 HASH_SIZE MAX_VACCINES false _ _) _).
  - vm_compute. reflexivity.
  - vm_compute. reflexivity.
  - vm_compute. discriminate.
Defined.

(** ** Validation order of command D *)

(** C7, as stated, fails: for an unknown user and an invalid date the line
    printed is the date error. *)
Lemma C7_counterexample :
  findUserByName (userHashTable initialState) "Bob" HASH_SIZE = None
  ∧ commandD "Bob 32-01-2025" initialState HASH_SIZE (currentDate initialState) false
    = (initialState, ["invalid date"])
  ∧ (commandD "Bob 32-01-2025" initialState HASH_SIZE (currentDate initialState) false).2
    ≠ ["Bob: no such user"].
Proof. split_and!; vm_compute; (reflexivity || discriminate). Qed.

(** C7 (amended): the date filter is validated first, while the arguments are
    parsed: a date token (shorter than the 32-byte buffer) that does not
    scan, is not a calendar date or is later than the clock yields the date
    error whoever the user is.  Once the arguments are accepted, the user is
    checked before the batch filter. *)
Theorem C7_date_then_user_then_batch (s : State) (args : string)
    (hashSize : Z) (cur : Date) (portuguese : bool) :
  (∀ u rest tok rest1,
     parseUserName args = Some (u, rest) →
     skipWhitespace rest ≠ "" →
     span_nonspace (skipWhitespace rest) = (tok, rest1) →
     strlen tok < 32 →
     (∀ d, sscanf_date tok = Some d →
           isDateFormatValid d = false ∨ isDateFuture d cur = true) →
     commandD args s hashSize cur portuguese
     = (s, [msg portuguese "data inválida" "invalid date"]))
  ∧ (∀ da,
       processDeleteArgs args cur portuguese = (Some da, []) →
       (∀ e, findUserByName (userHashTable s) (da_userName da) hashSize = Some e →
             inoculations e = []) →
       commandD args s hashSize cur portuguese
       = (s, [da_userName da
              +:+ msg portuguese ": utente inexistente" ": no such user"])).
Proof.
  split.
  - intros u rest tok rest1 Hu Hrest Hspan Hlen Hbad.
    unfold commandD, processDeleteArgs. rewrite Hu.
    destruct (skipWhitespace rest) as [|c r] eqn:Hr; [done|].
    unfold extractDateString. rewrite Hspan.
    destruct (strlen tok >=? 32) eqn:E; [apply Z.geb_le in E; lia|].
    unfold parseDateString. destruct (sscanf_date tok) as [d|]; [|done].
    destruct (Hbad d eq_refl) as [-> | ->]; [done|].
    by rewrite orb_true_r.
  - intros da Hargs Huser. unfold commandD. rewrite Hargs. unfold validateUser.
    destruct (findUserByName _ _ _) as [e|] eqn:He; [|done].
    by rewrite (Huser e eq_refl).
Qed.

Lemma C7_date_then_user_then_batch_witness :
  commandD "Bob 32-01-2025" initialState HASH_SIZE (mkDate 1 1 2025) false
  = (initialState, ["invalid date"]).
Proof.
  refine (proj1 (C7_date_then_user_then_batch initialState "Bob 32-01-2025"
            HASH_SIZE (mkDate 1 1 2025) false) "Bob" "32-01-2025" "32-01-2025" ""
            _ _ _ _ _).
  - vm_compute. reflexivity.
  - vm_compute. discriminate.
  - vm_compute. reflexivity.
  - vm_compute. reflexivity.
  - intros d Hd. left. vm_compute in Hd. injection Hd as <-. vm_compute. reflexivity.
Defined.

Lemma string_app_cons (x : ascii) (a b : string) :
  String x a +:+ b = String x (a +:+ b).
Proof. done. Qed.

Lemma string_app_nil (b : string) : "" +:+ b = b.
Proof. done. Qed.

Lemma string_app_assoc (a b c : string) : (a +:+ b) +:+ c = a +:+ (b +:+ c).
Proof.
  induction a as [|x a IH]; [done|]. rewrite !string_app_cons. by f_equal.
Qed.

Lemma is_delim_space (c : ascii) : is_delim " " c = Ascii.eqb c " ".
Proof. unfold is_delim. simpl. by rewrite orb_false_r. Qed.

Lemma words_skip_delims (s : string) :
  words (skip_delims " " s) = words s ∧ ∃ pre, s = pre +:+ skip_delims " " s.
Proof.
  induction s as [|c r [IH1 [pre IH2]]]; [by split; [|exists ""]|].
  cbn [skip_delims]. rewrite is_delim_space.
  destruct (Ascii.eqb c " ") eqn:Hc.
  - split; [by cbn [words]; rewrite Hc|]. exists (String c pre).
    rewrite string_app_cons. by rewrite <- IH2.
  - split; [done|by exists ""].
Qed.

Lemma span_token_cons (d : string) (x : ascii) (r : string) :
  span_token d (String x r)
  = if is_delim d x then ("", String x r)
    else let '(tok, rest) := span_token d r in (String x tok, rest).
Proof. done. Qed.

Lemma words_cons (c : ascii) (r : string) :
  words (String c r)
  = if Ascii.eqb c " " then words r
    else match r with
         | EmptyString => [String c EmptyString]
         | String c' _ =>
             if Ascii.eqb c' " " then String c EmptyString :: words r
             else match words r with
                  | w :: ws => String c w :: ws
                  | [] => [String c EmptyString]
                  end
         end.
Proof. done. Qed.

Lemma words_span_token (c : ascii) (r : string) :
  Ascii.eqb c " " = false →
  ∃ tok rest, span_token " " (String c r) = (tok, rest)
    ∧ words (String c r) = tok :: words rest
    ∧ (rest = "" ∨ ∃ r', rest = String " " r')
    ∧ String c r = tok +:+ rest.
Proof.
  revert c. induction r as [|c' r IH]; intros c Hc.
  - exists (String c ""), "". rewrite span_token_cons, is_delim_space, Hc.
    split; [done|]. rewrite words_cons, Hc. auto.
  - rewrite span_token_cons, is_delim_space, Hc.
    destruct (Ascii.eqb c' " ") eqn:Hc'.
    + exists (String c ""), (String c' r).
      rewrite span_token_cons, is_delim_space, Hc'. split; [done|]. split.
      * by rewrite words_cons, Hc, Hc'.
      * split; [|done]. right. exists r. f_equal. by apply Ascii.eqb_eq.
    + destruct (IH c' Hc') as (tok & rest & Hs & Hw & Hr & Happ).
      exists (String c tok), rest. rewrite Hs. split; [done|]. split; [|split].
      * by rewrite words_cons, Hc, Hc', Hw.
      * done.
      * rewrite string_app_cons. by rewrite <- Happ.
Qed.

Lemma words_strtok_r (s : string) :
  match strtok_r s " " with
  | None => words s = []
  | Some (tok, rest) =>
      words s = tok :: words rest
      ∧ (rest = "" ∨ ∃ pre, s = pre +:+ " " +:+ rest)
  end.
Proof.
  destruct (words_skip_delims s) as [Hw [pre Hpre]].
  unfold strtok_r. destruct s as [|c0 r0]; [done|].
  destruct (skip_delims " " (String c0 r0)) as [|c r] eqn:Hskip.
  - by rewrite <- Hw.
  - assert (Ascii.eqb c " " = false) as Hc.
    { clear -Hskip. revert Hskip. generalize (String c0 r0). intros s.
      induction s as [|x s IH]; cbn [skip_delims]; [done|].
      rewrite is_delim_space. destruct (Ascii.eqb x " ") eqn:Hx; [done|].
      by intros [= -> ->]. }
    destruct (words_span_token c r Hc) as (tok & rest & -> & Hwr & Hrest & Happ).
    rewrite <- Hw, Hwr. destruct Hrest as [-> | [r' ->]]; [by auto|].
    split; [done|]. right. exists (pre +:+ tok).
    rewrite Hpre, Happ. by rewrite !string_app_assoc.
Qed.

Lemma ends_with_two_blanks_cons (c : ascii) (r : string) :
  (2 <= String.length r)%nat →
  ends_with_two_blanks (String c r) = ends_with_two_blanks r.
Proof.
  destruct r as [|c' [|c'' r]]; simpl; intros; (lia || done).
Qed.

Lemma ends_with_two_blanks_app (pre s : string) :
  (2 <= String.length s)%nat →
  ends_with_two_blanks (pre +:+ s) = ends_with_two_blanks s.
Proof.
  intros Hs. induction pre as [|x pre IH]; [done|].
  rewrite string_app_cons, ends_with_two_blanks_cons; [done|].
  clear IH. induction pre as [|y pre IH]; [done|].
  rewrite string_app_cons. simpl. lia.
Qed.

Lemma blank_ends_with_two_blanks (s : string) :
  words s = [] → (2 <= String.length s)%nat → ends_with_two_blanks s = true.
Proof.
  induction s as [|c r IH]; [simpl; lia|].
  intros Hw Hlen.
  assert (c = " "%char ∧ words r = []) as [-> Hr].
  { rewrite words_cons in Hw. destruct (Ascii.eqb c " ") eqn:Hc.
    - split; [by apply Ascii.eqb_eq|done].
    - destruct r as [|c' r']; [done|]. destruct (Ascii.eqb c' " "); [done|].
      by destruct (words (String c' r')). }
  destruct r as [|c2 r2]; [simpl in Hlen; lia|].
  destruct r2 as [|c3 r3].
  - rewrite words_cons in Hr. simpl.
    destruct (Ascii.eqb c2 " ") eqn:Hc; done.
  - rewrite ends_with_two_blanks_cons by (simpl; lia). apply IH; [done|simpl; lia].
Qed.

Lemma ends_with_two_blanks_snoc (pre : string) (c : ascii) :
  Ascii.eqb c " " = false → ends_with_two_blanks (pre +:+ String c "") = false.
Proof.
  intros Hc. induction pre as [|x pre IH]; [done|].
  rewrite string_app_cons. destruct pre as [|y pre].
  - rewrite string_app_nil. cbn [ends_with_two_blanks]. rewrite Hc.
    apply andb_false_r.
  - rewrite ends_with_two_blanks_cons; [done|].
    rewrite string_app_cons. cbn [String.length].
    assert (1 <= String.length (pre +:+ String c ""))%nat; [|lia].
    clear. induction pre; simpl; lia.
Qed.

(** The token taken by [span_token] ends right before what is left. *)
Lemma span_token_last (c : ascii) (r tok rest : string) :
  Ascii.eqb c " " = false →
  span_token " " (String c r) = (tok, rest) →
  ∃ pre c', Ascii.eqb c' " " = false ∧ String c r = pre +:+ String c' rest.
Proof.
  revert c tok. induction r as [|c2 r2 IH]; intros c tok Hc.
  - rewrite span_token_cons, is_delim_space, Hc. cbn [span_token].
    intros [= <- <-]. by exists "", c.
  - rewrite span_token_cons, is_delim_space, Hc.
    destruct (Ascii.eqb c2 " ") eqn:Hc2.
    + rewrite span_token_cons, is_delim_space, Hc2. intros [= <- <-].
      by exists "", c.
    + destruct (span_token " " (String c2 r2)) as [tok2 rest2] eqn:Hs.
      intros [= <- <-].
      destruct (IH c2 tok2 Hc2 Hs) as (pre & c' & Hc' & Heq).
      exists (String c pre), c'. split; [done|].
      rewrite string_app_cons. by rewrite <- Heq.
Qed.

Lemma skip_delims_nonblank (s : string) (c : ascii) (r : string) :
  skip_delims " " s = String c r → Ascii.eqb c " " = false.
Proof.
  induction s as [|x s IH]; cbn [skip_delims]; [done|].
  rewrite is_delim_space. destruct (Ascii.eqb x " ") eqn:Hx; [done|].
  by intros [= -> ->].
Qed.

(** When [strtok_r] leaves nothing after the token, the line ends with the
    token or with the one delimiter after it. *)
Lemma strtok_r_nothing_left (s tok pre : string) :
  strtok_r s " " = Some (tok, "") → ends_with_two_blanks (pre +:+ s) = false.
Proof.
  destruct (words_skip_delims s) as [_ [pre0 Hpre0]].
  unfold strtok_r. destruct s as [|c0 r0]; [done|].
  destruct (skip_delims " " (String c0 r0)) as [|c r] eqn:Hskip; [done|].
  pose proof (skip_delims_nonblank _ _ _ Hskip) as Hc.
  destruct (span_token " " (String c r)) as [tok1 rest1] eqn:Hs.
  destruct (span_token_last c r tok1 rest1 Hc Hs) as (pre1 & c' & Hc' & Heq).
  rewrite Hpre0, Heq.
  assert (pre +:+ pre0 +:+ pre1 +:+ String c' rest1
          = (pre +:+ pre0 +:+ pre1) +:+ String c' rest1) as ->
    by by rewrite !string_app_assoc.
  destruct rest1 as [|d rest1].
  - intros _. by apply ends_with_two_blanks_snoc.
  - intros [= _ ->]. rewrite ends_with_two_blanks_app by (simpl; lia).
    cbn [ends_with_two_blanks]. by rewrite Hc'.
Qed.

Lemma strtok_r_Some_nonempty (s tok rest : string) :
  strtok_r s " " = Some (tok, rest) → s ≠ "".
Proof. by destruct s. Qed.

(** A name made of blanks is not valid. *)
Lemma isValidName_blank (s : string) :
  words s = [] → s ≠ "" → isValidName s = false.
Proof.
  intros Hw Hs. destruct s as [|c r]; [done|].
  assert (c = " "%char) as ->.
  { rewrite words_cons in Hw. destruct (Ascii.eqb c " ") eqn:Hc.
    - by apply Ascii.eqb_eq.
    - destruct r as [|c' r']; [done|]. destruct (Ascii.eqb c' " "); [done|].
      by destruct (words (String c' r')). }
  unfold isValidName. by destruct (50 <? _).
Qed.

(** C10, as stated, fails: on three fields followed by two blanks the name
    is missing, and the line printed is a validation error. *)
Lemma C10_counterexample :
  words "A1F 01-06-2025 10  " = ["A1F"; "01-06-2025"; "10"]
  ∧ commandC "A1F 01-06-2025 10  " initialState HASH_SIZE MAX_VACCINES false
    = (initialState, ["invalid name"])
  ∧ (commandC "A1F 01-06-2025 10  " initialState HASH_SIZE MAX_VACCINES false).2
    ≠ ["No memory"]
  ∧ (processCommands ["c A1F 01-06-2025 10  "; "c a1f 01-06-2025 10   "]
       initialState true).2
    = ["nome inválido"; "lote inválido"].
Proof. split_and!; vm_compute; (reflexivity || discriminate). Qed.

(** C10 (amended): command C on an incomplete argument line prints one line
    and changes nothing.  The line is the out-of-memory message, in the
    selected language, unless the line has three fields followed by two
    blanks or more and its second field scans as a date: the blanks are then
    taken for the name, and the line is "invalid batch" when the first field
    is not a valid id and "invalid name" when it is. *)
Theorem C10_incomplete_register (s : State) (args : string)
    (hashSize maxVaccines : Z) (portuguese : bool) :
  incomplete args →
  commandC args s hashSize maxVaccines portuguese
  = (s, [match words args with
         | [batch; token2; _] =>
             if bool_decide (is_Some (parseValidationDate token2))
                && ends_with_two_blanks args
             then if isValidBatch batch
                  then (if portuguese then "nome inválido" else "invalid name")
                  else (if portuguese then "lote inválido" else "invalid batch")
             else (if portuguese then "sem memória" else "No memory")
         | _ => if portuguese then "sem memória" else "No memory"
         end]).
Proof.
  unfold incomplete. intros Hinc. unfold commandC, parseArgumentsC.
  pose proof (words_strtok_r args) as H1.
  destruct (strtok_r args " ") as [[batch rest1]|] eqn:Ht1; [|by rewrite H1].
  destruct H1 as [Hw1 Hr1].
  pose proof (words_strtok_r rest1) as H2.
  destruct (strtok_r rest1 " ") as [[token2 rest2]|] eqn:Ht2;
    [|by rewrite Hw1, H2].
  destruct H2 as [Hw2 Hr2].
  pose proof (words_strtok_r rest2) as H3.
  destruct (strtok_r rest2 " ") as [[token3 rest3]|] eqn:Ht3.
  2:{ rewrite Hw1, Hw2, H3. by destruct (parseValidationDate token2). }
  destruct H3 as [Hw3 Hr3].
  rewrite Hw1, Hw2, Hw3 in Hinc |- *. cbn [length] in Hinc.
  assert (words rest3 = []) as Hblank.
  { destruct (words rest3); [done|]. cbn [length] in Hinc. lia. }
  rewrite Hblank.
  destruct (parseValidationDate token2) as [validation|]; [|done].
  rewrite bool_decide_eq_true_2 by by eexists. cbn [andb].
  destruct Hr2 as [->|[pre2 Hp2]]; [done|].
  destruct Hr1 as [->|[pre1 Hp1]]; [done|].
  destruct rest3 as [|c3 r3].
  - rewrite Hp1, Hp2.
    assert (pre1 +:+ " " +:+ pre2 +:+ " " +:+ rest2
            = (pre1 +:+ " " +:+ pre2 +:+ " ") +:+ rest2) as ->
      by by rewrite !string_app_assoc.
    by rewrite (strtok_r_nothing_left rest2 token3).
  - destruct Hr3 as [?|[pre3 Hp3]]; [done|].
    assert (args = (pre1 +:+ " " +:+ pre2 +:+ " " +:+ pre3) +:+ (" " +:+ String c3 r3))
      as Hargs by by rewrite Hp1, Hp2, Hp3, !string_app_assoc.
    rewrite Hargs, ends_with_two_blanks_app by (simpl; lia).
    rewrite blank_ends_with_two_blanks; [|done|simpl; lia].
    unfold validateNewVaccine.
    rewrite (isValidName_blank (String c3 r3)) by done.
    by destruct (isValidBatch batch), portuguese.
Qed.

Lemma C10_incomplete_register_witness :
  commandC "A1F 01-06-2025" initialState HASH_SIZE MAX_VACCINES false
  = (initialState, ["No memory"])
  ∧ commandC "A1F 01-06-2025 10 " initialState HASH_SIZE MAX_VACCINES true
    = (initialState, ["sem memória"])
  ∧ commandC "A1F 01-06-2025 10  " initialState HASH_SIZE MAX_VACCINES false
    = (initialState, ["invalid name"])
  ∧ commandC "G1 01-06-2025 10   " initialState HASH_SIZE MAX_VACCINES false
    = (initialState, ["invalid batch"])
  ∧ commandC "A1F 01/06/2025 10  " initialState HASH_SIZE MAX_VACCINES false
    = (initialState, ["No memory"]).
Proof.
  split_and!.
  - apply (C10_incomplete_register initialState "A1F 01-06-2025").
    vm_compute. lia.
  - apply (C10_incomplete_register initialState "A1F 01-06-2025 10 ").
    vm_compute. lia.
  - apply (C10_incomplete_register initialState "A1F 01-06-2025 10  ").
    vm_compute. lia.
  - apply (C10_incomplete_register initialState "G1 01-06-2025 10   ").
    vm_compute. lia.
  - apply (C10_incomplete_register initialState "A1F 01/06/2025 10  ").
    vm_compute. lia.
Defined.

(** C8: for a name whose group is present and not empty, the lines printed
    are the lots of the group in the order of the group's array; the sorted
    copy is not used.  On [two_lots] that order is not the order of the full
    listing. *)
Theorem C8_by_name_prints_group_order :
  (∀ (s : State) (v : string) (e : VaccineNameIndex) (hashSize : Z)
     (portuguese : bool),
     findVaccineByName (nameHashTable s) v hashSize = Some e →
     lots e ≠ [] →
     listVaccinesByName s v hashSize portuguese
     = (λ p, printVaccine (heap s !!! p)) <$> lots e)
  ∧ listVaccinesByName two_lots "VaxX" HASH_SIZE false
    = ["VaxX B2 01-06-2025 10 0"; "VaxX A1 01-03-2025 5 0"]
  ∧ listAllVaccines (heap two_lots) (vaccineList two_lots)
    = ["VaxX A1 01-03-2025 5 0"; "VaxX B2 01-06-2025 10 0"].
Proof.
  split; [|split; vm_compute; reflexivity].
  intros s v e hashSize portuguese He Hl. unfold listVaccinesByName.
  rewrite He. destruct (lots e) eqn:E; [done|].
  unfold printVaccineLots. by rewrite E.
Qed.

Lemma C8_by_name_prints_group_order_witness :
  listVaccinesByName two_lots "VaxX" HASH_SIZE true
  = (λ p, printVaccine (heap two_lots !!! p)) <$> [0%nat; 1%nat].
Proof.
  refine (proj1 C8_by_name_prints_group_order two_lots "VaxX"
            (mkNameIndex "VaxX" [0%nat; 1%nat]) HASH_SIZE true _ _).
  - vm_compute. reflexivity.
  - discriminate.
Defined.

(** ** Command D does not touch the lots *)

Lemma commandR_frame (s s1 : State) (args : string) (hashSize : Z)
    (portuguese : bool) :
  heap s1 = heap s → hashTable s1 = hashTable s →
  nameHashTable s1 = nameHashTable s → vaccineList s1 = vaccineList s →
  let r := commandR args s hashSize portuguese in
  let r1 := commandR args s1 hashSize portuguese in
  r1.2 = r.2 ∧ heap r1.1 = heap r.1 ∧ hashTable r1.1 = hashTable r.1
  ∧ nameHashTable r1.1 = nameHashTable r.1 ∧ vaccineList r1.1 = vaccineList r.1.
Proof.
  intros Hh Ht Hn Hv. unfold commandR. destruct args as [|c a]; [done|].
  rewrite Hh, Ht. destruct (findVaccineByBatch _ _ _ _) as [p|]; [|done].
  destruct (_ =? 0).
  - unfold handleUnusedVaccineLot. rewrite Hh, Ht, Hn, Hv.
    destruct (findVaccineByBatch _ _ _ _); [|done].
    by destruct (removeVaccineFromHash _ _ _ _).
  - unfold handleUsedVaccineLot. simpl. by rewrite Hh.
Qed.

(** C9: command D changes no lot and no index of the lots, so a later
    command R prints the same count and takes the same purge-or-freeze
    decision as it would have taken before; a lot with used doses is frozen
    and stays registered even when every inoculation drawn from it has been
    deleted. *)
Theorem C9_revoke_leaves_lots (s : State) (args : string) (hashSize : Z)
    (cur : Date) (portuguese : bool) :
  let s1 := (commandD args s hashSize cur portuguese).1 in
  heap s1 = heap s ∧ hashTable s1 = hashTable s
  ∧ nameHashTable s1 = nameHashTable s ∧ vaccineList s1 = vaccineList s
  ∧ vaccineCount s1 = vaccineCount s
  ∧ ∀ batch,
      let r := commandR batch s hashSize portuguese in
      let r1 := commandR batch s1 hashSize portuguese in
      r1.2 = r.2 ∧ heap r1.1 = heap r.1 ∧ hashTable r1.1 = hashTable r.1
      ∧ vaccineList r1.1 = vaccineList r.1
      ∧ ∀ p, batch ≠ "" →
             findVaccineByBatch (heap s) (hashTable s) batch hashSize = Some p →
             dosesUsed (heap s !!! p) ≠ 0 →
             r1.2 = [fmt_d (dosesUsed (heap s !!! p))]
             ∧ heap r1.1 = <[p := freeze (heap s !!! p)]> (heap s)
             ∧ hashTable r1.1 = hashTable s ∧ vaccineList r1.1 = vaccineList s.
Proof.
  intros s1.
  destruct (commandD_lots args s hashSize cur portuguese)
    as (Hh & Ht & Hn & Hv & Hc & _ & _). fold s1 in Hh, Ht, Hn, Hv, Hc.
  split_and!; [done..|]. intros batch r r1.
  destruct (commandR_frame s s1 batch hashSize portuguese Hh Ht Hn Hv)
    as (Ho & Hh1 & Ht1 & Hn1 & Hv1). fold r r1 in Ho, Hh1, Ht1, Hn1, Hv1.
  split_and!; [done..|]. intros p Hb Hf Hused.
  rewrite Ho, Hh1, Ht1, Hv1. unfold r, commandR.
  destruct batch as [|c b]; [done|]. rewrite Hf.
  by rewrite (proj2 (Z.eqb_neq _ _) Hused).
Qed.

Lemma C9_revoke_leaves_lots_witness :
  let s := one_dose in
  let s1 := (commandD "Alice" s HASH_SIZE (mkDate 1 1 2025) false).1 in
  heap s1 = heap s ∧ hashTable s1 = hashTable s
  ∧ nameHashTable s1 = nameHashTable s ∧ vaccineList s1 = vaccineList s
  ∧ vaccineCount s1 = vaccineCount s
  ∧ ∀ batch,
      let r := commandR batch s HASH_SIZE false in
      let r1 := commandR batch s1 HASH_SIZE false in
      r1.2 = r.2 ∧ heap r1.1 = heap r.1 ∧ hashTable r1.1 = hashTable r.1
      ∧ vaccineList r1.1 = vaccineList r.1
      ∧ ∀ p, batch ≠ "" →
             findVaccineByBatch (heap s) (hashTable s) batch HASH_SIZE = Some p →
             dosesUsed (heap s !!! p) ≠ 0 →
             r1.2 = [fmt_d (dosesUsed (heap s !!! p))]
             ∧ heap r1.1 = <[p := freeze (heap s !!! p)]> (heap s)
             ∧ hashTable r1.1 = hashTable s ∧ vaccineList r1.1 = vaccineList s.
Proof.
  exact (C9_revoke_leaves_lots one_dose "Alice" HASH_SIZE (mkDate 1 1 2025) false).
Defined.

(** One dose given to Alice, her record deleted, the lot retired: the count
    printed is still 1 and the lot is frozen, not purged. *)
Example revoked_then_retired :
  inoculationList revoked_all = []
  ∧ (processCommands ["r A1F"; "l"] revoked_all false).2
    = ["1"; "VaxX A1F 01-06-2025 0 1"].
Proof. split; vm_compute; reflexivity. Qed.

(** C2 does not hold of the code: after [three_doses] the global listing
    keeps the order of administration, the listing of the user does not: the
    record of the third day has taken the slot of the deleted one. *)
Theorem C2_swap_with_last_reorders :
  let s := (processCommands three_doses initialState false).1 in
  commandU "" s HASH_SIZE false
  = ["Alice A1F 02-01-2025"; "Alice A1F 03-01-2025"]
  ∧ commandU "Alice" s HASH_SIZE false
    = ["Alice A1F 03-01-2025"; "Alice A1F 02-01-2025"].
Proof. split; vm_compute; reflexivity. Qed.

(** ** The same-day guard of command A *)

(** C4: when the user's array holds a record dated today whose lot is a
    registered lot of the requested vaccine, command A reports "already
    vaccinated" and the registry, hence the used doses of every lot, is
    unchanged.  The lot of the record need not be the one the allocation
    would pick. *)
Theorem C4_same_day_same_vaccine (s : State) (u v : string) (hashSize : Z)
    (cur : Date) (portuguese : bool) (userEntry : UserIndex)
    (inoc : Inoculation) (p : ptr) :
  wf hashSize s →
  findUserByName (userHashTable s) u hashSize = Some userEntry →
  inoc ∈ inoculations userEntry →
  date inoc = cur →
  findVaccineByBatch (heap s) (hashTable s) (inoc_lot inoc) hashSize = Some p →
  name (heap s !!! p) = v →
  processVaccineApplication u v s hashSize cur portuguese
  = (s, [if portuguese then "já vacinado" else "already vaccinated"]).
Proof.
  intros Hwf Hu Hin Hdate Hp Hname.
  apply (findVaccineByBatch_spec Hwf) in Hp as [Hp Hid].
  destruct (wf_lot_in_group Hwf p Hp) as (e & He & Hpe).
  unfold name_of in He. rewrite Hname in He.
  unfold processVaccineApplication, isAlreadyVaccinated. rewrite Hu, He.
  replace (existsb _ _) with true; [done|]. symmetry.
  apply existsb_exists. exists inoc. split; [by apply list_elem_of_In|].
  unfold inoculationMatches. rewrite Hdate, !Z.eqb_refl. simpl.
  apply existsb_exists. exists p. split; [by apply list_elem_of_In|].
  apply Z.eqb_eq, strcmp_eq. by rewrite <- Hid.
Qed.

Lemma C4_same_day_same_vaccine_witness :
  processVaccineApplication "Alice" "VaxX" alice_today HASH_SIZE (mkDate 1 1 2025) false
  = (alice_today, ["already vaccinated"]).
Proof.
  apply (C4_same_day_same_vaccine alice_today "Alice" "VaxX" HASH_SIZE
           (mkDate 1 1 2025) false
           (mkUserIndex "Alice" [mkInoc 0%nat "Alice" "B2" (mkDate 1 1 2025)])
           (mkInoc 0%nat "Alice" "B2" (mkDate 1 1 2025)) 0%nat).
  - apply processCommands_wf, wf_initial.
  - vm_compute. reflexivity.
  - apply list_elem_of_singleton. reflexivity.
  - reflexivity.
  - vm_compute. reflexivity.
  - vm_compute. reflexivity.
Defined.

(** On [alice_today] the allocation would take lot A1, not the lot B2 of
    Alice's record: the guard goes by the vaccine name. *)
Example alice_today_allocation :
  findOldestValidLot alice_today "VaxX" (mkDate 1 1 2025) HASH_SIZE = Some 1%nat
  ∧ id_of (heap alice_today) 1%nat = "A1".
Proof. split; vm_compute; reflexivity. Qed.

(** ** Calendar dates *)

Lemma rem_zero_mod (y n : Z) : 0 < n → (Z.rem y n =? 0) = bool_decide (y mod n = 0).
Proof.
  intros Hn. case_bool_decide as H.
  - apply Z.eqb_eq. apply Z.rem_divide; [lia|]. apply Z.mod_divide; [lia|done].
  - apply Z.eqb_neq. intros Hr. apply H. apply Z.mod_divide; [lia|].
    apply Z.rem_divide; [lia|done].
Qed.

Lemma is_leap_spec (y : Z) : is_leap y = bool_decide (leap_year y).
Proof.
  unfold is_leap, leap_year. rewrite !rem_zero_mod by lia.
  assert (y mod 400 = 0 → y mod 4 = 0 ∧ y mod 100 = 0) as H400.
  { intros H. apply Z.mod_divide in H; [|lia].
    split; (apply Z.mod_divide; [lia|]); (etrans; [|exact H]);
      [by exists 100|by exists 4]. }
  repeat case_bool_decide; simpl; try done; exfalso; tauto.
Qed.

Lemma getDaysInMonth_spec (m y : Z) :
  1 <= m <= 12 → getDaysInMonth m y = days_in_month m y.
Proof.
  intros Hm. unfold getDaysInMonth, days_in_month. rewrite is_leap_spec.
  assert (m = 1 ∨ m = 2 ∨ m = 3 ∨ m = 4 ∨ m = 5 ∨ m = 6 ∨ m = 7 ∨ m = 8
          ∨ m = 9 ∨ m = 10 ∨ m = 11 ∨ m = 12) as Hcases by lia.
  destruct (bool_decide (leap_year y));
    repeat (destruct Hcases as [->|Hcases]; [by vm_compute|]); subst; by vm_compute.
Qed.

Lemma isDateFormatValid_spec (d : Date) :
  isDateFormatValid d = true ↔ calendar_date d.
Proof.
  unfold isDateFormatValid, calendar_date.
  destruct (Z.ltb_spec (month d) 1), (Z.gtb_spec (month d) 12); simpl;
    try (split; [done|lia]).
  pose proof (getDaysInMonth_spec (month d) (year d)) as Hdim.
  unfold getDaysInMonth in Hdim. rewrite Hdim by lia.
  rewrite andb_true_iff, Z.geb_le, Z.leb_le. lia.
Qed.

Lemma isDateFuture_spec (d cur : Date) :
  isDateFuture d cur = true ↔ date_lt cur d.
Proof.
  unfold isDateFuture, date_lt.
  rewrite !orb_true_iff, !andb_true_iff, !Z.gtb_lt, !Z.eqb_eq. lia.
Qed.

Lemma isDateNotEarlier_spec (d cur : Date) :
  isDateNotEarlier d cur = true ↔ date_le cur d.
Proof.
  unfold isDateNotEarlier, date_le, date_lt. rewrite Date_eq.
  destruct (Z.ltb_spec (year d) (year cur)); [split; [done|lia]|].
  destruct (Z.eqb_spec (year d) (year cur)); simpl; [|split; [lia|done]].
  destruct (Z.ltb_spec (month d) (month cur)); [split; [done|lia]|].
  destruct (Z.eqb_spec (month d) (month cur)); simpl; [|split; [lia|done]].
  destruct (Z.ltb_spec (day d) (day cur)); split; (done || lia).
Qed.

(** The two copies of the calendar check agree: the one of utils.c used by
    command C and the one of command_d.c and command_t.c. *)
Lemma isValidDate_isDateFormatValid (d cur : Date) :
  isValidDate d cur = isDateFormatValid d && isDateNotEarlier d cur.
Proof.
  unfold isValidDate, isDateFormatValid, isMonthValid, isDayValid, getDaysInMonth.
  destruct (Z.leb_spec 1 (month d)), (Z.ltb_spec (month d) 1); try lia;
    destruct (Z.leb_spec (month d) 12), (Z.gtb_spec (month d) 12); try lia;
    simpl; try done.
  destruct (Z.leb_spec 1 (day d)), (Z.geb_spec (day d) 1); try lia; simpl; [|done].
  destruct (_ <=? _); simpl; [|done]. by destruct (isDateNotEarlier d cur).
Qed.

(** X1: command C accepts an expiry date exactly when it is a date of the
    Gregorian calendar that is not before the clock date. *)
Theorem isValidDate_calendar (d cur : Date) :
  isValidDate d cur = true ↔ calendar_date d ∧ date_le cur d.
Proof.
  rewrite isValidDate_isDateFormatValid, andb_true_iff.
  by rewrite isDateFormatValid_spec, isDateNotEarlier_spec.
Qed.

Lemma compareDates_le (a b : Date) :
  date_ok a → date_ok b → compareDates a b <= 0 ↔ date_le a b.
Proof.
  intros Ha Hb. unfold date_le.
  rewrite <-(compareDates_lt a b), <-(compareDates_eq a b) by done. lia.
Qed.

Lemma commandT_cases (s : State) (args : string) (d : Date) (portuguese : bool) :
  date_ok (currentDate s) → args ≠ "" → sscanf_date args = Some d → 0 <= year d →
  commandT args s portuguese
  = if bool_decide (calendar_date d ∧ date_le (currentDate s) d)
    then (set_currentDate s d, [printCurrentDate d])
    else (s, [printInvalidDateMessage portuguese]).
Proof.
  intros Hcur Hargs Hscan Hy. unfold commandT. destruct args as [|c r]; [done|].
  rewrite Hscan. destruct (isDateFormatValid d) eqn:Hfmt; simpl.
  - assert (date_ok d) as Hd.
    { apply isDateFormatValid_ok; [done|by eapply sscanf_date_range|done]. }
    apply isDateFormatValid_spec in Hfmt.
    pose proof (compareDates_le (currentDate s) d Hcur Hd) as Hle.
    destruct (Z.gtb_spec (compareDates (currentDate s) d) 0).
    + rewrite bool_decide_eq_false_2; [done|]. intros [_ Hd']. apply Hle in Hd'. lia.
    + rewrite bool_decide_eq_true_2; [done|]. split; [done|]. apply Hle. lia.
  - rewrite bool_decide_eq_false_2; [done|]. intros [Hc _].
    apply isDateFormatValid_spec in Hc. congruence.
Qed.

(** X2: command T with a date argument.  When the clock holds a date in range
    and the argument scans as day-month-year with a year that is not
    negative, the clock is set to that date, and the date is printed, exactly
    when it is a date of the calendar that is not before the clock; otherwise
    the line for an invalid date is printed and nothing changes. *)
Theorem commandT_sets_clock (s : State) (args : string) (d : Date)
    (portuguese : bool) :
  date_ok (currentDate s) → args ≠ "" → sscanf_date args = Some d → 0 <= year d →
  (calendar_date d ∧ date_le (currentDate s) d →
   commandT args s portuguese = (set_currentDate s d, [printCurrentDate d]))
  ∧ (¬ (calendar_date d ∧ date_le (currentDate s) d) →
     commandT args s portuguese = (s, [printInvalidDateMessage portuguese])).
Proof.
  intros Hcur Hargs Hscan Hy.
  rewrite (commandT_cases s args d portuguese Hcur Hargs Hscan Hy).
  split; intros Hc; [by rewrite bool_decide_eq_true_2|by rewrite bool_decide_eq_false_2].
Qed.

Lemma commandT_sets_clock_witness :
  commandT "29-02-2028" initialState false
  = (set_currentDate initialState (mkDate 29 2 2028), ["29-02-2028"])
  ∧ commandT "29-02-2027" initialState true = (initialState, ["data invÃ¡lida"]).
Proof.
  split.
  - refine (proj1 (commandT_sets_clock initialState "29-02-2028" (mkDate 29 2 2028)
                     false _ _ _ _) _).
    + vm_compute. intuition congruence.
    + done.
    + vm_compute. reflexivity.
    + vm_compute. congruence.
    + vm_compute. intuition congruence.
  - refine (proj2 (commandT_sets_clock initialState "29-02-2027" (mkDate 29 2 2027)
                     true _ _ _ _) _).
    + vm_compute. intuition congruence.
    + done.
    + vm_compute. reflexivity.
    + vm_compute. congruence.
    + vm_compute. intuition congruence.
Defined.

Lemma handleCommand_currentDate cmd args s hashSize maxVaccines portuguese :
  Ascii.eqb cmd "t" = false →
  currentDate (handleCommand cmd args s hashSize maxVaccines portuguese).1
  = currentDate s.
Proof.
  intros Ht. unfold handleCommand. rewrite Ht.
  repeat case_match; try done.
  - unfold commandC, addNewVaccineToSystem. by repeat case_match.
  - unfold commandA, processVaccineApplication, applyVaccine. by repeat case_match.
  - unfold commandR, handleUnusedVaccineLot, handleUsedVaccineLot, removeVaccineFromHash.
    by repeat case_match.
  - apply commandD_lots.
Qed.

(** X3: the clock never goes back.  Whatever the command, the clock date after
    it is the clock date before it or a later one, as long as the clock holds
    a date in range and command T is not given a negative year. *)
Theorem clock_never_goes_back (cmd : ascii) (args : string) (s : State)
    (hashSize maxVaccines : Z) (portuguese : bool) :
  date_ok (currentDate s) →
  (∀ d, cmd = "t"%char → sscanf_date args = Some d → 0 <= year d) →
  let s' := (handleCommand cmd args s hashSize maxVaccines portuguese).1 in
  date_le (currentDate s) (currentDate s') ∧ date_ok (currentDate s').
Proof.
  intros Hcur Hy. simpl. destruct (Ascii.eqb cmd "t") eqn:Hc.
  - apply Ascii.eqb_eq in Hc as ->. unfold handleCommand. simpl.
    destruct args as [|c r]; [by split; [right|]|].
    destruct (sscanf_date (String c r)) as [d|] eqn:Hscan.
    + rewrite (commandT_cases s (String c r) d portuguese) by eauto.
      case_bool_decide as Hd; simpl; [|by split; [right|]].
      split; [apply Hd|]. destruct Hd as [Hd _].
      apply isDateFormatValid_ok; [by eauto|by eapply sscanf_date_range|].
      by apply isDateFormatValid_spec.
    + unfold commandT. rewrite Hscan. by split; [right|].
  - rewrite handleCommand_currentDate by done. by split; [right|].
Qed.

Lemma clock_never_goes_back_witness :
  date_le (currentDate initialState)
    (currentDate (handleCommand "t" "15-03-2025" initialState HASH_SIZE MAX_VACCINES
                    false).1)
  ∧ date_ok (currentDate (handleCommand "t" "15-03-2025" initialState HASH_SIZE
                            MAX_VACCINES false).1).
Proof.
  refine (clock_never_goes_back "t" "15-03-2025" initialState HASH_SIZE MAX_VACCINES
            false _ _).
  - vm_compute. intuition congruence.
  - intros d _ Hd. vm_compute in Hd. injection Hd as <-. vm_compute. congruence.
Defined.

(** ** Printing and scanning numbers *)

Lemma pretty_N_char_digit (x : N) :
  (x < 10)%N →
  isdigit (pretty_N_char x) = true ∧ byte_of (pretty_N_char x) - 48 = Z.of_N x.
Proof.
  intros Hx.
  assert (x = 0 ∨ x = 1 ∨ x = 2 ∨ x = 3 ∨ x = 4 ∨ x = 5 ∨ x = 6 ∨ x = 7
          ∨ x = 8 ∨ x = 9)%N as Hc by lia.
  repeat (destruct Hc as [->|Hc]; [by vm_compute|]). subst. by vm_compute.
Qed.

Lemma pretty_N_go_app (x : N) (s rest : string) :
  pretty_N_go x s +:+ rest = pretty_N_go x (s +:+ rest).
Proof.
  revert s. induction (N.lt_wf_0 x) as [x _ IH]; intros s.
  assert (x = 0 ∨ 0 < x)%N as [->|Hx] by lia; [by rewrite !pretty_N_go_0|].
  rewrite (pretty_N_go_step x s), (pretty_N_go_step x (s +:+ rest)) by done.
  by rewrite IH by (by apply N.div_lt).
Qed.

Lemma scan_digits_pretty_N_go (x : N) (s : string) (acc : Z) (seen : bool) :
  (0 < x)%N →
  ∃ k, 0 <= k ∧
    scan_digits (pretty_N_go x s) acc seen
    = scan_digits s (acc * 10 ^ k + Z.of_N x) true.
Proof.
  revert s. induction (N.lt_wf_0 x) as [x _ IH]; intros s Hx.
  rewrite pretty_N_go_step by done.
  destruct (pretty_N_char_digit (x `mod` 10)) as [Hd Hv]; [by apply N.mod_lt|].
  assert (Z.of_N x = 10 * Z.of_N (x `div` 10) + Z.of_N (x `mod` 10)) as Hx10.
  { pose proof (N.div_mod x 10 ltac:(done)) as Hdm.
    apply (f_equal Z.of_N) in Hdm. by rewrite N2Z.inj_add, N2Z.inj_mul in Hdm. }
  destruct (N.eq_0_gt_0_cases (x `div` 10)) as [H0|Hpos].
  - rewrite H0, pretty_N_go_0. exists 1. split; [lia|].
    cbn [scan_digits]. rewrite Hd, Hv. f_equal. rewrite H0 in Hx10. lia.
  - destruct (IH (x `div` 10)%N (N.div_lt x 10 Hx eq_refl)
                (String (pretty_N_char (x `mod` 10)) s) Hpos) as (k & Hk & ->).
    exists (k + 1). split; [lia|].
    cbn [scan_digits]. rewrite Hd, Hv. f_equal.
    rewrite Z.pow_add_r by lia. lia.
Qed.

Lemma pretty_N_go_head (x : N) (s : string) :
  (0 < x)%N → ∃ c r, pretty_N_go x s = String c r ∧ isdigit c = true.
Proof.
  revert s. induction (N.lt_wf_0 x) as [x _ IH]; intros s Hx.
  rewrite pretty_N_go_step by done.
  destruct (N.eq_0_gt_0_cases (x `div` 10)) as [H0|Hpos].
  - rewrite H0, pretty_N_go_0. eexists _, _. split; [done|].
    apply pretty_N_char_digit. by apply N.mod_lt.
  - apply IH; [by apply N.div_lt|done].
Qed.

Lemma pretty_Z_nonneg (z : Z) (rest : string) :
  0 <= z →
  pretty z +:+ rest
  = if decide (z = 0) then String "0" rest else pretty_N_go (Z.to_N z) rest.
Proof.
  intros Hz. destruct z as [|p|p]; [done| |lia].
  rewrite decide_False by done. unfold pretty, pretty_Z, pretty, pretty_positive,
    pretty, pretty_N. rewrite decide_False by done.
  by rewrite pretty_N_go_app.
Qed.

Lemma scan_digits_stop (rest : string) (acc : Z) (seen : bool) :
  no_digit_ahead rest → scan_digits rest acc seen = (acc, seen, rest).
Proof. destruct rest as [|c r]; simpl; [done|]. by intros ->. Qed.

Lemma scan_digits_pretty (z : Z) (rest : string) (seen : bool) :
  0 <= z → scan_digits (pretty z +:+ rest) 0 seen = scan_digits rest z true.
Proof.
  intros Hz. rewrite pretty_Z_nonneg by done. case_decide as H0.
  - subst. done.
  - destruct (scan_digits_pretty_N_go (Z.to_N z) rest 0 seen) as (k & _ & ->); [lia|].
    f_equal. lia.
Qed.

Lemma pretty_Z_head (z : Z) (rest : string) :
  0 <= z → ∃ c r, pretty z +:+ rest = String c r ∧ isdigit c = true.
Proof.
  intros Hz. rewrite pretty_Z_nonneg by done. case_decide.
  - by eexists _, _.
  - apply pretty_N_go_head. lia.
Qed.

(** A text that starts with a digit has no white space and no sign for
    [scan_int] to skip. *)
Lemma scan_int_digit (c : ascii) (r : string) :
  isdigit c = true →
  scan_int (String c r)
  = let '(v, seen, rest) := scan_digits (String c r) 0 false in
    if seen then Some (wrap_int (strtol_clamp v), rest) else None.
Proof.
  intros Hc. unfold scan_int.
  destruct c as [[] [] [] [] [] [] [] []]; try discriminate Hc; reflexivity.
Qed.

Lemma strtol_clamp_id (z : Z) : - 2 ^ 63 <= z < 2 ^ 63 → strtol_clamp z = z.
Proof. unfold strtol_clamp. lia. Qed.

(** Numerals that do not fit: in [int], the low 32 bits are kept; in [long],
    [LONG_MAX] or [LONG_MIN] is converted, which leaves -1 or 0. *)
Example atoi_out_of_range :
  atoi "4294967297" = 1 ∧ atoi "-2147483649" = 2147483647
  ∧ atoi "9223372036854775808" = -1 ∧ atoi "-9223372036854775809" = 0.
Proof. split_and!; vm_compute; reflexivity. Qed.

Lemma scan_int_pretty (z : Z) (rest : string) :
  0 <= z < 2 ^ 31 → no_digit_ahead rest →
  scan_int (pretty z +:+ rest) = Some (z, rest).
Proof.
  intros Hz Hrest.
  destruct (pretty_Z_head z rest) as (c & r & Heq & Hc); [lia|].
  rewrite Heq, scan_int_digit by done. rewrite <-Heq.
  rewrite scan_digits_pretty by lia. rewrite scan_digits_stop by done.
  rewrite strtol_clamp_id by lia. rewrite wrap_int_id; [done|].
  unfold int_range. lia.
Qed.

Lemma fmt_02d_cases (z : Z) :
  fmt_02d z = pretty z ∨ fmt_02d z = String "0" (pretty z).
Proof. unfold fmt_02d. case_match; [by right|by left]. Qed.

Lemma scan_int_fmt_02d (z : Z) (rest : string) :
  0 <= z < 2 ^ 31 → no_digit_ahead rest →
  scan_int (fmt_02d z +:+ rest) = Some (z, rest).
Proof.
  intros Hz Hrest. destruct (fmt_02d_cases z) as [->| ->].
  - by apply scan_int_pretty.
  - rewrite string_app_cons, scan_int_digit by done.
    cbn [scan_digits]. change (isdigit "0") with true. cbn match.
    change (10 * 0 + (byte_of "0" - 48)) with 0.
    rewrite scan_digits_pretty by lia. rewrite scan_digits_stop by done.
    rewrite strtol_clamp_id by lia. rewrite wrap_int_id; [done|].
    unfold int_range. lia.
Qed.

Lemma scan_int_fmt_d (z : Z) (rest : string) :
  0 <= z < 2 ^ 31 → no_digit_ahead rest →
  scan_int (fmt_d z +:+ rest) = Some (z, rest).
Proof. apply scan_int_pretty. Qed.

Lemma sscanf_date_print (d : Date) (rest : string) :
  0 <= day d < 2 ^ 31 → 0 <= month d < 2 ^ 31 → 0 <= year d < 2 ^ 31 →
  no_digit_ahead rest →
  sscanf_date (printCurrentDate d +:+ rest) = Some d.
Proof.
  intros Hd Hm Hy Hrest. unfold sscanf_date, printCurrentDate.
  rewrite !string_app_assoc, !string_app_cons, !string_app_nil.
  rewrite !scan_int_fmt_02d by done. rewrite scan_int_fmt_d by done. by destruct d.
Qed.

Lemma string_app_nil_r (s : string) : s +:+ "" = s.
Proof. induction s as [|c s IH]; [done|]. by rewrite string_app_cons, IH. Qed.

Lemma sscanf_date_printed (d : Date) :
  0 <= day d < 2 ^ 31 → 0 <= month d < 2 ^ 31 → 0 <= year d < 2 ^ 31 →
  sscanf_date (printCurrentDate d) = Some d.
Proof.
  intros Hd Hm Hy. rewrite <-(string_app_nil_r (printCurrentDate d)).
  by apply sscanf_date_print.
Qed.

Lemma atoi_pretty (z : Z) : 0 <= z < 2 ^ 31 → atoi (fmt_d z) = z.
Proof.
  intros Hz. unfold atoi, fmt_d. rewrite <-(string_app_nil_r (pretty z)).
  by rewrite scan_int_pretty.
Qed.

(** X4: numbers and dates are read back from their printed form.  What [%d]
    prints for a number that is not negative is read by [atoi] as that
    number; what [%02d-%02d-%d] prints for a date whose three numbers are
    not negative is scanned by [%d-%d-%d] as that date, also when other text
    follows that does not start with a digit. *)
Theorem print_then_scan (d : Date) (n : Z) (rest : string) :
  0 <= day d < 2 ^ 31 → 0 <= month d < 2 ^ 31 → 0 <= year d < 2 ^ 31 →
  0 <= n < 2 ^ 31 → no_digit_ahead rest →
  atoi (fmt_d n) = n
  ∧ sscanf_date (printCurrentDate d) = Some d
  ∧ sscanf_date (printCurrentDate d +:+ rest) = Some d.
Proof.
  intros Hd Hm Hy Hn Hrest. split_and!.
  - by apply atoi_pretty.
  - by apply sscanf_date_printed.
  - by apply sscanf_date_print.
Qed.

Lemma print_then_scan_witness :
  atoi (fmt_d 250) = 250
  ∧ sscanf_date (printCurrentDate (mkDate 5 11 2031)) = Some (mkDate 5 11 2031)
  ∧ sscanf_date (printCurrentDate (mkDate 5 11 2031) +:+ " A1F")
    = Some (mkDate 5 11 2031).
Proof.
  apply (print_then_scan (mkDate 5 11 2031) 250 " A1F"); simpl; (lia || done).
Defined.

(** ** Insertion into the hash tables, and the searches that follow *)

Section ChainUpdate.
Context {A : Type} (key : A → string).

Lemma find_chain_update_chain (chain : list A) (k k' : string) (f : A → A) :
  (∀ x, key (f x) = key x) →
  find_chain key (update_chain key chain k f) k'
  = if decide (k' = k) then f <$> find_chain key chain k
    else find_chain key chain k'.
Proof.
  intros Hf. induction chain as [|x chain IH]; simpl; [by case_decide|].
  rewrite !strcmp_eqb.
  destruct (decide (key x = k)) as [Hk|Hk].
  - rewrite (bool_decide_eq_true_2 _ Hk). simpl. rewrite strcmp_eqb, Hf.
    case_decide as Hk'; subst.
    + by rewrite bool_decide_eq_true_2.
    + rewrite bool_decide_eq_false_2 by congruence. done.
  - rewrite (bool_decide_eq_false_2 _ Hk). simpl. rewrite strcmp_eqb, IH.
    case_decide as Hk'; subst.
    + by rewrite bool_decide_eq_false_2.
    + done.
Qed.

Lemma find_chain_ext (key' : A → string) (chain : list A) (k : string) :
  (∀ x, x ∈ chain → key' x = key x) →
  find_chain key' chain k = find_chain key chain k.
Proof.
  induction chain as [|x chain IH]; intros Hext; simpl; [done|].
  rewrite Hext by set_solver. rewrite IH by set_solver. done.
Qed.

Lemma find_chain_head (x : A) (chain : list A) (k : string) :
  find_chain key (x :: chain) k
  = if decide (k = key x) then Some x else find_chain key chain k.
Proof.
  simpl. rewrite strcmp_eqb. case_decide; subst.
  - by rewrite bool_decide_eq_true_2.
  - by rewrite bool_decide_eq_false_2.
Qed.
End ChainUpdate.

Lemma findUserByName_add (t : gmap Z (list UserIndex))
    (inoc : Inoculation) (size : Z) (u : string) :
  findUserByName (addInoculationToUserIndex t inoc size) u size
  = if decide (u = user inoc)
    then Some (mkUserIndex u (records_of t u size ++ [inoc]))
    else findUserByName t u size.
Proof.
  unfold addInoculationToUserIndex, findOrCreateUserIndexEntry, records_of,
    findUserByName.
  destruct (find_chain userName (bucket t (hashString (user inoc) size))
              (user inoc)) as [e|] eqn:He.
  - rewrite bucket_insert. case_decide as Hi.
    + rewrite find_chain_update_chain by done. case_decide as Hu; [|by rewrite Hi].
      subst u. rewrite He. simpl. apply find_chain_Some in He as [_ ->]. done.
    + rewrite decide_False by congruence. done.
  - rewrite !bucket_insert.
    rewrite (decide_True _ _ (eq_refl (hashString (user inoc) size))). simpl.
    rewrite strcmp_eqb, bool_decide_eq_true_2 by done.
    case_decide as Hi.
    + rewrite find_chain_head. simpl. case_decide as Hu; [|by rewrite Hi].
      subst u. by rewrite He.
    + case_decide; [congruence|done].
Qed.

Lemma findVaccineByName_add (h : gmap ptr VaccineLot)
    (t : gmap Z (list VaccineNameIndex)) (p : ptr) (size : Z) (v : string) :
  findVaccineByName (addVaccineLotToNameIndex h t p size) v size
  = if decide (v = name (h !!! p))
    then Some (mkNameIndex v
                 (match findVaccineByName t v size with
                  | Some e => lots e
                  | None => []
                  end ++ [p]))
    else findVaccineByName t v size.
Proof.
  unfold addVaccineLotToNameIndex, findOrCreateNameIndexEntry, findVaccineByName.
  destruct (find_chain vni_name (bucket t (hashString (name (h !!! p)) size))
              (name (h !!! p))) as [e|] eqn:He.
  - rewrite bucket_insert. case_decide as Hi.
    + rewrite find_chain_update_chain by done. case_decide as Hu; [|by rewrite Hi].
      subst v. rewrite He. simpl. apply find_chain_Some in He as [_ ->]. done.
    + rewrite decide_False by congruence. done.
  - rewrite !bucket_insert.
    rewrite (decide_True _ _ (eq_refl (hashString (name (h !!! p)) size))). simpl.
    rewrite strcmp_eqb, bool_decide_eq_true_2 by done.
    case_decide as Hi.
    + rewrite find_chain_head. simpl. case_decide as Hu; [|by rewrite Hi].
      subst v. by rewrite He.
    + case_decide; [congruence|done].
Qed.

Lemma findVaccineByBatch_add (h : gmap ptr VaccineLot)
    (ht : gmap Z (list ptr)) (p : ptr) (size : Z) (batch : string) :
  findVaccineByBatch h (addVaccineLotToHash h ht p size) batch size
  = if decide (batch = lot (h !!! p)) then Some p
    else findVaccineByBatch h ht batch size.
Proof.
  unfold findVaccineByBatch, addVaccineLotToHash. rewrite bucket_insert.
  case_decide as Hi.
  - rewrite find_chain_head. unfold id_of at 1. by rewrite Hi.
  - rewrite decide_False by congruence. done.
Qed.

(** X5: insertion into a hash table, then search.  For each of the three
    tables: after the insertion, the search for the key of the new item finds
    it (the lot itself in the id table; in the name and user tables an entry
    whose array is the former array of that key followed by the new item),
    and the search for any other key finds what it found before. *)
Theorem hash_tables_insert_then_search (h : gmap ptr VaccineLot)
    (ht : gmap Z (list ptr)) (nt : gmap Z (list VaccineNameIndex))
    (ut : gmap Z (list UserIndex)) (p : ptr) (inoc : Inoculation) (size : Z)
    (k : string) :
  findVaccineByBatch h (addVaccineLotToHash h ht p size) k size
  = (if decide (k = lot (h !!! p)) then Some p
     else findVaccineByBatch h ht k size)
  ∧ findVaccineByName (addVaccineLotToNameIndex h nt p size) k size
    = (if decide (k = name (h !!! p))
       then Some (mkNameIndex k
                    (from_option lots [] (findVaccineByName nt k size) ++ [p]))
       else findVaccineByName nt k size)
  ∧ findUserByName (addInoculationToUserIndex ut inoc size) k size
    = (if decide (k = user inoc)
       then Some (mkUserIndex k
                    (from_option inoculations [] (findUserByName ut k size)
                     ++ [inoc]))
       else findUserByName ut k size).
Proof.
  split_and!.
  - apply findVaccineByBatch_add.
  - rewrite findVaccineByName_add. by destruct (findVaccineByName nt k size).
  - rewrite findUserByName_add. unfold records_of.
    by destruct (findUserByName ut k size).
Qed.

Lemma findVaccineByBatch_heap_ext (h h' : gmap ptr VaccineLot)
    (ht : gmap Z (list ptr)) (batch : string) (size : Z) :
  (∀ q, q ∈ bucket ht (hashString batch size) → id_of h' q = id_of h q) →
  findVaccineByBatch h' ht batch size = findVaccineByBatch h ht batch size.
Proof. intros Hext. unfold findVaccineByBatch. by apply find_chain_ext. Qed.

Lemma group_addVaccineLotToNameIndex (s s' : State) (p : ptr) (hashSize : Z)
    (v : string) :
  nameHashTable s'
  = addVaccineLotToNameIndex (heap s') (nameHashTable s) p hashSize →
  group s' v hashSize
  = if decide (v = name (heap s' !!! p)) then group s v hashSize ++ [p]
    else group s v hashSize.
Proof.
  intros Hnt. unfold group. rewrite Hnt, findVaccineByName_add.
  by case_decide.
Qed.

(** X6: a registration that passes every check.  On a well-formed registry,
    when the line parses, the four checks pass, the cap is not reached and
    the id is not registered, command C prints the id and stores a lot with
    the given fields and no dose used at a fresh address; afterwards the id
    search finds that lot for the new id and is unchanged for every other
    id, the new lot is last in the group of its name and the other groups
    are unchanged, the new lot heads the global list, and the other lots,
    the inoculations and the clock are untouched. *)
Theorem commandC_registers (s : State) (args batch nm : string)
    (validation : Date) (d hashSize maxVaccines : Z) (portuguese : bool) :
  wf hashSize s →
  parseArgumentsC args = Some (batch, validation, d, nm) →
  validateNewVaccine batch validation d nm (currentDate s) portuguese = None →
  vaccineCount s < maxVaccines →
  findVaccineByBatch (heap s) (hashTable s) batch hashSize = None →
  let r := commandC args s hashSize maxVaccines portuguese in
  let p := next_lot s in
  r.2 = [batch]
  ∧ heap s !! p = None
  ∧ heap r.1 !! p = Some (mkLot batch nm validation d 0 false)
  ∧ (∀ q, q ≠ p → heap r.1 !! q = heap s !! q)
  ∧ (∀ b, findVaccineByBatch (heap r.1) (hashTable r.1) b hashSize
          = if decide (b = batch) then Some p
            else findVaccineByBatch (heap s) (hashTable s) b hashSize)
  ∧ (∀ v, group r.1 v hashSize
          = if decide (v = nm) then group s v hashSize ++ [p]
            else group s v hashSize)
  ∧ vaccineList r.1 = p :: vaccineList s
  ∧ inoculationList r.1 = inoculationList s
  ∧ userHashTable r.1 = userHashTable s
  ∧ currentDate r.1 = currentDate s.
Proof.
  intros Hwf Hparse Hval Hcount Hfresh. simpl.
  unfold commandC. rewrite Hparse, Hval. unfold addNewVaccineToSystem.
  destruct (Z.geb_spec (vaccineCount s) maxVaccines) as [|_]; [lia|].
  rewrite Hfresh, bool_decide_eq_false_2 by (by intros [? ?]). simpl.
  assert (heap s !! next_lot s = None) as Hnone.
  { destruct (heap s !! next_lot s) eqn:E; [|done].
    pose proof (wf_fresh _ _ _ _ _ _ Hwf (next_lot s) (mk_is_Some _ _ E)). lia. }
  split_and!; try done.
  - by rewrite lookup_insert_eq.
  - intros q Hq. by rewrite lookup_insert_ne.
  - intros b. rewrite findVaccineByBatch_add.
    rewrite lookup_total_insert_eq. simpl. case_decide; [done|].
    apply findVaccineByBatch_heap_ext. intros q Hq.
    unfold id_of. rewrite lookup_total_insert_ne; [done|]. intros <-.
    apply (wf_hash _ _ _ _ _ _ Hwf) in Hq as [Hq _].
    pose proof (wf_fresh _ _ _ _ _ _ Hwf _ (wf_alloc _ _ _ _ _ _ Hwf _ Hq)). lia.
  - intros v.
    rewrite (group_addVaccineLotToNameIndex s _ (next_lot s) hashSize v) by done.
    simpl. by rewrite lookup_total_insert_eq.
Qed.

Lemma commandC_registers_witness :
  let r := commandC "A1 01-02-2025 5 VaxX" initialState HASH_SIZE MAX_VACCINES false in
  let p := next_lot initialState in
  r.2 = ["A1"]
  ∧ heap initialState !! p = None
  ∧ heap r.1 !! p = Some (mkLot "A1" "VaxX" (mkDate 1 2 2025) 5 0 false)
  ∧ (∀ q, q ≠ p → heap r.1 !! q = heap initialState !! q)
  ∧ (∀ b, findVaccineByBatch (heap r.1) (hashTable r.1) b HASH_SIZE
          = if decide (b = "A1") then Some p
            else findVaccineByBatch (heap initialState) (hashTable initialState)
                   b HASH_SIZE)
  ∧ (∀ v, group r.1 v HASH_SIZE
          = if decide (v = "VaxX") then group initialState v HASH_SIZE ++ [p]
            else group initialState v HASH_SIZE)
  ∧ vaccineList r.1 = p :: vaccineList initialState
  ∧ inoculationList r.1 = inoculationList initialState
  ∧ userHashTable r.1 = userHashTable initialState
  ∧ currentDate r.1 = currentDate initialState.
Proof.
  refine (commandC_registers initialState "A1 01-02-2025 5 VaxX" "A1" "VaxX"
            (mkDate 1 2 2025) 5 HASH_SIZE MAX_VACCINES false _ _ _ _ _).
  - apply wf_initial.
  - vm_compute. reflexivity.
  - vm_compute. reflexivity.
  - vm_compute. reflexivity.
  - vm_compute. reflexivity.
Defined.

(** ** Giving a dose *)

Lemma records_of_add (t : gmap Z (list UserIndex)) (inoc : Inoculation)
    (size : Z) (u : string) :
  records_of (addInoculationToUserIndex t inoc size) u size
  = if decide (u = user inoc) then records_of t u size ++ [inoc]
    else records_of t u size.
Proof.
  unfold records_of at 1. rewrite findUserByName_add. by case_decide.
Qed.

(** X7: a dose that is given.  On a well-formed registry with values in range,
    when the user has no record of today for that vaccine and the allocation
    picks a lot, command A prints the id of the lot, adds one to its used
    doses (which stay within its doses) and changes no other lot, puts a
    record of the user, the lot id and the clock date at the head of the
    global list, and appends it to the user's array in the table addressed
    with [HASH_SIZE]; the arrays of the other users, the three indices of the
    lots, the counter and the clock are unchanged. *)
Theorem commandA_gives_dose (s : State) (u v : string) (hashSize : Z)
    (portuguese : bool) (p : ptr) :
  wf hashSize s → wf_range s →
  isAlreadyVaccinated s u v (currentDate s) hashSize = false →
  findOldestValidLot s v (currentDate s) hashSize = Some p →
  let r := processVaccineApplication u v s hashSize (currentDate s) portuguese in
  let vl := heap s !!! p in
  let inoc := mkInoc (next_inoc s) u (lot vl) (currentDate s) in
  r.2 = [lot vl]
  ∧ heap r.1
    = <[p := mkLot (lot vl) (name vl) (validation vl) (doses vl)
               (dosesUsed vl + 1) (isRemoved vl)]> (heap s)
  ∧ dosesUsed vl + 1 <= doses vl
  ∧ inoculationList r.1 = inoc :: inoculationList s
  ∧ (∀ u', records_of (userHashTable r.1) u' HASH_SIZE
           = if decide (u' = u)
             then records_of (userHashTable s) u' HASH_SIZE ++ [inoc]
             else records_of (userHashTable s) u' HASH_SIZE)
  ∧ hashTable r.1 = hashTable s ∧ nameHashTable r.1 = nameHashTable s
  ∧ vaccineList r.1 = vaccineList s ∧ vaccineCount r.1 = vaccineCount s
  ∧ currentDate r.1 = currentDate s.
Proof.
  intros Hwf Hrange Hnot Hfind. simpl.
  unfold processVaccineApplication. rewrite Hnot, Hfind.
  destruct (findOldestValidLot_elem _ _ _ _ _ Hfind) as [Hg Havail].
  destruct (group_listed _ _ _ _ Hwf Hg) as [Hp _].
  destruct (wf_range_lot s hashSize p Hwf Hrange Hp) as (_ & Hused & Hdoses).
  unfold isLotValidAndAvailable in Havail.
  apply andb_true_iff in Havail as [Havail _].
  apply andb_true_iff in Havail as [_ Hleft]. apply Z.gtb_lt in Hleft.
  unfold applyVaccine, use_dose. simpl.
  rewrite wrap_int_id by (unfold int_range; lia).
  split_and!; try done; [lia|].
  intros u'. apply records_of_add.
Qed.

Lemma commandA_gives_dose_witness :
  let s := three_lots in
  let r := processVaccineApplication "Alice" "VaxX" s HASH_SIZE (currentDate s) false in
  let vl := heap s !!! 2%nat in
  let inoc := mkInoc (next_inoc s) "Alice" (lot vl) (currentDate s) in
  r.2 = [lot vl]
  ∧ heap r.1
    = <[2%nat := mkLot (lot vl) (name vl) (validation vl) (doses vl)
                  (dosesUsed vl + 1) (isRemoved vl)]> (heap s)
  ∧ dosesUsed vl + 1 <= doses vl
  ∧ inoculationList r.1 = inoc :: inoculationList s
  ∧ (∀ u', records_of (userHashTable r.1) u' HASH_SIZE
           = if decide (u' = "Alice")
             then records_of (userHashTable s) u' HASH_SIZE ++ [inoc]
             else records_of (userHashTable s) u' HASH_SIZE)
  ∧ hashTable r.1 = hashTable s ∧ nameHashTable r.1 = nameHashTable s
  ∧ vaccineList r.1 = vaccineList s ∧ vaccineCount r.1 = vaccineCount s
  ∧ currentDate r.1 = currentDate s.
Proof.
  refine (commandA_gives_dose three_lots "Alice" "VaxX" HASH_SIZE false 2%nat
            _ _ _ _).
  - apply (processCommands_wf _ initialState false), wf_initial.
  - apply wf_range_three_lots.
  - vm_compute. reflexivity.
  - vm_compute. reflexivity.
Defined.

Lemma existsb_elem {A} (f : A → bool) (l : list A) (x : A) :
  x ∈ l → f x = true → existsb f l = true.
Proof.
  intros Hx Hf. apply existsb_exists. exists x.
  split; [by apply list_elem_of_In|done].
Qed.

Lemma isAlreadyVaccinated_after (s : State) (u v : string) (cur : Date) (p : ptr) :
  findOldestValidLot s v cur HASH_SIZE = Some p →
  isAlreadyVaccinated (applyVaccine u p cur s).1 u v cur HASH_SIZE = true.
Proof.
  intros Hfind. unfold isAlreadyVaccinated, applyVaccine. simpl.
  rewrite findUserByName_add, decide_True by done.
  unfold findOldestValidLot in Hfind.
  destruct (findVaccineByName (nameHashTable s) v HASH_SIZE) as [e|] eqn:He;
    [|done].
  assert (p ∈ lots e) as Hp.
  { destruct (lots e) eqn:El; [done|].
    unfold findOldestValidLotFromList in Hfind.
    apply oldest_loop_elem in Hfind as [[? _]|?]; done. }
  apply existsb_elem with (x := createInoculation (next_inoc s) u
                                  (lot (heap s !!! p)) cur).
  { set_solver. }
  unfold inoculationMatches, createInoculation. simpl.
  rewrite !Z.eqb_refl. simpl.
  apply existsb_elem with (x := p); [done|].
  rewrite lookup_total_insert_eq. simpl. apply Z.eqb_eq, strcmp_eq. done.
Qed.

(** X8: no second dose of a vaccine on the same day.  When command A has
    given a user a dose of a vaccine (the table size being [HASH_SIZE], as in
    the program), the same command repeated before the clock changes prints
    the line for a user already vaccinated and changes nothing. *)
Theorem commandA_twice (s : State) (args u v : string) (portuguese : bool)
    (p : ptr) :
  extractArguments args = Some (u, v) →
  isAlreadyVaccinated s u v (currentDate s) HASH_SIZE = false →
  findOldestValidLot s v (currentDate s) HASH_SIZE = Some p →
  let r := commandA args s HASH_SIZE (currentDate s) portuguese in
  r.2 = [lot (heap s !!! p)]
  ∧ commandA args r.1 HASH_SIZE (currentDate r.1) portuguese
    = (r.1, [msg portuguese "já vacinado" "already vaccinated"]).
Proof.
  intros Hargs Hnot Hfind.
  assert (commandA args s HASH_SIZE (currentDate s) portuguese
          = applyVaccine u p (currentDate s) s) as ->.
  { unfold commandA, processVaccineApplication. by rewrite Hargs, Hnot, Hfind. }
  split; [done|]. unfold commandA. rewrite Hargs.
  pose proof (isAlreadyVaccinated_after s u v (currentDate s) p Hfind) as Hyes.
  unfold processVaccineApplication.
  change (currentDate (applyVaccine u p (currentDate s) s).1) with (currentDate s).
  by rewrite Hyes.
Qed.

Lemma commandA_twice_witness :
  let r := commandA "Alice VaxX" three_lots HASH_SIZE (currentDate three_lots) false in
  r.2 = [lot (heap three_lots !!! 2%nat)]
  ∧ commandA "Alice VaxX" r.1 HASH_SIZE (currentDate r.1) false
    = (r.1, [msg false "já vacinado" "already vaccinated"]).
Proof.
  refine (commandA_twice three_lots "Alice VaxX" "Alice" "VaxX" false 2%nat _ _ _).
  - vm_compute. reflexivity.
  - vm_compute. reflexivity.
  - vm_compute. reflexivity.
Defined.

(** ** What holds in every state the program reaches *)

Lemma skip_delims_head (delim s : string) (x : ascii) (r : string) :
  skip_delims delim s = String x r → is_delim delim x = false.
Proof.
  induction s as [|c s IH]; simpl; [done|].
  destruct (is_delim delim c) eqn:Hc; [done|]. by intros [= -> _].
Qed.

Lemma strtok_r_token (s delim tok rest : string) :
  strtok_r s delim = Some (tok, rest) → tok ≠ "".
Proof.
  unfold strtok_r. destruct s as [|c0 s0]; [done|].
  destruct (skip_delims delim (String c0 s0)) as [|x r] eqn:Hs; [done|].
  apply skip_delims_head in Hs. cbn [span_token]. rewrite Hs.
  destruct (span_token delim r) as [tok' rest']. destruct rest'; by intros [= <- _].
Qed.

Lemma parseArgumentsC_nonempty (args batch nm : string) (validation : Date) (d : Z) :
  parseArgumentsC args = Some (batch, validation, d, nm) → batch ≠ "" ∧ nm ≠ "".
Proof.
  unfold parseArgumentsC.
  destruct (strtok_r args " ") as [[b rest1]|] eqn:H1; [|done].
  destruct (strtok_r rest1 " ") as [[t2 rest2]|]; [|done].
  destruct (parseValidationDate t2); [|done].
  destruct (strtok_r rest2 " ") as [[t3 rest3]|]; [|done].
  destruct rest3; [done|]. intros [= <- _ _ <-].
  split; [by eapply strtok_r_token|done].
Qed.

Lemma validateNewVaccine_None batch validation d nm cur portuguese :
  validateNewVaccine batch validation d nm cur portuguese = None →
  isValidBatch batch = true ∧ isValidName nm = true
  ∧ isValidDate validation cur = true ∧ 0 < d.
Proof.
  unfold validateNewVaccine.
  destruct (isValidBatch batch); simpl; [|done].
  destruct (isValidName nm); simpl; [|done].
  destruct (isValidDate validation cur); simpl; [|done].
  destruct (Z.leb_spec d 0); [done|]. done.
Qed.

Lemma isValidDate_calendar_date (d cur : Date) :
  isValidDate d cur = true → calendar_date d.
Proof.
  rewrite isValidDate_isDateFormatValid, andb_true_iff.
  intros [Hd _]. by apply isDateFormatValid_spec.
Qed.

Lemma commandC_inv hashSize args s portuguese :
  wf hashSize s → reg_inv s →
  reg_inv (commandC args s hashSize MAX_VACCINES portuguese).1.
Proof.
  intros Hwf [Hlots Hlisted Hcount]. unfold commandC.
  destruct (parseArgumentsC args) as [[[[batch validation] d] nm]|] eqn:Hparse;
    [|done].
  destruct (parseArgumentsC_range _ _ _ _ _ Hparse) as [Hvr Hdr].
  destruct (parseArgumentsC_nonempty _ _ _ _ _ Hparse) as [Hb Hn].
  destruct (validateNewVaccine _ _ _ _ _ _) eqn:Hval; [done|].
  apply validateNewVaccine_None in Hval as (Hvb & Hvn & Hvd & Hd).
  unfold addNewVaccineToSystem.
  destruct (Z.geb_spec (vaccineCount s) MAX_VACCINES); [done|].
  case_bool_decide; [done|]. split; simpl.
  - apply map_Forall_insert_2; [|done]. unfold lot_inv, createVaccineLot. simpl.
    split_and!; try done.
    + by eapply isValidDate_calendar_date.
    + lia.
    + unfold int_range in Hdr. lia.
  - intros p [vl Hp]. destruct (decide (p = next_lot s)) as [->|Hne];
      [by apply elem_of_cons; left|].
    rewrite lookup_insert_ne in Hp by done. apply elem_of_cons. right.
    apply Hlisted. by eexists.
  - assert (int_range (vaccineCount s + 1)) as Hr
      by (unfold int_range, MAX_VACCINES in *; lia).
    rewrite (wrap_int_id _ Hr).
    change (Z.of_nat (S (length (vaccineList s))) <= vaccineCount s + 1 <= MAX_VACCINES).
    unfold MAX_VACCINES in *. lia.
Qed.

Lemma commandA_inv hashSize args s portuguese :
  wf hashSize s → reg_inv s →
  reg_inv (commandA args s hashSize (currentDate s) portuguese).1.
Proof.
  intros Hwf [Hlots Hlisted Hcount]. unfold commandA.
  destruct (extractArguments args) as [[u v]|]; [|done].
  unfold processVaccineApplication. destruct (isAlreadyVaccinated _ _ _ _ _); [done|].
  destruct (findOldestValidLot _ _ _ _) as [p|] eqn:Hf; [|done].
  apply findOldestValidLot_elem in Hf as [Hp Hv].
  apply (group_listed hashSize s v p Hwf) in Hp as [Hp _].
  destruct (wf_alloc _ _ _ _ _ _ Hwf p Hp) as [vl Hvl].
  pose proof (Hlots p vl Hvl) as (Hb & Hn & Hd & Hu & Hdoses & Hrem).
  rewrite (lookup_total_correct _ _ _ Hvl) in Hv.
  unfold isLotValidAndAvailable in Hv.
  apply andb_true_iff in Hv as [[Hnr%negb_true_iff Hgt%Z.gtb_lt]%andb_true_iff _].
  split; simpl.
  - apply map_Forall_insert_2; [|done].
    rewrite (lookup_total_correct _ _ _ Hvl). unfold lot_inv, use_dose. simpl.
    rewrite wrap_int_id by (unfold int_range; lia).
    split_and!; try tauto; try lia. intros ?; congruence.
  - intros q [vl' Hq]. apply Hlisted.
    destruct (decide (q = p)) as [->|Hne]; [by eexists|].
    rewrite lookup_insert_ne in Hq by done. by eexists.
  - done.
Qed.

Lemma commandR_inv hashSize args s portuguese :
  wf hashSize s → reg_inv s →
  reg_inv (commandR args s hashSize portuguese).1.
Proof.
  intros Hwf [Hlots Hlisted Hcount]. unfold commandR. destruct args as [|c a]; [done|].
  destruct (findVaccineByBatch _ _ _ _) as [p|] eqn:Hf; [|done].
  pose proof Hf as [Hp Hid]%(findVaccineByBatch_spec Hwf).
  destruct (wf_alloc _ _ _ _ _ _ Hwf p Hp) as [vl Hvl].
  pose proof (Hlots p vl Hvl) as (Hb & Hn & Hd & Hu & Hdoses & Hrem).
  rewrite (lookup_total_correct _ _ _ Hvl).
  destruct (Z.eqb_spec (dosesUsed vl) 0) as [H0|H0]; simpl.
  - unfold handleUnusedVaccineLot. rewrite Hf.
    unfold removeVaccineFromHash. rewrite hashBatch_hashString.
    unfold findVaccineByBatch in Hf. rewrite Hf. split; simpl.
    + by apply map_Forall_delete.
    + intros q [vl' Hq]. apply lookup_delete_Some in Hq as [Hne Hq].
      rewrite <-Hid. apply removeVaccineFromList_elem; [apply Hwf|done|].
      split; [|done]. apply Hlisted. by eexists.
    + pose proof (sublist_length _ _
        (removeVaccineFromList_sublist (heap s) (vaccineList s) (String c a))).
      lia.
  - split; simpl; [|intros q [vl' Hq]|done].
    + apply map_Forall_insert_2; [|done].
      rewrite (lookup_total_correct _ _ _ Hvl). unfold lot_inv, freeze. simpl.
      split_and!; try tauto; lia.
    + apply Hlisted. destruct (decide (q = p)) as [->|Hne]; [by eexists|].
      rewrite lookup_insert_ne in Hq by done. by eexists.
Qed.

Lemma reg_inv_lots_eq (s s' : State) :
  heap s' = heap s → vaccineList s' = vaccineList s →
  vaccineCount s' = vaccineCount s → reg_inv s → reg_inv s'.
Proof. intros Hh Hl Hc [? ? ?]. split; by rewrite ?Hh, ?Hl, ?Hc. Qed.

Lemma handleCommand_inv hashSize cmd args s portuguese :
  wf hashSize s → reg_inv s →
  reg_inv (handleCommand cmd args s hashSize MAX_VACCINES portuguese).1.
Proof.
  intros Hwf Hinv. unfold handleCommand.
  repeat case_match; try done.
  - by apply commandC_inv.
  - eapply reg_inv_lots_eq; [..|done]; unfold commandT; by repeat case_match.
  - by apply commandA_inv.
  - by apply commandR_inv.
  - eapply reg_inv_lots_eq; [..|done]; apply commandD_lots.
Qed.

Lemma reg_inv_initial : reg_inv initialState.
Proof.
  split; simpl.
  - apply map_Forall_empty.
  - intros p [vl Hp]. by rewrite lookup_empty in Hp.
  - unfold MAX_VACCINES. lia.
Qed.

Lemma processCommands_invariant (P : State → Prop) lines s portuguese :
  (∀ cmd args s, P s →
     P (handleCommand cmd args s HASH_SIZE MAX_VACCINES portuguese).1) →
  P s → P (processCommands lines s portuguese).1.
Proof.
  intros Hstep. revert s. induction lines as [|command lines IH]; intros s HP; [done|].
  simpl.
  assert (P (processLine command s portuguese).1) as HP1.
  { unfold processLine. destruct command; [done|]. by apply Hstep. }
  destruct (processLine command s portuguese) as [s1 out1].
  specialize (IH s1 HP1). destruct (processCommands lines s1 portuguese).
  destruct command as [|c r]; [done|].
  destruct c as [[] [] [] [] [] [] [] []]; done.
Qed.

Lemma registry_after_inv lines portuguese :
  wf HASH_SIZE (registry_after lines portuguese)
  ∧ reg_inv (registry_after lines portuguese).
Proof.
  unfold registry_after.
  apply (processCommands_invariant (λ s, wf HASH_SIZE s ∧ reg_inv s)).
  - intros cmd args s [Hwf Hinv]. split; [by apply handleCommand_wf|].
    by apply handleCommand_inv.
  - split; [apply wf_initial|apply reg_inv_initial].
Qed.

(** X9: every lot the registry holds is sound.  Whatever lines the program
    has read, each stored lot has an id and a name that pass the checks of
    command C and are not empty, an expiry date of the calendar, used doses
    between zero and its doses, at least one dose, and, when it is removed,
    at least one used dose and no dose left; and each stored lot is in the
    global list. *)
Theorem reachable_lots_sound (lines : list string) (portuguese : bool) :
  let s := registry_after lines portuguese in
  map_Forall (λ _ vl, lot_inv vl) (heap s)
  ∧ map_Forall (λ p _, p ∈ vaccineList s) (heap s).
Proof.
  destruct (registry_after_inv lines portuguese) as [_ [Hlots Hlisted _]].
  split; [done|]. intros p vl Hp. apply Hlisted. by eexists.
Qed.

(** X10: the three indices of the lots agree.  Whatever lines the program has
    read: the id search finds a lot exactly when the lot is in the global
    list under that id, no two listed lots share an id, a lot is in the group
    of a name exactly when it is listed under that name, no group holds a lot
    twice, and every listed lot is stored. *)
Theorem reachable_indices_agree (lines : list string) (portuguese : bool) :
  let s := registry_after lines portuguese in
  (∀ batch p,
     findVaccineByBatch (heap s) (hashTable s) batch HASH_SIZE = Some p
     ↔ p ∈ vaccineList s ∧ lot (heap s !!! p) = batch)
  ∧ NoDup ((λ p, lot (heap s !!! p)) <$> vaccineList s)
  ∧ (∀ v p, p ∈ group s v HASH_SIZE
            ↔ p ∈ vaccineList s ∧ name (heap s !!! p) = v)
  ∧ (∀ v, NoDup (group s v HASH_SIZE))
  ∧ Forall (λ p, is_Some (heap s !! p)) (vaccineList s).
Proof.
  destruct (registry_after_inv lines portuguese) as [Hwf _]. simpl.
  set (s := registry_after lines portuguese) in *. split_and!.
  - intros batch p. apply (findVaccineByBatch_spec Hwf).
  - apply Hwf.
  - intros v p. split; [by apply group_listed|]. intros [Hp Hv].
    destruct (wf_lot_in_group Hwf p Hp) as (e & He & Hpe).
    unfold group. fold (name_of (heap s) p) in Hv. rewrite <-Hv, He. done.
  - intros v. unfold group.
    destruct (findVaccineByName _ _ _) as [e|] eqn:He; [|constructor].
    by destruct (wf_group_found Hwf v e He).
  - apply Forall_forall. intros p Hp. by apply (wf_alloc _ _ _ _ _ _ Hwf).
Qed.

Lemma handleCommand_count hashSize cmd args s portuguese :
  vaccineCount s <= MAX_VACCINES →
  vaccineCount s
  <= vaccineCount (handleCommand cmd args s hashSize MAX_VACCINES portuguese).1.
Proof.
  intros Hc. unfold handleCommand. repeat case_match; try done.
  - unfold commandC, addNewVaccineToSystem. repeat case_match; try done. simpl.
    destruct (Z.geb_spec (vaccineCount s) MAX_VACCINES); [done|].
    destruct (decide (- 2 ^ 31 <= vaccineCount s)).
    + rewrite wrap_int_id by (unfold int_range, MAX_VACCINES in *; lia). lia.
    + pose proof (wrap_int_range (vaccineCount s + 1)) as Hr.
      unfold int_range in Hr. lia.
  - unfold commandT; by repeat case_match.
  - unfold commandA, processVaccineApplication, applyVaccine. by repeat case_match.
  - unfold commandR, handleUnusedVaccineLot, handleUsedVaccineLot,
      removeVaccineFromHash. by repeat case_match.
  - by destruct (commandD_lots args s hashSize (currentDate s) portuguese)
      as (_ & _ & _ & _ & -> & _).
Qed.

(** X11: the counter of command C never goes down.  Whatever lines the program
    has read, the counter that command C compares with the cap is at least
    the number of listed lots and at most the cap, and no command lowers it:
    removing a lot gives no room for a new one. *)
Theorem reachable_count_monotone (lines : list string) (portuguese : bool)
    (cmd : ascii) (args : string) :
  let s := registry_after lines portuguese in
  let s' := (handleCommand cmd args s HASH_SIZE MAX_VACCINES portuguese).1 in
  Z.of_nat (length (vaccineList s)) <= vaccineCount s <= MAX_VACCINES
  ∧ vaccineCount s <= vaccineCount s'
  ∧ Z.of_nat (length (vaccineList s')) <= vaccineCount s' <= MAX_VACCINES.
Proof.
  destruct (registry_after_inv lines portuguese) as [Hwf Hinv]. simpl.
  pose proof (handleCommand_inv HASH_SIZE cmd args _ portuguese Hwf Hinv) as Hinv'.
  split; [apply Hinv|]. split; [apply handleCommand_count, Hinv|apply Hinv'].
Qed.

(** ** The inoculations: the global list and the arrays of the users *)

Lemma inoculationMatchesCriteria_spec (i : Inoculation) (args : DeleteArgs) :
  inoculationMatchesCriteria i args = true ↔ to_delete args i.
Proof.
  unfold inoculationMatchesCriteria, to_delete, datesEqual.
  rewrite strcmp_eqb. case_bool_decide as Hu; simpl; [|split; [done|tauto]].
  destruct (da_date args) as [d|]; [|tauto].
  destruct (Z.eqb_spec (day (date i)) (day d)); simpl;
    [|split; [done|intros (_ & <- & _); done]].
  destruct (Z.eqb_spec (month (date i)) (month d)); simpl;
    [|split; [done|intros (_ & <- & _); done]].
  destruct (Z.eqb_spec (year (date i)) (year d)); simpl;
    [|split; [done|intros (_ & <- & _); done]].
  assert (date i = d) as Hd by (by apply Date_eq).
  destruct (da_lotId args) as [l|]; [|tauto].
  rewrite strcmp_eqb, bool_decide_eq_true. tauto.
Qed.

Lemma index_of_inoc_found (l : list Inoculation) (x : Inoculation) :
  NoDup (inoc_addr <$> l) → x ∈ l →
  ∃ i, index_of_inoc l x = Some i ∧ l !! i = Some x.
Proof.
  induction l as [|y l IH]; intros Hnd Hx; [by apply elem_of_nil in Hx|].
  apply NoDup_cons in Hnd as [Hy Hnd]. simpl.
  destruct (Nat.eqb_spec (inoc_addr y) (inoc_addr x)) as [Heq|Hne].
  - exists 0%nat. split; [done|]. simpl. f_equal.
    apply elem_of_cons in Hx as [->|Hx]; [done|].
    exfalso. apply Hy. rewrite Heq. apply list_elem_of_fmap. by exists x.
  - apply elem_of_cons in Hx as [->|Hx]; [done|].
    destruct (IH Hnd Hx) as (i & -> & Hi). by exists (S i).
Qed.

Lemma removeInoculationFromUser_perm (inocs rest : list Inoculation)
    (x : Inoculation) :
  NoDup (inoc_addr <$> inocs) → inocs ≡ₚ x :: rest →
  removeInoculationFromUser inocs x ≡ₚ rest.
Proof.
  intros Hnd Hperm. unfold removeInoculationFromUser.
  destruct (index_of_inoc_found inocs x Hnd) as (i & -> & Hi).
  { rewrite Hperm. by apply elem_of_cons; left. }
  rewrite (swap_remove_perm _ _ _ Hi).
  apply (Permutation_cons_inv (a := x)).
  by rewrite <-(delete_Permutation _ _ _ Hi).
Qed.

Lemma remove_loop_spec (args : DeleteArgs) (l : list Inoculation) (count : Z)
    (inocs K : list Inoculation) :
  NoDup (inoc_addr <$> (l ++ K)) →
  inocs ≡ₚ records_in l (da_userName args) ++ K →
  ∃ c inocs',
    remove_loop args l count inocs
    = (c, inocs', filter (λ i, ¬ to_delete args i) l)
    ∧ inocs' ≡ₚ records_in (filter (λ i, ¬ to_delete args i) l) (da_userName args)
                ++ K.
Proof.
  revert count inocs K. induction l as [|x l IH]; intros count inocs K Hnd Hperm.
  { by eexists _, _. }
  cbn [remove_loop].
  destruct (inoculationMatchesCriteria x args) eqn:Hm.
  - apply inoculationMatchesCriteria_spec in Hm.
    rewrite filter_cons_False by (by intros ?).
    unfold records_in in Hperm. rewrite filter_cons_True in Hperm by apply Hm.
    apply IH.
    + by apply NoDup_cons in Hnd as [_ ?].
    + apply removeInoculationFromUser_perm; [|done].
      rewrite Hperm. csimpl. rewrite fmap_app. csimpl in Hnd. rewrite fmap_app in Hnd.
      apply NoDup_cons in Hnd as [Hx Hnd]. apply NoDup_cons. split.
      * intros Hin. apply Hx. apply elem_of_app in Hin as [Hin|Hin];
          apply elem_of_app; [left|by right].
        apply list_elem_of_fmap in Hin as (y & -> & Hy).
        apply list_elem_of_fmap. exists y. split; [done|].
        by apply list_elem_of_filter in Hy as [_ ?].
      * apply NoDup_app in Hnd as (Hl & Hdisj & HK).
        apply NoDup_app. split_and!; [|..|done].
        -- eapply sublist_NoDup; [exact Hl|].
           apply fmap_sublist, sublist_filter.
        -- intros a Ha. apply Hdisj.
           apply list_elem_of_fmap in Ha as (y & -> & Hy).
           apply list_elem_of_fmap. exists y. split; [done|].
           by apply list_elem_of_filter in Hy as [_ ?].
  - assert (¬ to_delete args x) as Hn.
    { intros Hd. apply inoculationMatchesCriteria_spec in Hd. congruence. }
    rewrite filter_cons_True by done.
    destruct (decide (user x = da_userName args)) as [Hu|Hu].
    + destruct (IH count inocs (x :: K)) as (c & inocs' & Heq & Hp').
      * assert (l ++ x :: K ≡ₚ (x :: l) ++ K) as ->; [|done].
        simpl. by rewrite Permutation_middle.
      * rewrite Hperm. unfold records_in. rewrite filter_cons_True by done.
        simpl. by rewrite Permutation_middle.
      * rewrite Heq. eexists _, _. split; [done|]. rewrite Hp'.
        unfold records_in. rewrite filter_cons_True by done.
        simpl. by rewrite Permutation_middle.
    + destruct (IH count inocs K) as (c & inocs' & Heq & Hp').
      * simpl in Hnd. by apply NoDup_cons in Hnd as [_ ?].
      * rewrite Hperm. unfold records_in. by rewrite filter_cons_False by done.
      * rewrite Heq. eexists _, _. split; [done|]. rewrite Hp'.
        unfold records_in. by rewrite filter_cons_False by done.
Qed.

Lemma remove_loop_list (args : DeleteArgs) (l : list Inoculation) (count : Z)
    (inocs : list Inoculation) :
  (remove_loop args l count inocs).2 = filter (λ i, ¬ to_delete args i) l.
Proof.
  revert count inocs. induction l as [|x l IH]; intros count inocs; [done|].
  cbn [remove_loop]. destruct (inoculationMatchesCriteria x args) eqn:Hm.
  - apply inoculationMatchesCriteria_spec in Hm.
    rewrite filter_cons_False by (by intros ?). apply IH.
  - assert (¬ to_delete args x) as Hn.
    { intros Hd. apply inoculationMatchesCriteria_spec in Hd. congruence. }
    rewrite filter_cons_True by done. specialize (IH count inocs).
    destruct (remove_loop args l count inocs) as [[c u] g]. simpl in *. by rewrite IH.
Qed.

Lemma remove_loop_count (args : DeleteArgs) (l : list Inoculation) (count : Z)
    (inocs : list Inoculation) :
  0 <= count → count + Z.of_nat (length l) < 2 ^ 31 →
  (remove_loop args l count inocs).1.1
  = count + Z.of_nat (length (filter (to_delete args) l)).
Proof.
  revert count inocs. induction l as [|x l IH]; intros count inocs Hc Hlen.
  { simpl. lia. }
  cbn [remove_loop]. rewrite length_cons in Hlen.
  destruct (inoculationMatchesCriteria x args) eqn:Hm.
  - apply inoculationMatchesCriteria_spec in Hm.
    rewrite filter_cons_True by done. rewrite length_cons.
    rewrite wrap_int_id by (unfold int_range; lia).
    rewrite IH by lia. lia.
  - assert (¬ to_delete args x) as Hn.
    { intros Hd. apply inoculationMatchesCriteria_spec in Hd. congruence. }
    rewrite filter_cons_False by done. specialize (IH count inocs Hc).
    destruct (remove_loop args l count inocs) as [[c u] g]. simpl in *.
    apply IH. lia.
Qed.

Lemma findUserByName_update (t : gmap Z (list UserIndex)) (u u' : string)
    (size : Z) (f : UserIndex → UserIndex) :
  (∀ e, userName (f e) = userName e) →
  findUserByName
    (<[hashString u size :=
         update_chain userName (bucket t (hashString u size)) u f]> t) u' size
  = if decide (u' = u) then f <$> findUserByName t u size
    else findUserByName t u' size.
Proof.
  intros Hf. unfold findUserByName. rewrite bucket_insert. case_decide as Hi.
  - rewrite find_chain_update_chain by done. case_decide; [done|by rewrite Hi].
  - case_decide; [congruence|done].
Qed.

Lemma records_in_not_deleted (args : DeleteArgs) (l : list Inoculation) (u : string) :
  u ≠ da_userName args →
  records_in (filter (λ i, ¬ to_delete args i) l) u = records_in l u.
Proof.
  intros Hu. unfold records_in. induction l as [|x l IH]; [done|].
  destruct (decide (to_delete args x)) as [Hd|Hd].
  - rewrite (filter_cons_False (λ i, ¬ to_delete args i)) by (by intros ?).
    rewrite (filter_cons_False (λ i, user i = u)); [done|].
    destruct Hd as [Hx _]. congruence.
  - rewrite (filter_cons_True (λ i, ¬ to_delete args i)) by done.
    destruct (decide (user x = u)).
    + rewrite !(filter_cons_True (λ i, user i = u)) by done. by rewrite IH.
    + rewrite !(filter_cons_False (λ i, user i = u)) by done. done.
Qed.

Lemma removeMatchingInoculations_inv (s : State) (args : DeleteArgs) :
  users_inv s → users_inv (removeMatchingInoculations s args HASH_SIZE).1.
Proof.
  intros [Haddr Hfresh Hrec]. unfold removeMatchingInoculations.
  destruct (findUserByName (userHashTable s) (da_userName args) HASH_SIZE)
    as [e|] eqn:He; [|done].
  destruct (remove_loop_spec args (inoculationList s) 0 (inoculations e) [])
    as (c & inocs' & Heq & Hperm).
  { by rewrite app_nil_r. }
  { rewrite app_nil_r, <-(Hrec (da_userName args)). unfold records_of. by rewrite He. }
  rewrite Heq. rewrite app_nil_r in Hperm. split; simpl.
  - eapply sublist_NoDup; [exact Haddr|]. apply fmap_sublist, sublist_filter.
  - apply Forall_forall. intros i [_ Hi]%list_elem_of_filter.
    by apply (proj1 (Forall_forall _ _) Hfresh).
  - intros u. unfold records_of. rewrite findUserByName_update by done.
    case_decide as Hu.
    + subst u. rewrite He. simpl. done.
    + rewrite records_in_not_deleted by done. apply Hrec.
Qed.

Lemma users_inv_eq (s s' : State) :
  userHashTable s' = userHashTable s → inoculationList s' = inoculationList s →
  next_inoc s' = next_inoc s → users_inv s → users_inv s'.
Proof. intros Hu Hl Hn [? ? ?]. split; by rewrite ?Hu, ?Hl, ?Hn. Qed.

Lemma applyVaccine_users_inv (u : string) (p : ptr) (cur : Date) (s : State) :
  users_inv s → users_inv (applyVaccine u p cur s).1.
Proof.
  intros [Haddr Hfresh Hrec]. unfold applyVaccine. split; simpl.
  - apply NoDup_cons. split; [|done]. intros Hin.
    apply list_elem_of_fmap in Hin as (i & Heq & Hi).
    pose proof (proj1 (Forall_forall _ _) Hfresh i Hi) as Hlt. simpl in Hlt. lia.
  - apply Forall_cons. split; [simpl; lia|].
    eapply Forall_impl; [exact Hfresh|]. intros i Hi. simpl in *. lia.
  - intros u'. rewrite records_of_add. simpl. unfold records_in.
    case_decide as Hu.
    + subst u'. rewrite filter_cons_True by done.
      rewrite Hrec. unfold records_in. by rewrite <-Permutation_cons_append.
    + rewrite filter_cons_False by (simpl; congruence). apply Hrec.
Qed.

Lemma handleCommand_users_inv cmd args s maxVaccines portuguese :
  users_inv s →
  users_inv (handleCommand cmd args s HASH_SIZE maxVaccines portuguese).1.
Proof.
  intros Hinv. unfold handleCommand. repeat case_match; try done.
  - eapply users_inv_eq; [..|done];
      unfold commandC, addNewVaccineToSystem; by repeat case_match.
  - eapply users_inv_eq; [..|done]; unfold commandT; by repeat case_match.
  - unfold commandA, processVaccineApplication. repeat case_match; try done.
    by apply applyVaccine_users_inv.
  - eapply users_inv_eq; [..|done];
      unfold commandR, handleUnusedVaccineLot, handleUsedVaccineLot,
        removeVaccineFromHash; by repeat case_match.
  - unfold commandD. repeat case_match; try done.
    match goal with
    | H : removeMatchingInoculations _ ?da _ = _ |- _ =>
        pose proof (removeMatchingInoculations_inv s da Hinv) as Hinv';
        by rewrite H in Hinv'
    end.
Qed.

Lemma users_inv_initial : users_inv initialState.
Proof.
  split; simpl; [constructor|constructor|]. intros u.
  unfold records_of, findUserByName. by rewrite bucket_empty.
Qed.

Lemma registry_after_users_inv lines portuguese :
  users_inv (registry_after lines portuguese).
Proof.
  unfold registry_after. apply processCommands_invariant.
  - intros cmd args s. apply handleCommand_users_inv.
  - apply users_inv_initial.
Qed.

Lemma records_in_rev (l : list Inoculation) (u : string) :
  records_in (rev l) u ≡ₚ records_in l u.
Proof. unfold records_in. by rewrite <-Permutation_rev. Qed.

(** X12: the listing of a user against the full listing.  Whatever lines the
    program has read, command U with a user name prints the lines that the
    full listing has for the records of that user, in some order, and the
    line for an unknown user exactly when the full listing has no record of
    that user. *)
Theorem listing_by_user_agrees (lines : list string) (portuguese : bool)
    (u : string) :
  let s := registry_after lines portuguese in
  match records_in (rev (inoculationList s)) u with
  | [] =>
      listInoculationsByUser u s HASH_SIZE portuguese
      = [u +:+ msg portuguese ": utente inexistente" ": no such user"]
  | mine =>
      listInoculationsByUser u s HASH_SIZE portuguese ≡ₚ printInoculation <$> mine
  end.
Proof.
  simpl. pose proof (registry_after_users_inv lines portuguese) as [_ _ Hrec].
  specialize (Hrec u). rewrite <-records_in_rev in Hrec.
  unfold listInoculationsByUser. unfold records_of in Hrec.
  destruct (records_in (rev (inoculationList (registry_after lines portuguese))) u)
    as [|x mine] eqn:Hmine.
  - apply Permutation_nil_r in Hrec.
    destruct (findUserByName _ _ _) as [e|]; [|done]. by rewrite Hrec.
  - destruct (findUserByName _ _ _) as [e|].
    + destruct (inoculations e) as [|y l] eqn:He.
      * by apply Permutation_nil_cons in Hrec.
      * by rewrite Hrec.
    + by apply Permutation_nil_cons in Hrec.
Qed.

Lemma processDeleteArgs_Some args cur portuguese da out :
  processDeleteArgs args cur portuguese = (Some da, out) → out = [].
Proof.
  unfold processDeleteArgs. repeat case_match; congruence.
Qed.

(** X13: what command D deletes.  When the arguments parse and the user has
    records: with a lot id that is not registered, the line for an unknown
    lot is printed and nothing changes; otherwise the global list keeps, in
    their order, exactly the records that are not of that user, date (when
    given) and lot (when given), and the number of the records dropped is
    printed (the list being shorter than 2^31). *)
Theorem commandD_deletes (s : State) (args : string) (da : DeleteArgs)
    (hashSize : Z) (cur : Date) (portuguese : bool) :
  processDeleteArgs args cur portuguese = (Some da, []) →
  records_of (userHashTable s) (da_userName da) hashSize ≠ [] →
  Z.of_nat (length (inoculationList s)) < 2 ^ 31 →
  let r := commandD args s hashSize cur portuguese in
  match da_lotId da with
  | Some l =>
      findVaccineByBatch (heap s) (hashTable s) l hashSize = None →
      r = (s, [l +:+ msg portuguese ": lote inexistente" ": no such batch"])
  | None => True
  end
  ∧ ((∀ l, da_lotId da = Some l →
           is_Some (findVaccineByBatch (heap s) (hashTable s) l hashSize)) →
     inoculationList r.1 = filter (λ i, ¬ to_delete da i) (inoculationList s)
     ∧ r.2 = [pretty (Z.of_nat (length (filter (to_delete da) (inoculationList s))))]).
Proof.
  intros Hparse Hrec Hlen. simpl. unfold commandD. rewrite Hparse.
  unfold records_of in Hrec.
  destruct (findUserByName (userHashTable s) (da_userName da) hashSize)
    as [e|] eqn:He; [|done].
  unfold validateUser. destruct (inoculations e) as [|x0 l0] eqn:Hie; [done|].
  unfold validateLot. split.
  - destruct (da_lotId da) as [l|]; [|done]. by intros ->.
  - intros Hlot.
    assert (match da_lotId da with
            | Some l =>
                match findVaccineByBatch (heap s) (hashTable s) l hashSize with
                | Some _ => None
                | None => Some (l +:+ msg portuguese ": lote inexistente"
                                        ": no such batch")
                end
            | None => None
            end = None) as ->.
    { destruct (da_lotId da) as [l|]; [|done]. by destruct (Hlot l eq_refl) as [? ->]. }
    unfold removeMatchingInoculations. rewrite He, Hie.
    pose proof (remove_loop_list da (inoculationList s) 0 (x0 :: l0)) as Hl.
    pose proof (remove_loop_count da (inoculationList s) 0 (x0 :: l0)) as Hc.
    destruct (remove_loop da (inoculationList s) 0 (x0 :: l0)) as [[c inocs] g].
    simpl in *. split; [done|]. rewrite Hc by lia. done.
Qed.

Lemma commandD_deletes_witness :
  let s := (processCommands three_doses initialState false).1 in
  let da := mkDeleteArgs "Alice" (Some (mkDate 2 1 2025)) (Some "A1F") in
  let r := commandD "Alice 02-01-2025 A1F" s HASH_SIZE (currentDate s) false in
  match da_lotId da with
  | Some l =>
      findVaccineByBatch (heap s) (hashTable s) l HASH_SIZE = None →
      r = (s, [l +:+ msg false ": lote inexistente" ": no such batch"])
  | None => True
  end
  ∧ ((∀ l, da_lotId da = Some l →
           is_Some (findVaccineByBatch (heap s) (hashTable s) l HASH_SIZE)) →
     inoculationList r.1 = filter (λ i, ¬ to_delete da i) (inoculationList s)
     ∧ r.2 = [pretty (Z.of_nat (length (filter (to_delete da) (inoculationList s))))]).
Proof.
  refine (commandD_deletes (processCommands three_doses initialState false).1
            "Alice 02-01-2025 A1F"
            (mkDeleteArgs "Alice" (Some (mkDate 2 1 2025)) (Some "A1F"))
            HASH_SIZE _ false _ _ _).
  - vm_compute. reflexivity.
  - vm_compute. discriminate.
  - vm_compute. reflexivity.
Defined.

Lemma records_in_deleted_all (u : string) (l : list Inoculation) :
  records_in (filter (λ i, ¬ to_delete (mkDeleteArgs u None None) i) l) u = [].
Proof.
  unfold records_in. induction l as [|x l IH]; [done|].
  destruct (decide (user x = u)) as [Hu|Hu].
  - rewrite filter_cons_False; [done|]. intros Hn. by apply Hn.
  - rewrite filter_cons_True by (by intros [? _]).
    by rewrite filter_cons_False.
Qed.

(** X14: deleting all the records of a user.  Whatever lines the program has
    read, after command D with a user name alone the user has no record left,
    in the global list or in the user's array; command U for that user then
    prints the line for an unknown user, and so does command D repeated. *)
Theorem commandD_all_then_none (lines : list string) (portuguese : bool)
    (args u : string) :
  let s := registry_after lines portuguese in
  processDeleteArgs args (currentDate s) portuguese
  = (Some (mkDeleteArgs u None None), []) →
  let r := commandD args s HASH_SIZE (currentDate s) portuguese in
  records_in (inoculationList r.1) u = []
  ∧ records_of (userHashTable r.1) u HASH_SIZE = []
  ∧ listInoculationsByUser u r.1 HASH_SIZE portuguese
    = [u +:+ msg portuguese ": utente inexistente" ": no such user"]
  ∧ commandD args r.1 HASH_SIZE (currentDate r.1) portuguese
    = (r.1, [u +:+ msg portuguese ": utente inexistente" ": no such user"]).
Proof.
  intros s Hparse r.
  pose proof (registry_after_users_inv lines portuguese) as Hinv. fold s in Hinv.
  assert (users_inv r.1) as Hinv'.
  { exact (handleCommand_users_inv "d" args s MAX_VACCINES portuguese Hinv). }
  assert (currentDate r.1 = currentDate s) as Hcur.
  { apply (commandD_lots args s HASH_SIZE (currentDate s) portuguese). }
  assert (records_in (inoculationList r.1) u = []) as Hnone.
  { subst r. unfold commandD. rewrite Hparse. cbn [da_userName].
    destruct (validateUser _ _ _) eqn:Hv; cbn [fst].
    - unfold validateUser in Hv. destruct Hinv as [_ _ Hrec]. specialize (Hrec u).
      unfold records_of in Hrec. apply Permutation_nil_r. rewrite <-Hrec.
      destruct (findUserByName _ _ _) as [e|]; [|done].
      by destruct (inoculations e).
    - unfold validateLot. cbn [da_lotId]. unfold removeMatchingInoculations.
      cbn [da_userName].
      destruct (findUserByName _ _ _) as [e|] eqn:He; [|done].
      pose proof (remove_loop_list (mkDeleteArgs u None None) (inoculationList s) 0
                    (inoculations e)) as Hl.
      destruct (remove_loop _ _ _ _) as [[c inocs] g]. cbn in Hl. subst g.
      cbn [fst set_inoculations inoculationList]. apply records_in_deleted_all. }
  assert (records_of (userHashTable r.1) u HASH_SIZE = []) as Hnone'.
  { apply Permutation_nil_r. rewrite <-Hnone. apply (ui_records _ Hinv'). }
  split; [done|]. split; [done|]. unfold records_of in Hnone'. split.
  - unfold listInoculationsByUser.
    destruct (findUserByName _ _ _) as [e|]; [|done]. by rewrite Hnone'.
  - unfold commandD. rewrite Hcur, Hparse. cbn [da_userName]. unfold validateUser.
    destruct (findUserByName _ _ _) as [e|]; [|done]. by rewrite Hnone'.
Qed.

Lemma commandD_all_then_none_witness :
  let s := registry_after three_doses false in
  let r := commandD "Alice" s HASH_SIZE (currentDate s) false in
  records_in (inoculationList r.1) "Alice" = []
  ∧ records_of (userHashTable r.1) "Alice" HASH_SIZE = []
  ∧ listInoculationsByUser "Alice" r.1 HASH_SIZE false
    = ["Alice" +:+ msg false ": utente inexistente" ": no such user"]
  ∧ commandD "Alice" r.1 HASH_SIZE (currentDate r.1) false
    = (r.1, ["Alice" +:+ msg false ": utente inexistente" ": no such user"]).
Proof.
  refine (commandD_all_then_none three_doses false "Alice" "Alice" _).
  vm_compute. reflexivity.
Defined.

Lemma StronglySorted_filter {A} (R : relation A) (P : A → Prop)
    `{∀ x, Decision (P x)} (l : list A) :
  StronglySorted R l → StronglySorted R (filter P l).
Proof.
  induction 1 as [|x l Hs IH Hx]; [constructor|].
  destruct (decide (P x)).
  - rewrite filter_cons_True by done. constructor; [done|].
    apply Forall_forall. intros y [_ Hy]%list_elem_of_filter.
    by apply (proj1 (Forall_forall _ _) Hx).
  - by rewrite filter_cons_False.
Qed.

Lemma StronglySorted_rev_flip {A} (R : relation A) (l : list A) :
  StronglySorted R l → StronglySorted (flip R) (rev l).
Proof.
  induction 1 as [|x l Hs IH Hx]; [constructor|]. simpl.
  apply StronglySorted_app_2; [|done|repeat constructor].
  intros a b Ha Hb. apply list_elem_of_singleton in Hb as ->.
  apply (proj1 (Forall_forall _ _) Hx). by apply list_elem_of_In, in_rev, list_elem_of_In.
Qed.

Lemma removeMatchingInoculations_list (s : State) (da : DeleteArgs) (hashSize : Z) :
  let s1 := (removeMatchingInoculations s da hashSize).1 in
  (inoculationList s1 = inoculationList s
   ∨ inoculationList s1 = filter (λ i, ¬ to_delete da i) (inoculationList s))
  ∧ next_inoc s1 = next_inoc s.
Proof.
  unfold removeMatchingInoculations.
  destruct (findUserByName _ _ _) as [e|]; [|by split; [left|]].
  pose proof (remove_loop_list da (inoculationList s) 0 (inoculations e)) as Hl.
  destruct (remove_loop _ _ _ _) as [[c inocs] g]. simpl in *. subst g.
  by split; [right|].
Qed.

Lemma handleCommand_newest_first cmd args s hashSize maxVaccines portuguese :
  newest_first s →
  newest_first (handleCommand cmd args s hashSize maxVaccines portuguese).1.
Proof.
  intros [Hs Hf]. unfold handleCommand. repeat case_match; try done.
  - unfold commandC, addNewVaccineToSystem. by repeat case_match.
  - unfold commandT. by repeat case_match.
  - unfold commandA, processVaccineApplication. repeat case_match; try done.
    unfold applyVaccine, newest_first. simpl. split.
    + constructor; [done|]. eapply Forall_impl; [exact Hf|]. done.
    + constructor; [simpl; lia|]. eapply Forall_impl; [exact Hf|].
      intros i Hi. simpl in *. lia.
  - unfold commandR, handleUnusedVaccineLot, handleUsedVaccineLot,
      removeVaccineFromHash. by repeat case_match.
  - unfold commandD. repeat case_match; try done.
    match goal with
    | H : removeMatchingInoculations _ ?da _ = _ |- _ =>
        pose proof (removeMatchingInoculations_list s da hashSize) as [Hl Hn];
        rewrite H in Hl, Hn
    end.
    simpl in *. unfold newest_first. rewrite Hn.
    destruct Hl as [-> | ->]; [done|]. split.
    + by apply StronglySorted_filter.
    + apply Forall_forall. intros i [_ Hi]%list_elem_of_filter.
      by apply (proj1 (Forall_forall _ _) Hf).
Qed.

(** X15: the full listing is in the order of administration.  Whatever lines
    the program has read, command U without a name prints the records of the
    global list from its last to its first, and that is the order in which
    the records were created (each record at an address above the ones
    before it). *)
Theorem full_listing_in_order (lines : list string) (portuguese : bool) :
  let s := registry_after lines portuguese in
  commandU "" s HASH_SIZE portuguese
  = printInoculation <$> rev (inoculationList s)
  ∧ StronglySorted (λ a b, (inoc_addr a < inoc_addr b)%nat)
      (rev (inoculationList s)).
Proof.
  simpl. split; [done|].
  assert (newest_first (registry_after lines portuguese)) as [Hs _].
  { unfold registry_after. apply processCommands_invariant.
    - intros cmd args s. apply handleCommand_newest_first.
    - split; constructor. }
  by apply StronglySorted_rev_flip in Hs.
Qed.

(** ** The sort on a range of an array *)

(** X16: [partition] on a range.  For any comparator, on the range that holds
    [body] followed by the pivot, [partition] leaves the array outside the
    range as it is, returns the index where it puts the pivot, puts before it
    elements that compare at most the pivot and after it elements that
    compare above the pivot, and these are the elements of [body]. *)
Theorem partition_splits {A : Type} `{Inhabited A} (compare : A → A → Z)
    (pre body post : list A) (pivot : A) :
  ∃ Sm Lg,
    partition compare (pre ++ body ++ pivot :: post)
      (Z.of_nat (length pre)) (Z.of_nat (length pre + length body))
    = (pre ++ Sm ++ pivot :: Lg ++ post, Z.of_nat (length pre + length Sm))
    ∧ Sm ++ Lg ≡ₚ body
    ∧ Forall (λ x, compare x pivot <= 0) Sm
    ∧ Forall (λ x, compare x pivot > 0) Lg.
Proof.
  destruct (partition_spec compare pre body post pivot (Z.of_nat (length pre))
              (Z.of_nat (length pre + length body)))
    as (Sm & Lg & Heq & Hperm & HSm & HLg); [done|rewrite length_app; simpl; lia|].
  exists Sm, Lg. split_and!; [|done..].
  rewrite <-(assoc_L (++) body [pivot] post) in Heq. simpl in Heq.
  rewrite Heq. f_equal. lia.
Qed.

(** X17: [quickSort] on a range.  For a comparator that is transitive and
    total on the elements of the range, [quickSort] leaves the array outside
    the range as it is and puts in the range its former elements in
    ascending order; the recursion depth it is given is enough. *)
Theorem quickSort_range {A : Type} `{Inhabited A} (compare : A → A → Z)
    (ok : A → Prop) (pre seg post : list A) :
  (∀ a b c, ok a → ok b → ok c →
            compare a b <= 0 → compare b c <= 0 → compare a c <= 0) →
  (∀ a b, ok a → ok b → compare a b > 0 → compare b a <= 0) →
  Forall ok seg →
  ∃ seg',
    quickSort compare (pre ++ seg ++ post)
      (Z.of_nat (length pre)) (Z.of_nat (length pre + length seg) - 1)
    = pre ++ seg' ++ post
    ∧ seg' ≡ₚ seg
    ∧ StronglySorted (λ a b, compare a b <= 0) seg'.
Proof.
  intros Htrans Htotal Hok.
  destruct (quickSort_rec_spec compare ok Htrans Htotal (length seg) pre seg post
              (Z.of_nat (length pre)) (Z.of_nat (length pre + length seg) - 1))
    as (seg' & Heq & Hperm & Hs); [done|lia|done|].
  exists seg'. split_and!; [|done|by apply Hs]. unfold quickSort.
  replace (Z.to_nat (Z.of_nat (length pre + length seg) - 1
                     - Z.of_nat (length pre) + 1)) with (length seg) by lia.
  done.
Qed.

Lemma quickSort_range_witness :
  ∃ seg',
    quickSort Z.sub
      ([100] ++ [12; 3; 7; 1; 9; 4; 11; 2; 8; 5; 10; 6; 3] ++ [-1])
      (Z.of_nat (length [100]))
      (Z.of_nat (length [100]
                 + length [12; 3; 7; 1; 9; 4; 11; 2; 8; 5; 10; 6; 3]) - 1)
    = [100] ++ seg' ++ [-1]
    ∧ seg' ≡ₚ [12; 3; 7; 1; 9; 4; 11; 2; 8; 5; 10; 6; 3]
    ∧ StronglySorted (λ a b, a - b <= 0) seg'.
Proof.
  refine (quickSort_range Z.sub (λ _, True) [100]
            [12; 3; 7; 1; 9; 4; 11; 2; 8; 5; 10; 6; 3] [-1] _ _ _).
  - intros a b c _ _ _. lia.
  - intros a b _ _. lia.
  - repeat constructor.
Defined.

Example quickSort_range_run :
  quickSort Z.sub ([100] ++ [12; 3; 7; 1; 9; 4; 11; 2; 8; 5; 10; 6; 3] ++ [-1]) 1 13
  = [100; 1; 2; 3; 3; 4; 5; 6; 7; 8; 9; 10; 11; 12; -1].
Proof. vm_compute. reflexivity. Qed.

(** ** The command loop *)

(** X19: one line of output per command.  Commands C, T, A and R print exactly
    one line, whatever their arguments and the state; command D prints at
    most one; a letter that is not a command prints nothing and changes
    nothing. *)
Theorem output_lines (cmd : ascii) (args : string) (s : State)
    (hashSize maxVaccines : Z) (portuguese : bool) :
  let r := handleCommand cmd args s hashSize maxVaccines portuguese in
  if Ascii.eqb cmd "c" || Ascii.eqb cmd "t" || Ascii.eqb cmd "a" || Ascii.eqb cmd "r"
  then length r.2 = 1%nat
  else if Ascii.eqb cmd "d" then (length r.2 ≤ 1)%nat
  else if Ascii.eqb cmd "l" || Ascii.eqb cmd "u" then r.1 = s
  else r = (s, []).
Proof.
  simpl. unfold handleCommand.
  destruct (Ascii.eqb cmd "c") eqn:Hc; simpl.
  { unfold commandC, addNewVaccineToSystem. by repeat case_match. }
  destruct (Ascii.eqb cmd "l") eqn:Hl; simpl.
  { apply Ascii.eqb_eq in Hl as ->. done. }
  destruct (Ascii.eqb cmd "t") eqn:Ht; simpl.
  { unfold commandT. by repeat case_match. }
  destruct (Ascii.eqb cmd "a") eqn:Ha; simpl.
  { unfold commandA, processVaccineApplication, applyVaccine. by repeat case_match. }
  destruct (Ascii.eqb cmd "u") eqn:Hu; simpl.
  { apply Ascii.eqb_eq in Hu as ->. done. }
  destruct (Ascii.eqb cmd "r") eqn:Hr; simpl.
  { unfold commandR. by repeat case_match. }
  destruct (Ascii.eqb cmd "d") eqn:Hd; simpl; [|done].
  unfold commandD.
  destruct (processDeleteArgs args (currentDate s) portuguese) as [[da|] out] eqn:Hp.
  - apply processDeleteArgs_Some in Hp as ->. repeat case_match; simpl; lia.
  - simpl. unfold processDeleteArgs in Hp. repeat case_match; simplify_eq; simpl; lia.
Qed.

(** ** Registering a lot and removing it *)

Lemma swap_remove_last {A} (l : list A) (x : A) :
  swap_remove (l ++ [x]) (length l) = l.
Proof.
  unfold swap_remove. rewrite last_snoc.
  rewrite length_app, Nat.add_sub. simpl.
  rewrite insert_app_r_alt by lia. rewrite Nat.sub_diag. simpl.
  by rewrite take_app_length.
Qed.

Lemma index_of_batch_last (h : gmap ptr VaccineLot) (l : list ptr) (p : ptr)
    (batch : string) :
  (∀ q, q ∈ l → lot (h !!! q) ≠ batch) → lot (h !!! p) = batch →
  index_of_batch h (l ++ [p]) batch = Some (length l).
Proof.
  intros Hl Hp. induction l as [|q l IH]; simpl.
  - by rewrite strcmp_eqb, bool_decide_eq_true_2.
  - rewrite strcmp_eqb, bool_decide_eq_false_2 by (apply Hl; set_solver).
    rewrite IH; [done|]. intros q' Hq'. apply Hl. set_solver.
Qed.

Lemma findVaccineByName_update (t : gmap Z (list VaccineNameIndex))
    (v v' : string) (size : Z) (f : VaccineNameIndex → VaccineNameIndex) :
  (∀ e, vni_name (f e) = vni_name e) →
  findVaccineByName
    (<[hashString v size :=
         update_chain vni_name (bucket t (hashString v size)) v f]> t) v' size
  = if decide (v' = v) then f <$> findVaccineByName t v size
    else findVaccineByName t v' size.
Proof.
  intros Hf. unfold findVaccineByName. rewrite bucket_insert. case_decide as Hi.
  - rewrite find_chain_update_chain by done. case_decide; [done|by rewrite Hi].
  - case_decide; [congruence|done].
Qed.

Lemma remove_lot_from_entry_vni_name h batch e :
  vni_name (remove_lot_from_entry h batch e) = vni_name e.
Proof. unfold remove_lot_from_entry. by case_match. Qed.

Lemma commandR_nonempty (args : string) (s : State) (hashSize : Z)
    (portuguese : bool) :
  args ≠ "" →
  commandR args s hashSize portuguese
  = match findVaccineByBatch (heap s) (hashTable s) args hashSize with
    | None =>
        (s, [args +:+ msg portuguese ": lote inexistente" ": no such batch"])
    | Some p =>
        let line := fmt_d (dosesUsed (heap s !!! p)) in
        if dosesUsed (heap s !!! p) =? 0 then
          (handleUnusedVaccineLot args s hashSize, [line])
        else (handleUsedVaccineLot p s, [line])
    end.
Proof. by destruct args. Qed.

(** X20: a lot registered and removed before any use.  On a well-formed
    registry, when command C registers a lot and command R is then given its
    id, command R prints 0 and the registry is as it was before the
    registration: the same lots stored, the same global list, the same
    answers of the id search and the same groups; only the counter of command
    C keeps the registration. *)
Theorem register_then_remove (s : State) (args batch nm : string)
    (validation : Date) (d hashSize maxVaccines : Z) (portuguese : bool) :
  wf hashSize s →
  parseArgumentsC args = Some (batch, validation, d, nm) →
  validateNewVaccine batch validation d nm (currentDate s) portuguese = None →
  vaccineCount s < maxVaccines →
  findVaccineByBatch (heap s) (hashTable s) batch hashSize = None →
  let s1 := (commandC args s hashSize maxVaccines portuguese).1 in
  let r := commandR batch s1 hashSize portuguese in
  r.2 = ["0"]
  ∧ heap r.1 = heap s
  ∧ vaccineList r.1 = vaccineList s
  ∧ (∀ b, findVaccineByBatch (heap r.1) (hashTable r.1) b hashSize
          = findVaccineByBatch (heap s) (hashTable s) b hashSize)
  ∧ (∀ v, group r.1 v hashSize = group s v hashSize)
  ∧ vaccineCount r.1 = vaccineCount s1
  ∧ vaccineCount s1 = wrap_int (vaccineCount s + 1)
  ∧ inoculationList r.1 = inoculationList s
  ∧ userHashTable r.1 = userHashTable s
  ∧ currentDate r.1 = currentDate s.
Proof.
  intros Hwf Hparse Hval Hcount Hfresh.
  destruct (parseArgumentsC_nonempty _ _ _ _ _ Hparse) as [Hb _].
  assert (heap s !! next_lot s = None) as Hnone.
  { destruct (heap s !! next_lot s) eqn:E; [|done].
    pose proof (wf_fresh _ _ _ _ _ _ Hwf (next_lot s) (mk_is_Some _ _ E)). lia. }
  assert (∀ q, q ∈ vaccineList s → q ≠ next_lot s) as Hne.
  { intros q Hq ->. destruct (wf_alloc _ _ _ _ _ _ Hwf _ Hq) as [? E]. congruence. }
  cbn zeta. unfold commandC. rewrite Hparse, Hval. unfold addNewVaccineToSystem.
  destruct (Z.geb_spec (vaccineCount s) maxVaccines) as [|_]; [lia|].
  rewrite Hfresh, bool_decide_eq_false_2 by (by intros [? ?]). cbn [fst].
  set (p := next_lot s) in *.
  set (L := createVaccineLot batch nm validation d).
  set (h1 := <[p := L]> (heap s)).
  assert (h1 !!! p = L) as HL by (unfold h1; by rewrite lookup_total_insert_eq).
  set (nt1 := addVaccineLotToNameIndex h1 (nameHashTable s) p hashSize).
  set (ht1 := addVaccineLotToHash h1 (hashTable s) p hashSize).
  assert (findVaccineByBatch h1 ht1 batch hashSize = Some p) as Hfind1.
  { unfold ht1. rewrite findVaccineByBatch_add. rewrite decide_True; [done|by rewrite HL]. }
  rewrite commandR_nonempty by done.
  cbn [heap hashTable]. rewrite Hfind1, HL. simpl dosesUsed. cbn [Z.eqb].
  unfold handleUnusedVaccineLot. cbn [heap hashTable nameHashTable vaccineList].
  rewrite Hfind1, HL. simpl name.
  unfold removeVaccineFromHash. rewrite hashBatch_hashString.
  unfold findVaccineByBatch in Hfind1. rewrite Hfind1.
  assert (bucket ht1 (hashString batch hashSize)
          = p :: bucket (hashTable s) (hashString batch hashSize)) as Hb1.
  { unfold ht1, addVaccineLotToHash. rewrite HL. simpl. rewrite bucket_insert.
    by rewrite decide_True. }
  assert (removeVaccineFromList h1 (p :: vaccineList s) batch = vaccineList s) as ->.
  { simpl. rewrite HL. simpl. by rewrite strcmp_eqb, bool_decide_eq_true_2. }
  rewrite Hb1.
  assert (removeVaccineFromList h1
            (p :: bucket (hashTable s) (hashString batch hashSize)) batch
          = bucket (hashTable s) (hashString batch hashSize)) as ->.
  { simpl. rewrite HL. simpl. by rewrite strcmp_eqb, bool_decide_eq_true_2. }
  cbn [fst snd heap hashTable nameHashTable vaccineList vaccineCount
         inoculationList userHashTable currentDate].
  assert (delete p h1 = heap s) as Hheap by (unfold h1; by rewrite delete_insert_id).
  rewrite Hheap. split_and!; try done.
  - intros b. unfold findVaccineByBatch. f_equal.
    rewrite bucket_insert. case_decide as Hi; [by rewrite Hi|].
    unfold ht1, addVaccineLotToHash. rewrite bucket_insert.
    case_decide as Hj; [|done]. rewrite HL in Hj. simpl in Hj. congruence.
  - intros v. unfold group. cbn [nameHashTable].
    pose proof (findVaccineByName_add h1 (nameHashTable s) p hashSize nm) as Hnm.
    fold nt1 in Hnm. rewrite HL in Hnm. simpl in Hnm. rewrite decide_True in Hnm by done.
    unfold removeVaccineFromNameIndex.
    unfold findVaccineByName in Hnm at 1. rewrite Hnm.
    rewrite findVaccineByName_update by apply remove_lot_from_entry_vni_name.
    case_decide as Hv.
    + subst v. unfold findVaccineByName at 1. rewrite Hnm. simpl.
      unfold remove_lot_from_entry. simpl.
      rewrite (index_of_batch_last h1 _ p batch); [|..|by rewrite HL].
      * simpl. rewrite swap_remove_last.
        by destruct (findVaccineByName (nameHashTable s) nm hashSize).
      * intros q Hq.
        destruct (findVaccineByName (nameHashTable s) nm hashSize) as [e|] eqn:He;
          [|by apply elem_of_nil in Hq].
        destruct (wf_group_found Hwf nm e He) as [_ Hg].
        destruct (Hg q Hq) as [Hqv _].
        unfold h1. rewrite lookup_total_insert_ne by (intros <-; by apply (Hne p)).
        by apply (proj1 (findVaccineByBatch_None Hwf batch) Hfresh).
    + unfold nt1. rewrite findVaccineByName_add, HL. simpl.
      by rewrite decide_False.
Qed.

Lemma register_then_remove_witness :
  let s := two_lots in
  let s1 := (commandC "0C 01-02-2025 5 VaxX" s HASH_SIZE MAX_VACCINES false).1 in
  let r := commandR "0C" s1 HASH_SIZE false in
  r.2 = ["0"]
  ∧ heap r.1 = heap s
  ∧ vaccineList r.1 = vaccineList s
  ∧ (∀ b, findVaccineByBatch (heap r.1) (hashTable r.1) b HASH_SIZE
          = findVaccineByBatch (heap s) (hashTable s) b HASH_SIZE)
  ∧ (∀ v, group r.1 v HASH_SIZE = group s v HASH_SIZE)
  ∧ vaccineCount r.1 = vaccineCount s1
  ∧ vaccineCount s1 = wrap_int (vaccineCount s + 1)
  ∧ inoculationList r.1 = inoculationList s
  ∧ userHashTable r.1 = userHashTable s
  ∧ currentDate r.1 = currentDate s.
Proof.
  refine (register_then_remove two_lots "0C 01-02-2025 5 VaxX" "0C" "VaxX"
            (mkDate 1 2 2025) 5 HASH_SIZE MAX_VACCINES false _ _ _ _ _).
  - apply (processCommands_wf _ initialState false), wf_initial.
  - vm_compute. reflexivity.
  - vm_compute. reflexivity.
  - vm_compute. reflexivity.
  - vm_compute. reflexivity.
Defined.

(** ** Argument lines and what the parsers read from them *)

Lemma char_free_cons (bad : ascii → bool) (c : ascii) (s : string) :
  char_free bad (String c s) ↔ bad c = false ∧ char_free bad s.
Proof.
  unfold char_free. simpl. rewrite andb_true_iff, negb_true_iff. done.
Qed.

Lemma char_free_app (bad : ascii → bool) (a b : string) :
  char_free bad (a +:+ b) ↔ char_free bad a ∧ char_free bad b.
Proof.
  induction a as [|c a IH]; simpl.
  - rewrite string_app_nil. unfold char_free at 2. simpl. tauto.
  - rewrite string_app_cons, !char_free_cons, IH. tauto.
Qed.

Lemma char_free_impl (bad bad' : ascii → bool) (s : string) :
  (∀ c, bad c = false → bad' c = false) → char_free bad s → char_free bad' s.
Proof.
  intros Himp. induction s as [|c s IH]; [done|].
  rewrite !char_free_cons. intros [? ?]. auto.
Qed.

Lemma char_free_starts_off (bad : ascii → bool) (s : string) :
  s ≠ "" → char_free bad s → starts_off bad s.
Proof. destruct s as [|c s]; [done|]. intros _ [? _]%char_free_cons. done. Qed.

Lemma strchr_app (c : ascii) (u rest : string) :
  char_free (Ascii.eqb c) u →
  strchr (u +:+ String c rest) c = Some (u, String c rest).
Proof.
  induction u as [|x u IH]; intros Hu.
  - rewrite string_app_nil. simpl. by rewrite Ascii.eqb_refl.
  - apply char_free_cons in Hu as [Hx Hu]. rewrite string_app_cons. simpl.
    rewrite Ascii.eqb_sym, Hx. by rewrite IH.
Qed.

Lemma span_nonspace_app (tok rest : string) :
  char_free isspace tok → stops_at isspace rest →
  span_nonspace (tok +:+ rest) = (tok, rest).
Proof.
  induction tok as [|x tok IH]; intros Htok Hrest.
  - rewrite string_app_nil. destruct rest as [|c r]; [done|].
    simpl in *. by rewrite Hrest.
  - apply char_free_cons in Htok as [Hx Htok]. rewrite string_app_cons. simpl.
    rewrite Hx. by rewrite IH.
Qed.

Lemma span_token_app (delim tok rest : string) :
  char_free (is_delim delim) tok → stops_at (is_delim delim) rest →
  span_token delim (tok +:+ rest) = (tok, rest).
Proof.
  induction tok as [|x tok IH]; intros Htok Hrest.
  - rewrite string_app_nil. destruct rest as [|c r]; [done|].
    simpl in *. by rewrite Hrest.
  - apply char_free_cons in Htok as [Hx Htok]. rewrite string_app_cons.
    rewrite span_token_cons, Hx. by rewrite IH.
Qed.

Lemma skip_delims_starts_off (delim s : string) :
  starts_off (is_delim delim) s → skip_delims delim s = s.
Proof. destruct s as [|c s]; [done|]. simpl. by intros ->. Qed.

Lemma skip_space_starts_off (s : string) :
  starts_off isspace s → skip_space s = s.
Proof. destruct s as [|c s]; [done|]. simpl. by intros ->. Qed.

Lemma starts_off_app (bad : ascii → bool) (a b : string) :
  starts_off bad a → starts_off bad (a +:+ b).
Proof. by destruct a. Qed.

Lemma strtok_r_app (tok rest : string) :
  tok ≠ "" → char_free (Ascii.eqb " ") tok →
  strtok_r (tok +:+ " " +:+ rest) " " = Some (tok, rest).
Proof.
  intros Hne Htok.
  assert (char_free (is_delim " ") tok) as Htok'.
  { eapply char_free_impl; [|exact Htok]. intros c Hc.
    by rewrite is_delim_space, Ascii.eqb_sym. }
  destruct tok as [|x tok]; [done|]. apply char_free_cons in Htok' as [Hx Htok'].
  rewrite !string_app_cons, string_app_nil. unfold strtok_r.
  cbn [skip_delims]. rewrite Hx. rewrite span_token_cons, Hx.
  by rewrite span_token_app.
Qed.

Lemma strtok_r_last (tok : string) :
  tok ≠ "" → char_free (Ascii.eqb " ") tok → strtok_r tok " " = Some (tok, "").
Proof.
  intros Hne Htok.
  assert (char_free (is_delim " ") tok) as Htok'.
  { eapply char_free_impl; [|exact Htok]. intros c Hc.
    by rewrite is_delim_space, Ascii.eqb_sym. }
  destruct tok as [|x tok]; [done|]. apply char_free_cons in Htok' as [Hx Htok'].
  unfold strtok_r. cbn [skip_delims]. rewrite Hx. rewrite span_token_cons, Hx.
  rewrite <-(string_app_nil_r tok) at 1. by rewrite span_token_app.
Qed.

(** The bytes of a printed number are decimal digits. *)
Lemma pretty_N_go_digits (x : N) (s : string) :
  char_free (λ c, negb (isdigit c)) s →
  char_free (λ c, negb (isdigit c)) (pretty_N_go x s).
Proof.
  revert s. induction (N.lt_wf_0 x) as [x _ IH]; intros s Hs.
  destruct (N.eq_0_gt_0_cases x) as [->|Hx]; [by rewrite pretty_N_go_0|].
  rewrite pretty_N_go_step by done. apply IH; [by apply N.div_lt|].
  apply char_free_cons. split; [|done].
  destruct (pretty_N_char_digit (x `mod` 10)) as [-> _]; [by apply N.mod_lt|done].
Qed.

Lemma pretty_digits (z : Z) :
  0 <= z → char_free (λ c, negb (isdigit c)) (pretty z).
Proof.
  intros Hz. rewrite <-(string_app_nil_r (pretty z)), pretty_Z_nonneg by done.
  case_decide; [done|]. by apply pretty_N_go_digits.
Qed.

Lemma pretty_N_go_length (k : nat) (x : N) (s : string) :
  (x < 10 ^ N.of_nat k)%N →
  (String.length (pretty_N_go x s) ≤ k + String.length s)%nat.
Proof.
  revert x s. induction k as [|k IH]; intros x s Hx.
  - assert (x = 0%N) as -> by (simpl in Hx; lia). by rewrite pretty_N_go_0.
  - destruct (N.eq_0_gt_0_cases x) as [->|Hpos]; [rewrite pretty_N_go_0; lia|].
    rewrite pretty_N_go_step by done.
    etrans; [apply IH|simpl; lia].
    apply N.Div0.div_lt_upper_bound.
    rewrite Nat2N.inj_succ, N.pow_succ_r' in Hx. lia.
Qed.

Lemma pretty_length (z : Z) :
  0 <= z < 2 ^ 31 → (1 ≤ String.length (pretty z) ≤ 10)%nat.
Proof.
  intros Hz. rewrite <-(string_app_nil_r (pretty z)), pretty_Z_nonneg by lia.
  case_decide; [simpl; lia|]. split.
  - destruct (pretty_N_go_head (Z.to_N z) "") as (c & r & -> & _); [lia|simpl; lia].
  - etrans; [apply (pretty_N_go_length 10)|simpl; lia].
    change (10 ^ N.of_nat 10)%N with 10000000000%N. lia.
Qed.

Lemma fmt_02d_length (z : Z) :
  0 <= z < 2 ^ 31 → (2 ≤ String.length (fmt_02d z) ≤ 10)%nat.
Proof.
  intros Hz. pose proof (pretty_length z Hz). unfold fmt_02d.
  destruct (Nat.ltb_spec (String.length (pretty z)) 2); [|lia].
  change ("0" +:+ pretty z) with (String "0" (pretty z)). simpl. lia.
Qed.

Lemma fmt_02d_short (z : Z) :
  0 <= z < 100 → String.length (fmt_02d z) = 2%nat.
Proof.
  intros Hz. unfold fmt_02d.
  destruct (Nat.ltb_spec (String.length (pretty z)) 2) as [Hlt|Hge].
  - pose proof (pretty_length z ltac:(lia)).
    change ("0" +:+ pretty z) with (String "0" (pretty z)). simpl. lia.
  - rewrite <-(string_app_nil_r (pretty z)), pretty_Z_nonneg in * by lia.
    case_decide; [simpl in Hge; lia|].
    pose proof (pretty_N_go_length 2 (Z.to_N z) "") as Hle.
    simpl in Hle. apply Nat.le_antisymm; [apply Hle; lia|done].
Qed.

Lemma fmt_02d_digits (z : Z) :
  0 <= z → char_free (λ c, negb (isdigit c)) (fmt_02d z).
Proof.
  intros Hz. destruct (fmt_02d_cases z) as [->| ->]; [by apply pretty_digits|].
  apply char_free_cons. split; [done|by apply pretty_digits].
Qed.

Lemma string_length_app (a b : string) :
  String.length (a +:+ b) = (String.length a + String.length b)%nat.
Proof. induction a as [|c a IH]; [done|]. rewrite string_app_cons. simpl. by rewrite IH. Qed.

(** The bytes of a printed date are digits and dashes. *)
Lemma printCurrentDate_chars (d : Date) :
  0 <= day d → 0 <= month d → 0 <= year d →
  char_free (λ c, negb (isdigit c || Ascii.eqb c "-")) (printCurrentDate d).
Proof.
  intros Hd Hm Hy. unfold printCurrentDate.
  assert (∀ s, char_free (λ c, negb (isdigit c)) s →
               char_free (λ c, negb (isdigit c || Ascii.eqb c "-")) s) as Himp.
  { intros s. apply char_free_impl. intros c. rewrite !negb_false_iff. by intros ->. }
  rewrite !char_free_app. split_and!; try done; apply Himp.
  - by apply fmt_02d_digits.
  - by apply fmt_02d_digits.
  - by apply pretty_digits.
Qed.

Lemma digit_or_dash (c : ascii) :
  negb (isdigit c || Ascii.eqb c "-") = false →
  isspace c = false ∧ Ascii.eqb " " c = false.
Proof.
  rewrite negb_false_iff, orb_true_iff. intros [Hc|Hc].
  - unfold isdigit in Hc. apply andb_true_iff in Hc as [H1%Z.leb_le H2%Z.leb_le].
    split.
    + unfold isspace. apply orb_false_iff. split; [apply Z.eqb_neq; lia|].
      apply andb_false_iff. right. apply Z.leb_gt. lia.
    + apply Ascii.eqb_neq. intros <-. vm_compute in H1. by apply H1.
  - apply Ascii.eqb_eq in Hc as ->. done.
Qed.

Lemma printCurrentDate_no_space (d : Date) :
  0 <= day d → 0 <= month d → 0 <= year d →
  char_free isspace (printCurrentDate d)
  ∧ char_free (Ascii.eqb " ") (printCurrentDate d).
Proof.
  intros Hd Hm Hy. pose proof (printCurrentDate_chars d Hd Hm Hy) as Hc.
  split; (eapply char_free_impl; [|exact Hc]); intros c Hx;
    by destruct (digit_or_dash c Hx).
Qed.

Lemma printCurrentDate_nonempty (d : Date) : printCurrentDate d ≠ "".
Proof.
  unfold printCurrentDate. intros Heq. apply (f_equal String.length) in Heq.
  rewrite !string_length_app in Heq. simpl in Heq. lia.
Qed.

(** X21: the argument line of command C.  The id, the printed expiry date, the
    printed number of doses and the name, separated by one blank each, are
    read back by [parseArgumentsC] as these four values, for an id that is
    not empty and has no blank, a date and a number of doses that are not
    negative, and a name that is not empty. *)
Theorem parseArgumentsC_round_trip (batch nm : string) (d : Date) (n : Z) :
  batch ≠ "" → char_free (Ascii.eqb " ") batch → nm ≠ "" →
  0 <= day d < 2 ^ 31 → 0 <= month d < 2 ^ 31 → 0 <= year d < 2 ^ 31 →
  0 <= n < 2 ^ 31 →
  parseArgumentsC (batch +:+ " " +:+ printCurrentDate d +:+ " " +:+ fmt_d n
                   +:+ " " +:+ nm)
  = Some (batch, d, n, nm).
Proof.
  intros Hb Hbc Hn Hd Hm Hy Hz. unfold parseArgumentsC.
  rewrite strtok_r_app by done.
  rewrite strtok_r_app
    by (try apply printCurrentDate_nonempty; apply printCurrentDate_no_space; lia).
  unfold parseValidationDate. rewrite sscanf_date_printed by done.
  rewrite strtok_r_app.
  - rewrite atoi_pretty by done. by destruct nm.
  - unfold fmt_d. intros Heq. pose proof (pretty_length n Hz) as Hl.
    rewrite Heq in Hl. simpl in Hl. lia.
  - eapply char_free_impl; [|apply (pretty_digits n); lia]. intros c Hc.
    apply negb_false_iff in Hc. apply Ascii.eqb_neq. intros <-. done.
Qed.

Lemma parseArgumentsC_round_trip_witness :
  parseArgumentsC ("A1F" +:+ " " +:+ printCurrentDate (mkDate 1 6 2025) +:+ " "
                   +:+ fmt_d 10 +:+ " " +:+ "VaxX")
  = Some ("A1F", mkDate 1 6 2025, 10, "VaxX").
Proof.
  apply (parseArgumentsC_round_trip "A1F" "VaxX" (mkDate 1 6 2025) 10);
    try done; simpl; lia.
Defined.

Lemma quoted_cons (u rest : string) :
  quoted u +:+ rest = String dquote (u +:+ String dquote rest).
Proof.
  unfold quoted. rewrite !string_app_cons. f_equal.
  by rewrite string_app_assoc, string_app_cons, string_app_nil.
Qed.

(** X22: the argument line of command A.  A user name between double quotes
    (any name without a double quote, blanks included), or a bare user name
    without a blank that does not start with a double quote, then a blank and
    a vaccine name that does not start with white space, are read back by
    [extractArguments] as that user and that vaccine name. *)
Theorem extractArguments_round_trip (u v : string) :
  starts_off isspace v →
  (char_free (Ascii.eqb dquote) u →
   extractArguments (quoted u +:+ " " +:+ v) = Some (u, v))
  ∧ (char_free (Ascii.eqb " ") u → starts_off (Ascii.eqb dquote) (u +:+ " ") →
     extractArguments (u +:+ " " +:+ v) = Some (u, v)).
Proof.
  intros Hv. split.
  - intros Hu. rewrite quoted_cons. unfold extractArguments.
    rewrite Ascii.eqb_refl. unfold extractQuotedName.
    rewrite strchr_app by done. unfold extractVaccineName.
    rewrite string_app_cons, string_app_nil. cbn [skip_space isspace].
    change (isspace " ") with true. cbn match.
    rewrite skip_space_starts_off by done. by destruct v.
  - intros Hu Hq.
    assert (extractUnquotedName (u +:+ " " +:+ v) = Some (u, v)) as Hun.
    { unfold extractUnquotedName.
      rewrite string_app_cons, string_app_nil, strchr_app by done. done. }
    unfold extractArguments.
    assert (match u +:+ " " +:+ v with
            | String c _ =>
                if Ascii.eqb c dquote then extractQuotedName (u +:+ " " +:+ v)
                else extractUnquotedName (u +:+ " " +:+ v)
            | EmptyString => extractUnquotedName (u +:+ " " +:+ v)
            end = Some (u, v)) as ->.
    { destruct u as [|c u'].
      - rewrite string_app_nil in *. by rewrite string_app_cons.
      - rewrite string_app_cons in *. unfold starts_off in Hq.
        rewrite Ascii.eqb_sym, Hq. done. }
    unfold extractVaccineName. rewrite skip_space_starts_off by done. by destruct v.
Qed.

Lemma extractArguments_round_trip_witness :
  extractArguments (quoted "Ana Maria" +:+ " " +:+ "VaxX") = Some ("Ana Maria", "VaxX")
  ∧ extractArguments ("Alice" +:+ " " +:+ "VaxX") = Some ("Alice", "VaxX").
Proof.
  split.
  - by apply (proj1 (extractArguments_round_trip "Ana Maria" "VaxX" eq_refl)).
  - by apply (proj2 (extractArguments_round_trip "Alice" "VaxX" eq_refl)).
Defined.

Lemma printCurrentDate_length (d : Date) :
  0 <= day d < 100 → 0 <= month d < 100 → 0 <= year d < 2 ^ 31 →
  strlen (printCurrentDate d) < 32.
Proof.
  intros Hd Hm Hy. unfold strlen, printCurrentDate.
  rewrite !string_length_app, !fmt_02d_short by done.
  pose proof (pretty_length (year d) Hy). unfold fmt_d. simpl. lia.
Qed.

Lemma printCurrentDate_starts (d : Date) :
  0 <= day d → starts_off isspace (printCurrentDate d).
Proof.
  intros Hd. unfold printCurrentDate. apply starts_off_app.
  pose proof (fmt_02d_digits (day d) Hd) as Hc.
  destruct (fmt_02d_cases (day d)) as [Heq|Heq]; rewrite Heq in *.
  - destruct (pretty_Z_head (day d) "") as (c & r & Hcr & Hdig); [done|].
    rewrite string_app_nil_r in Hcr. rewrite Hcr. simpl.
    apply (digit_or_dash c). by rewrite Hdig.
  - done.
Qed.

Lemma calendar_date_range (d : Date) :
  calendar_date d → 1 <= month d <= 12 ∧ 1 <= day d <= 31.
Proof.
  intros [Hm Hd]. split; [done|].
  assert (days_in_month (month d) (year d) <= 31); [|lia].
  unfold days_in_month. repeat case_match; lia.
Qed.

Lemma parseUserName_bare (u rest : string) :
  char_free isspace u → starts_off (Ascii.eqb dquote) u → stops_at isspace rest →
  parseUserName (u +:+ rest)
  = Some (u, match rest with
             | EmptyString => EmptyString
             | String _ r => r
             end).
Proof.
  intros Hu Hq Hrest. unfold parseUserName.
  pose proof (span_nonspace_app u rest Hu Hrest) as Hspan.
  destruct u as [|c u']; [done|]. unfold starts_off in Hq.
  pose proof Hu as [Hc _]%char_free_cons.
  rewrite string_app_cons in *. cbn [skip_space]. rewrite Hc.
  rewrite Ascii.eqb_sym, Hq, Hspan. by destruct rest.
Qed.

Lemma parseUserName_quoted (u rest : string) :
  char_free (Ascii.eqb dquote) u → parseUserName (quoted u +:+ rest) = Some (u, rest).
Proof.
  intros Hu. rewrite quoted_cons. unfold parseUserName. cbn [skip_space].
  change (isspace dquote) with false. cbn match.
  rewrite Ascii.eqb_refl. by rewrite strchr_app.
Qed.

Section DeleteLine.
Context (d cur : Date) (portuguese : bool).
Hypothesis Hcal : calendar_date d.
Hypothesis Hy : 0 <= year d < 2 ^ 31.
Hypothesis Hfut : ¬ date_lt cur d.

Lemma parseDateString_printed :
  parseDateString (printCurrentDate d) cur portuguese = inl d.
Proof.
  destruct (calendar_date_range d Hcal) as [Hm Hd].
  unfold parseDateString. rewrite sscanf_date_printed by lia.
  rewrite (proj2 (isDateFormatValid_spec d) Hcal). simpl.
  destruct (isDateFuture d cur) eqn:Hf; [|done].
  by apply isDateFuture_spec in Hf.
Qed.

Lemma extractDateString_printed (rest : string) :
  stops_at isspace rest →
  extractDateString (printCurrentDate d +:+ rest) = Some (printCurrentDate d, rest).
Proof.
  intros Hrest. destruct (calendar_date_range d Hcal) as [Hm Hd].
  destruct (printCurrentDate_no_space d) as [Hns _]; [lia..|].
  pose proof (printCurrentDate_length d ltac:(lia) ltac:(lia) Hy) as Hlen.
  unfold extractDateString. rewrite span_nonspace_app by done.
  destruct (Z.geb_spec (strlen (printCurrentDate d)) 32); [lia|done].
Qed.

(** What [processDeleteArgs] does once the user name is read and the rest
    of the line is a blank, the date, and what follows it. *)
Lemma delete_tail_printed (u rest : string) (lotId : option string) :
  stops_at isspace rest →
  extractLotId (skipWhitespace rest) = lotId →
  match skipWhitespace (" " +:+ printCurrentDate d +:+ rest) with
  | EmptyString => (Some (mkDeleteArgs u None None), [])
  | r =>
      match extractDateString r with
      | None => (None, [])
      | Some (date_str, rest1) =>
          match parseDateString date_str cur portuguese with
          | inr line => (None, [line])
          | inl d' =>
              (Some (mkDeleteArgs u (Some d')
                       (extractLotId (skipWhitespace rest1))), [])
          end
      end
  end = (Some (mkDeleteArgs u (Some d) lotId), []).
Proof.
  intros Hrest Hlot. destruct (calendar_date_range d Hcal) as [Hm Hd].
  pose proof (printCurrentDate_starts d ltac:(lia)) as Hstart.
  rewrite string_app_cons, string_app_nil. unfold skipWhitespace at 1.
  cbn [skip_space]. change (isspace " ") with true. cbn match.
  rewrite skip_space_starts_off by (by apply starts_off_app).
  pose proof (starts_off_app isspace _ rest Hstart) as Hs.
  pose proof (extractDateString_printed rest Hrest) as Hext.
  destruct (printCurrentDate d +:+ rest) as [|c0 r0]; [done|].
  rewrite Hext, parseDateString_printed. by rewrite Hlot.
Qed.
End DeleteLine.

(** X23: the argument line of command D.  A bare user name without white space
    that does not start with a double quote, or a name between double quotes
    without a double quote, is read as the user; followed by a blank and a
    printed date of the calendar that is not after the clock, the date is
    read as well; followed by a blank and more text, that text is read as the
    lot id.  Nothing is printed. *)
Theorem processDeleteArgs_round_trip (u l : string) (d cur : Date)
    (portuguese : bool) :
  calendar_date d → 0 <= year d < 2 ^ 31 → ¬ date_lt cur d →
  starts_off isspace l →
  let date_text := printCurrentDate d in
  (char_free isspace u → starts_off (Ascii.eqb dquote) u →
   processDeleteArgs u cur portuguese = (Some (mkDeleteArgs u None None), [])
   ∧ processDeleteArgs (u +:+ " " +:+ date_text) cur portuguese
     = (Some (mkDeleteArgs u (Some d) None), [])
   ∧ processDeleteArgs (u +:+ " " +:+ date_text +:+ " " +:+ l) cur portuguese
     = (Some (mkDeleteArgs u (Some d) (Some l)), []))
  ∧ (char_free (Ascii.eqb dquote) u →
     processDeleteArgs (quoted u +:+ " " +:+ date_text +:+ " " +:+ l) cur portuguese
     = (Some (mkDeleteArgs u (Some d) (Some l)), [])).
Proof.
  intros Hcal Hy Hfut Hl. cbn zeta.
  assert (extractLotId (skipWhitespace (" " +:+ l)) = Some l) as Hlot.
  { rewrite string_app_cons, string_app_nil. unfold skipWhitespace.
    cbn [skip_space]. change (isspace " ") with true. cbn match.
    rewrite skip_space_starts_off by done. by destruct l. }
  split.
  - intros Hu Hq. split_and!.
    + unfold processDeleteArgs.
      rewrite <-(string_app_nil_r u) at 1. rewrite parseUserName_bare by done.
      done.
    + unfold processDeleteArgs.
      rewrite (string_app_cons " " "" (printCurrentDate d)), string_app_nil.
      rewrite parseUserName_bare by done.
      rewrite <-(string_app_nil_r (printCurrentDate d)).
      pose proof (delete_tail_printed d cur portuguese Hcal Hy Hfut u "" None
                    I eq_refl) as Htail.
      rewrite string_app_cons, string_app_nil in Htail. exact Htail.
    + unfold processDeleteArgs.
      rewrite (string_app_cons " " "" (printCurrentDate d +:+ " " +:+ l)),
        string_app_nil.
      rewrite parseUserName_bare by done.
      pose proof (delete_tail_printed d cur portuguese Hcal Hy Hfut u (" " +:+ l)
                    (Some l) eq_refl Hlot) as Htail.
      rewrite (string_app_cons " " "" (printCurrentDate d +:+ " " +:+ l)),
        string_app_nil in Htail. exact Htail.
  - intros Hu. unfold processDeleteArgs. rewrite parseUserName_quoted by done.
    exact (delete_tail_printed d cur portuguese Hcal Hy Hfut u (" " +:+ l)
             (Some l) eq_refl Hlot).
Qed.

Lemma processDeleteArgs_round_trip_witness :
  (processDeleteArgs "Alice" (mkDate 2 1 2025) false
   = (Some (mkDeleteArgs "Alice" None None), [])
   ∧ processDeleteArgs ("Alice" +:+ " " +:+ printCurrentDate (mkDate 1 1 2025))
       (mkDate 2 1 2025) false
     = (Some (mkDeleteArgs "Alice" (Some (mkDate 1 1 2025)) None), [])
   ∧ processDeleteArgs
       ("Alice" +:+ " " +:+ printCurrentDate (mkDate 1 1 2025) +:+ " " +:+ "A1F")
       (mkDate 2 1 2025) false
     = (Some (mkDeleteArgs "Alice" (Some (mkDate 1 1 2025)) (Some "A1F")), []))
  ∧ processDeleteArgs
      (quoted "Ana Maria" +:+ " " +:+ printCurrentDate (mkDate 1 1 2025)
       +:+ " " +:+ "A1F")
      (mkDate 2 1 2025) false
    = (Some (mkDeleteArgs "Ana Maria" (Some (mkDate 1 1 2025)) (Some "A1F")), []).
Proof.
  assert (calendar_date (mkDate 1 1 2025)) as Hcal
    by (vm_compute; intuition congruence).
  assert (¬ date_lt (mkDate 2 1 2025) (mkDate 1 1 2025)) as Hfut
    by (unfold date_lt; simpl; lia).
  split.
  - refine (proj1 (processDeleteArgs_round_trip "Alice" "A1F" (mkDate 1 1 2025)
                     (mkDate 2 1 2025) false Hcal _ Hfut _) _ _);
      (done || (simpl; lia)).
  - refine (proj2 (processDeleteArgs_round_trip "Ana Maria" "A1F" (mkDate 1 1 2025)
                     (mkDate 2 1 2025) false Hcal _ Hfut _) _);
      (done || (simpl; lia)).
Defined.

(** ** Command L with vaccine names *)

Lemma strtok_r_token_then (delim tok rest : string) (c : ascii) :
  tok ≠ "" → char_free (is_delim delim) tok → is_delim delim c = true →
  strtok_r (tok +:+ String c rest) delim = Some (tok, rest).
Proof.
  intros Hne Htok Hc.
  destruct tok as [|x tok]; [done|]. apply char_free_cons in Htok as [Hx Htok].
  rewrite !string_app_cons. unfold strtok_r.
  cbn [skip_delims]. rewrite Hx. rewrite span_token_cons, Hx.
  by rewrite span_token_app.
Qed.

Lemma strtok_r_token_end (delim tok : string) :
  tok ≠ "" → char_free (is_delim delim) tok →
  strtok_r tok delim = Some (tok, "").
Proof.
  intros Hne Htok.
  destruct tok as [|x tok]; [done|]. apply char_free_cons in Htok as [Hx Htok].
  unfold strtok_r. cbn [skip_delims]. rewrite Hx. rewrite span_token_cons, Hx.
  rewrite <-(string_app_nil_r tok) at 1. by rewrite span_token_app.
Qed.

Lemma strncpy_short (src : string) (n : Z) :
  strlen src <= n → strncpy src n = src.
Proof.
  revert n. induction src as [|c src IH]; intros n Hn; [done|].
  unfold strlen in *. simpl in *. destruct (Z.leb_spec n 0); [lia|].
  rewrite IH; [done|lia].
Qed.

Lemma specific_loop_empty (fuel : nat) (s : State) (hashSize : Z)
    (portuguese : bool) :
  specific_loop fuel "" s hashSize portuguese = [].
Proof. by destruct fuel. Qed.

Lemma specific_loop_names (names : list string) (fuel : nat) (s : State)
    (hashSize : Z) (portuguese : bool) :
  Forall (λ n, n ≠ "" ∧ char_free (is_delim space_tab) n
               ∧ strlen n < SIZE_COMMAND) names →
  (String.length (join_blank names) ≤ fuel)%nat →
  specific_loop fuel (join_blank names) s hashSize portuguese
  = concat ((λ n, listVaccinesByName s n hashSize portuguese) <$> names).
Proof.
  intros Hnames. revert fuel.
  induction Hnames as [|n names (Hne & Hfree & Hlen) Hnames IH]; intros fuel Hfuel.
  { apply specific_loop_empty. }
  assert (strncpy n (SIZE_COMMAND - 1) = n) as Hcpy by (apply strncpy_short; lia).
  destruct names as [|n2 names].
  - cbn [join_blank] in *. destruct fuel as [|fuel].
    { destruct n; [done|simpl in Hfuel; lia]. }
    cbn [specific_loop]. rewrite strtok_r_token_end by done.
    rewrite Hcpy, specific_loop_empty. simpl. done.
  - change (join_blank (n :: n2 :: names))
      with (n +:+ " " +:+ join_blank (n2 :: names)) in *.
    rewrite string_app_cons, string_app_nil in *.
    rewrite string_length_app in Hfuel. cbn [String.length] in Hfuel.
    destruct fuel as [|fuel]; [lia|].
    cbn [specific_loop]. rewrite strtok_r_token_then by done.
    rewrite Hcpy, IH by lia. done.
Qed.

(** X24: command L with vaccine names.  For names that are not empty, have no
    blank and no tab and fit the buffer, written with one blank between two
    of them, command L prints for each name in turn what the listing of that
    name prints; the number of rounds allowed to the loop is enough. *)
Theorem commandL_names (names : list string) (s : State) (hashSize : Z)
    (portuguese : bool) :
  names ≠ [] →
  Forall (λ n, n ≠ "" ∧ char_free (is_delim space_tab) n
               ∧ strlen n < SIZE_COMMAND) names →
  commandL (join_blank names) s hashSize portuguese
  = concat ((λ n, listVaccinesByName s n hashSize portuguese) <$> names).
Proof.
  intros Hne Hnames. unfold commandL, processSpecificVaccines.
  rewrite <-(specific_loop_names names (String.length (join_blank names)) s
               hashSize portuguese Hnames (le_n _)).
  destruct (join_blank names) eqn:E; [|done].
  destruct names as [|n [|n2 names]]; [done|..].
  - apply Forall_cons in Hnames as [[? _] _]. simpl in E. done.
  - apply Forall_cons in Hnames as [[? _] _]. cbn [join_blank] in E.
    by destruct n.
Qed.

Lemma commandL_names_witness :
  commandL (join_blank ["VaxY"; "VaxX"; "VaxZ"]) twelve_lots HASH_SIZE false
  = concat ((λ n, listVaccinesByName twelve_lots n HASH_SIZE false)
              <$> ["VaxY"; "VaxX"; "VaxZ"]).
Proof.
  apply (commandL_names ["VaxY"; "VaxX"; "VaxZ"] twelve_lots HASH_SIZE false);
    [done|]. repeat constructor; done.
Defined.

Example commandL_names_run :
  commandL "VaxZ VaxX" two_lots HASH_SIZE false
  = ["VaxZ: no such vaccine"; "VaxX B2 01-06-2025 10 0"; "VaxX A1 01-03-2025 5 0"].
Proof. vm_compute. reflexivity. Qed.

(** ** Argument lines that are not accepted *)

Lemma strchr_None (c : ascii) (s : string) :
  char_free (Ascii.eqb c) s → strchr s c = None.
Proof.
  induction s as [|x s IH]; [done|]. intros [Hx Hs]%char_free_cons. simpl.
  rewrite Ascii.eqb_sym, Hx. by rewrite IH.
Qed.

Lemma skip_space_blank (ws : string) :
  char_free (λ c, negb (isspace c)) ws → skip_space ws = "".
Proof.
  induction ws as [|x ws IH]; [done|]. intros [Hx Hs]%char_free_cons. simpl.
  apply negb_false_iff in Hx. rewrite Hx. by apply IH.
Qed.

(** X25: how command U reads its argument.  Without argument, or with a name
    that opens a double quote and never closes it, the full listing is
    printed; with a name between double quotes the listing of that user is
    printed, whatever follows the closing quote; otherwise the whole argument,
    blanks included, is the user name (the names fitting the buffer). *)
Theorem commandU_reads_name (u rest : string) (s : State) (hashSize : Z)
    (portuguese : bool) :
  strlen u < SIZE_COMMAND →
  commandU "" s hashSize portuguese = listAllInoculations (inoculationList s)
  ∧ (char_free (Ascii.eqb dquote) u →
     commandU (String dquote u) s hashSize portuguese
     = listAllInoculations (inoculationList s)
     ∧ commandU (quoted u +:+ rest) s hashSize portuguese
       = listInoculationsByUser u s hashSize portuguese)
  ∧ (starts_off (Ascii.eqb dquote) u →
     commandU u s hashSize portuguese
     = listInoculationsByUser u s hashSize portuguese).
Proof.
  intros Hlen. split; [done|]. split.
  - intros Hu. split.
    + unfold commandU, extractUserName. rewrite Ascii.eqb_refl.
      by rewrite strchr_None.
    + rewrite quoted_cons. unfold commandU, extractUserName.
      rewrite Ascii.eqb_refl, strchr_app by done.
      destruct (Z.geb_spec (strlen u) SIZE_COMMAND); [lia|done].
  - intros Hq. destruct u as [|c u']; [done|]. unfold starts_off in Hq.
    unfold commandU, extractUserName. rewrite Ascii.eqb_sym, Hq.
    destruct (Z.geb_spec (strlen (String c u')) SIZE_COMMAND); [lia|done].
Qed.

Lemma commandU_reads_name_witness :
  commandU "" one_dose HASH_SIZE false
  = listAllInoculations (inoculationList one_dose)
  ∧ (commandU (String dquote "Ana Maria") one_dose HASH_SIZE false
     = listAllInoculations (inoculationList one_dose)
     ∧ commandU (quoted "Ana Maria" +:+ " VaxX") one_dose HASH_SIZE false
       = listInoculationsByUser "Ana Maria" one_dose HASH_SIZE false)
  ∧ commandU "Ana Maria" one_dose HASH_SIZE false
    = listInoculationsByUser "Ana Maria" one_dose HASH_SIZE false.
Proof.
  pose proof (commandU_reads_name "Ana Maria" " VaxX" one_dose HASH_SIZE false
                eq_refl) as H.
  split; [exact (proj1 H)|].
  split; [exact (proj1 (proj2 H) eq_refl)|exact (proj2 (proj2 H) eq_refl)].
Defined.

(** X26: the argument lines command A rejects.  Command A prints the line for
    invalid arguments and changes nothing when the argument has no blank and
    does not start with a double quote (no vaccine name), when it opens a
    double quote and never closes it, and when only white space follows the
    user name. *)
Theorem commandA_invalid_arguments (args u ws : string) (s : State)
    (hashSize : Z) (cur : Date) (portuguese : bool) :
  let rejected line :=
    commandA line s hashSize cur portuguese
    = (s, [msg portuguese "argumentos inválidos" "invalid arguments"]) in
  (char_free (Ascii.eqb " ") args → stops_at (λ c, negb (Ascii.eqb dquote c)) args →
   rejected args)
  ∧ (char_free (Ascii.eqb dquote) u → rejected (String dquote u))
  ∧ (char_free (λ c, negb (isspace c)) ws →
     (char_free (Ascii.eqb dquote) u → rejected (quoted u +:+ ws))
     ∧ (char_free (Ascii.eqb " ") u → starts_off (Ascii.eqb dquote) (u +:+ " ") →
        rejected (u +:+ " " +:+ ws))).
Proof.
  cbn zeta. split_and!.
  - intros Hargs Hq. unfold commandA, extractArguments.
    assert (extractUnquotedName args = None) as Hun.
    { unfold extractUnquotedName. by rewrite strchr_None. }
    destruct args as [|c r]; [by rewrite Hun|].
    unfold stops_at in Hq. apply negb_true_iff in Hq.
    by rewrite Ascii.eqb_sym, Hq, Hun.
  - intros Hu. unfold commandA, extractArguments, extractQuotedName.
    rewrite Ascii.eqb_refl. by rewrite strchr_None.
  - intros Hws. split.
    + intros Hu. rewrite quoted_cons. unfold commandA, extractArguments.
      rewrite Ascii.eqb_refl. unfold extractQuotedName.
      rewrite strchr_app by done. unfold extractVaccineName.
      by rewrite skip_space_blank.
    + intros Hu Hq. unfold commandA, extractArguments.
      assert (extractUnquotedName (u +:+ " " +:+ ws) = Some (u, ws)) as Hun.
      { unfold extractUnquotedName.
        rewrite string_app_cons, string_app_nil, strchr_app by done. done. }
      assert (match u +:+ " " +:+ ws with
              | String c _ =>
                  if Ascii.eqb c dquote then extractQuotedName (u +:+ " " +:+ ws)
                  else extractUnquotedName (u +:+ " " +:+ ws)
              | EmptyString => extractUnquotedName (u +:+ " " +:+ ws)
              end = Some (u, ws)) as ->.
      { destruct u as [|c u'].
        - rewrite string_app_nil in *. by rewrite string_app_cons.
        - rewrite string_app_cons in *. unfold starts_off in Hq.
          rewrite Ascii.eqb_sym, Hq. done. }
      unfold extractVaccineName. by rewrite skip_space_blank.
Qed.

Lemma commandA_invalid_arguments_witness :
  commandA "Alice" one_dose HASH_SIZE (mkDate 1 1 2025) false
  = (one_dose, ["invalid arguments"])
  ∧ commandA (String dquote "Ana Maria VaxX") one_dose HASH_SIZE (mkDate 1 1 2025) false
    = (one_dose, ["invalid arguments"])
  ∧ commandA (quoted "Ana Maria" +:+ "  ") one_dose HASH_SIZE (mkDate 1 1 2025) false
    = (one_dose, ["invalid arguments"])
  ∧ commandA ("Alice" +:+ " " +:+ "  ") one_dose HASH_SIZE (mkDate 1 1 2025) false
    = (one_dose, ["invalid arguments"]).
Proof.
  pose proof (commandA_invalid_arguments "Alice" "Ana Maria VaxX" "  " one_dose
                HASH_SIZE (mkDate 1 1 2025) false) as H1.
  pose proof (commandA_invalid_arguments "Alice" "Ana Maria" "  " one_dose
                HASH_SIZE (mkDate 1 1 2025) false) as H2.
  pose proof (commandA_invalid_arguments "Alice" "Alice" "  " one_dose
                HASH_SIZE (mkDate 1 1 2025) false) as H3.
  split; [exact (proj1 H1 eq_refl eq_refl)|].
  split; [exact (proj1 (proj2 H1) eq_refl)|].
  split; [exact (proj1 (proj2 (proj2 H2) eq_refl) eq_refl)|].
  exact (proj2 (proj2 (proj2 H3) eq_refl) eq_refl eq_refl).
Defined.

(** X27: the argument lines on which command D is silent, and the empty one.
    Command D prints nothing and changes nothing when the user name opens a
    double quote and never closes it, and when the text in the place of the
    date has 32 bytes or more; with a text there that does not scan as a
    date it prints the line for an invalid date, before looking for the
    user. *)
Theorem commandD_rejects (u tok rest : string) (s : State) (hashSize : Z)
    (cur : Date) (portuguese : bool) :
  char_free isspace tok → stops_at isspace rest → tok ≠ "" →
  (char_free (Ascii.eqb dquote) u →
   commandD (String dquote u) s hashSize cur portuguese = (s, []))
  ∧ (char_free (Ascii.eqb dquote) u →
     (32 <= strlen tok →
      commandD (quoted u +:+ " " +:+ tok +:+ rest) s hashSize cur portuguese
      = (s, []))
     ∧ (strlen tok < 32 → sscanf_date tok = None →
        commandD (quoted u +:+ " " +:+ tok +:+ rest) s hashSize cur portuguese
        = (s, [msg portuguese "data inválida" "invalid date"]))).
Proof.
  intros Htok Hrest Hne. split.
  - intros Hu. unfold commandD, processDeleteArgs, parseUserName.
    cbn [skip_space]. change (isspace dquote) with false. cbn match.
    rewrite Ascii.eqb_refl. by rewrite strchr_None.
  - intros Hu.
    assert (skipWhitespace (" " +:+ tok +:+ rest) = tok +:+ rest) as Hskip.
    { rewrite string_app_cons, string_app_nil. unfold skipWhitespace.
      cbn [skip_space]. change (isspace " ") with true. cbn match.
      apply skip_space_starts_off, starts_off_app.
      by apply char_free_starts_off. }
    assert (tok +:+ rest ≠ "") as Hne' by (by destruct tok).
    split.
    + intros Hlen. unfold commandD, processDeleteArgs.
      rewrite parseUserName_quoted by done. rewrite Hskip.
      destruct (tok +:+ rest) as [|c0 r0] eqn:E; [done|]. rewrite <-E.
      unfold extractDateString. rewrite span_nonspace_app by done.
      destruct (Z.geb_spec (strlen tok) 32); [done|lia].
    + intros Hlen Hscan. unfold commandD, processDeleteArgs.
      rewrite parseUserName_quoted by done. rewrite Hskip.
      destruct (tok +:+ rest) as [|c0 r0] eqn:E; [done|]. rewrite <-E.
      unfold extractDateString. rewrite span_nonspace_app by done.
      destruct (Z.geb_spec (strlen tok) 32); [lia|].
      unfold parseDateString. by rewrite Hscan.
Qed.

Lemma commandD_rejects_witness :
  commandD (String dquote "Ana") one_dose HASH_SIZE (mkDate 1 1 2025) false
  = (one_dose, [])
  ∧ commandD (quoted "Ana" +:+ " " +:+ "yesterday" +:+ " A1F") one_dose HASH_SIZE
      (mkDate 1 1 2025) false
    = (one_dose, ["invalid date"]).
Proof.
  pose proof (commandD_rejects "Ana" "yesterday" " A1F" one_dose HASH_SIZE
                (mkDate 1 1 2025) false eq_refl eq_refl ltac:(done)) as H.
  split; [exact (proj1 H eq_refl)|].
  exact (proj2 (proj2 H eq_refl) eq_refl eq_refl).
Defined.
